(** * KoulesII game engine: physics, collisions and scoring rules

    A shallow embedding of [src/game/GameEngine.js] (the deadly-wall,
    gravity variant of the engine) and the properties of its per-frame
    simulation.

    JavaScript numbers are modelled through the interface [JsNum], with two
    instances: IEEE-754 binary64 ([float], the numbers the engine really
    runs on, with NaN and the infinities) and the real numbers ([R], the
    exact arithmetic in which the algebraic properties are stated).  The
    integer-valued counters ([score], [lives], [level], [nextLifeAt]) are
    kept in [Z].

    Objects are shared between the arrays [this.objects], [this.rockets]
    and [this.balls]: they live in a [heap], and the arrays hold references
    (indices into the heap).

    Left out: everything that only draws (sprites, colours, the rocket's
    [rotation], [updateGravityEffects], the particles of an explosion). *)

From Stdlib Require Import ZArith Floats Reals Lra Lia.
From stdpp Require Import base option list strings gmap.

Set Default Proof Using "Type".

(** ** Numbers *)

Class JsNum (T : Type) := {
  nadd : T -> T -> T;
  nsub : T -> T -> T;
  nmul : T -> T -> T;
  ndiv : T -> T -> T;
  nsqrt : T -> T;              (* Math.sqrt *)
  nmin : T -> T -> T;          (* Math.min *)
  nmax : T -> T -> T;          (* Math.max *)
  nltb : T -> T -> bool;       (* a < b *)
  neqb : T -> T -> bool;       (* a === b *)
  ofZ : Z -> T;                (* an integer literal *)
  Math_PI : T;
}.

Declare Scope num_scope.
Delimit Scope num_scope with num.
Infix "+" := nadd : num_scope.
Infix "-" := nsub : num_scope.
Infix "*" := nmul : num_scope.
Infix "/" := ndiv : num_scope.
Infix "<" := nltb : num_scope.
Notation "a > b" := (nltb b a) : num_scope.

(** A decimal literal [n/d] of the source, e.g. [0.995] is [lit 995 1000]:
    on [float] the quotient of two exactly represented integers is the
    correctly rounded value, which is what the JavaScript literal
    denotes. *)
Definition lit {T} `{JsNum T} (n d : Z) : T := (ofZ n / ofZ d)%num.

(** [v !== v] holds of NaN only. *)
Definition isNaN {T} `{JsNum T} (v : T) : bool := negb (neqb v v).

(** [v || 0]: zero and NaN are falsy. *)
Definition orZero {T} `{JsNum T} (v : T) : T :=
  if neqb v (ofZ 0) || isNaN v then ofZ 0 else v.

(** *** The numbers of the engine: binary64 *)

Module FloatNum.

(** Exact for every integer of magnitude up to 2^53; the literals of the
    source are far below. *)
Definition of_Z (z : Z) : float :=
  match z with
  | Z0 => PrimFloat.zero
  | Zpos _ => PrimFloat.of_uint63 (Uint63.of_Z z)
  | Zneg p => PrimFloat.opp (PrimFloat.of_uint63 (Uint63.of_Z (Zpos p)))
  end.

Definition is_zero (a : float) : bool := PrimFloat.eqb a PrimFloat.zero.

(** [Math.min]: NaN if either argument is NaN, and [-0] is below [+0]. *)
Definition min (a b : float) : float :=
  if PrimFloat.is_nan a then a
  else if PrimFloat.is_nan b then b
  else if is_zero a && is_zero b then (if PrimFloat.get_sign a then a else b)
  else if PrimFloat.ltb b a then b else a.

Definition max (a b : float) : float :=
  if PrimFloat.is_nan a then a
  else if PrimFloat.is_nan b then b
  else if is_zero a && is_zero b then (if PrimFloat.get_sign a then b else a)
  else if PrimFloat.ltb a b then b else a.

#[global] Instance float_num : JsNum float := {|
  nadd := PrimFloat.add;
  nsub := PrimFloat.sub;
  nmul := PrimFloat.mul;
  ndiv := PrimFloat.div;
  nsqrt := PrimFloat.sqrt;
  nmin := min;
  nmax := max;
  nltb := PrimFloat.ltb;
  neqb := PrimFloat.eqb;
  ofZ := of_Z;
  Math_PI := 0x1.921fb54442d18p+1%float;
|}.

End FloatNum.

(** *** Exact arithmetic: the reals

    No NaN here, and a division by zero yields 0: this instance is for
    the algebraic properties only. *)

Module RealNum.

Definition ltb (a b : R) : bool := if Rlt_dec a b then true else false.
Definition eqb (a b : R) : bool := if Req_dec_T a b then true else false.

#[global] Instance real_num : JsNum R := {|
  nadd := Rplus;
  nsub := Rminus;
  nmul := Rmult;
  ndiv := Rdiv;
  nsqrt := sqrt;
  nmin := Rmin;
  nmax := Rmax;
  nltb := ltb;
  neqb := eqb;
  ofZ := IZR;
  Math_PI := PI;
|}.

End RealNum.

(** *** The sign of a number

    [Math.abs] and the unary minus, which the wall bounce of the classic
    engine uses. *)

Class JsSign (T : Type) := {
  nabs : T -> T;               (* Math.abs *)
  nopp : T -> T;               (* -a *)
}.

#[global] Instance float_sign : JsSign float := {|
  nabs := PrimFloat.abs;
  nopp := PrimFloat.opp;
|}.

#[global] Instance real_sign : JsSign R := {|
  nabs := Rabs;
  nopp := Ropp;
|}.

(** ** Data model *)

(** [GAME_CONSTANTS]: the object types 1..10. *)
Inductive Kind :=
  | ROCKET | BALL_SMALL | BALL_LARGE | CREATOR | HOLE
  | BBALL | APPLE | INSPECTOR | EHOLE | LUNATIC.

(** The number that stands for a type in [GAME_CONSTANTS]. *)
Definition kindCode (k : Kind) : Z :=
  match k with
  | ROCKET => 1 | BALL_SMALL => 2 | BALL_LARGE => 3 | CREATOR => 4
  | HOLE => 5 | BBALL => 6 | APPLE => 7 | INSPECTOR => 8 | EHOLE => 9
  | LUNATIC => 10
  end.

(** [type === GAME_CONSTANTS.K]. *)
Definition isKind (k k' : Kind) : bool := (kindCode k =? kindCode k')%Z.

(** [type === BALL_SMALL || type === BALL_LARGE]. *)
Definition isBall (k : Kind) : bool :=
  isKind k BALL_SMALL || isKind k BALL_LARGE.

(** The record built by [createGameObject]. *)
Module Obj.
Record t (T : Type) := mk {
  type : Kind;
  x : T; y : T;
  vx : T; vy : T;
  fx : T; fy : T;
  radius : T;
  mass : T;
  live : bool;
  playerId : Z;
}.
Arguments mk {T}.
Arguments type {T}. Arguments x {T}. Arguments y {T}.
Arguments vx {T}. Arguments vy {T}. Arguments fx {T}. Arguments fy {T}.
Arguments radius {T}. Arguments mass {T}. Arguments live {T}.
Arguments playerId {T}.
End Obj.
Abbreviation GameObject := Obj.t.

Inductive Phase := Stopped | Running | Paused.

(** What [this.emit] sends to the listeners. *)
Inductive Event :=
  | gameStarted (level : Z) (playerCount : nat)
  | scoreUpdate (score level lives : Z)
  | extraLife (score level lives nextLifeAt : Z)
  | levelComplete (level score : Z)
  | gameOver (score level : Z).

(** The cues of [audioManager.playSound]. *)
Inductive Sound :=
  | sndCollision | sndBallInHole | sndRocketDeath | sndObjectDeath
  | sndLevelComplete.

(** Everything the engine sends out, in order. *)
Inductive Output (T : Type) :=
  | Emit (e : Event)
  | Play (s : Sound)
  | Explosion (ex ey : T) (color : Z).
Arguments Emit {T}. Arguments Play {T}. Arguments Explosion {T}.

(** The fields of the [GameEngine] instance. *)
Record State (T : Type) := mkState {
  gameState : Phase;
  level : Z;
  score : Z;
  lives : Z;
  nextLifeAt : Z;
  playerCount : nat;
  heap : list (GameObject T);     (* every object created, by reference *)
  objects : list nat;             (* this.objects *)
  rockets : list nat;             (* this.rockets *)
  balls : list nat;               (* this.balls *)
  deltaTime : T;
  randomCalls : nat;              (* calls of Math.random so far *)
  out : list (Output T);
}.
Arguments mkState {T}.
Arguments gameState {T}. Arguments level {T}. Arguments score {T}.
Arguments lives {T}. Arguments nextLifeAt {T}. Arguments playerCount {T}.
Arguments heap {T}. Arguments objects {T}. Arguments rockets {T}.
Arguments balls {T}. Arguments deltaTime {T}. Arguments randomCalls {T}.
Arguments out {T}.

(** The [up/down/left/right/brake] flags of one player. *)
Module Ctl.
Record t := mk {
  up : bool; down : bool; left : bool; right : bool; brake : bool;
}.
End Ctl.
Abbreviation Controls := Ctl.t.

(** The collaborators of the engine: the screen of the Pixi application,
    the input manager, and the implementation-defined parts of [Math]. *)
Record Host (T : Type) := mkHost {
  screenWidth : T;
  screenHeight : T;
  getPlayerControls : nat -> Controls;
  Math_random : nat -> T;         (* the n-th value drawn *)
  Math_cos : T -> T;
  Math_sin : T -> T;
}.
Arguments mkHost {T}.
Arguments screenWidth {T}. Arguments screenHeight {T}.
Arguments getPlayerControls {T}. Arguments Math_random {T}.
Arguments Math_cos {T}. Arguments Math_sin {T}.

(** ** Field updates *)

Section Updates.
Context {T : Type}.

Definition set_pos (px py : T) (o : GameObject T) : GameObject T :=
  Obj.mk (Obj.type o) px py (Obj.vx o) (Obj.vy o) (Obj.fx o) (Obj.fy o)
         (Obj.radius o) (Obj.mass o) (Obj.live o) (Obj.playerId o).

Definition set_vel (pvx pvy : T) (o : GameObject T) : GameObject T :=
  Obj.mk (Obj.type o) (Obj.x o) (Obj.y o) pvx pvy (Obj.fx o) (Obj.fy o)
         (Obj.radius o) (Obj.mass o) (Obj.live o) (Obj.playerId o).

Definition set_force (pfx pfy : T) (o : GameObject T) : GameObject T :=
  Obj.mk (Obj.type o) (Obj.x o) (Obj.y o) (Obj.vx o) (Obj.vy o) pfx pfy
         (Obj.radius o) (Obj.mass o) (Obj.live o) (Obj.playerId o).

Definition set_live (b : bool) (o : GameObject T) : GameObject T :=
  Obj.mk (Obj.type o) (Obj.x o) (Obj.y o) (Obj.vx o) (Obj.vy o) (Obj.fx o)
         (Obj.fy o) (Obj.radius o) (Obj.mass o) b (Obj.playerId o).

Definition set_gameState (p : Phase) (st : State T) : State T :=
  mkState p (level st) (score st) (lives st) (nextLifeAt st) (playerCount st)
          (heap st) (objects st) (rockets st) (balls st) (deltaTime st)
          (randomCalls st) (out st).

Definition set_score (n : Z) (st : State T) : State T :=
  mkState (gameState st) (level st) n (lives st) (nextLifeAt st)
          (playerCount st) (heap st) (objects st) (rockets st) (balls st)
          (deltaTime st) (randomCalls st) (out st).

Definition set_lives (n : Z) (st : State T) : State T :=
  mkState (gameState st) (level st) (score st) n (nextLifeAt st)
          (playerCount st) (heap st) (objects st) (rockets st) (balls st)
          (deltaTime st) (randomCalls st) (out st).

Definition set_nextLifeAt (n : Z) (st : State T) : State T :=
  mkState (gameState st) (level st) (score st) (lives st) n (playerCount st)
          (heap st) (objects st) (rockets st) (balls st) (deltaTime st)
          (randomCalls st) (out st).

Definition set_heap (hp : list (GameObject T)) (st : State T) : State T :=
  mkState (gameState st) (level st) (score st) (lives st) (nextLifeAt st)
          (playerCount st) hp (objects st) (rockets st) (balls st)
          (deltaTime st) (randomCalls st) (out st).

Definition set_objects (l : list nat) (st : State T) : State T :=
  mkState (gameState st) (level st) (score st) (lives st) (nextLifeAt st)
          (playerCount st) (heap st) l (rockets st) (balls st)
          (deltaTime st) (randomCalls st) (out st).

Definition set_rockets (l : list nat) (st : State T) : State T :=
  mkState (gameState st) (level st) (score st) (lives st) (nextLifeAt st)
          (playerCount st) (heap st) (objects st) l (balls st)
          (deltaTime st) (randomCalls st) (out st).

Definition set_balls (l : list nat) (st : State T) : State T :=
  mkState (gameState st) (level st) (score st) (lives st) (nextLifeAt st)
          (playerCount st) (heap st) (objects st) (rockets st) l
          (deltaTime st) (randomCalls st) (out st).

Definition set_deltaTime (d : T) (st : State T) : State T :=
  mkState (gameState st) (level st) (score st) (lives st) (nextLifeAt st)
          (playerCount st) (heap st) (objects st) (rockets st) (balls st)
          d (randomCalls st) (out st).

Definition set_randomCalls (n : nat) (st : State T) : State T :=
  mkState (gameState st) (level st) (score st) (lives st) (nextLifeAt st)
          (playerCount st) (heap st) (objects st) (rockets st) (balls st)
          (deltaTime st) n (out st).

Definition set_out (o : list (Output T)) (st : State T) : State T :=
  mkState (gameState st) (level st) (score st) (lives st) (nextLifeAt st)
          (playerCount st) (heap st) (objects st) (rockets st) (balls st)
          (deltaTime st) (randomCalls st) o.

(** Assignment to the fields of the object behind a reference. *)
Definition store (r : nat) (o : GameObject T) (st : State T) : State T :=
  set_heap (<[r := o]> (heap st)) st.

(** [l.forEach(f)], the state threaded through. *)
Definition forEach {A St : Type} (f : A -> St -> St) (l : list A) (s : St)
    : St :=
  fold_left (fun acc a => f a acc) l s.

(** [l.forEach((a, index) => f)]. *)
Fixpoint forEachFrom {A St : Type} (f : A -> nat -> St -> St) (i : nat)
    (l : list A) (s : St) : St :=
  match l with
  | [] => s
  | a :: l' => forEachFrom f (S i) l' (f a i s)
  end.

(** A counted loop whose body may throw. *)
Fixpoint forRange {St : Type} (f : nat -> St -> option St) (i n : nat)
    (s : St) : option St :=
  match n with
  | O => Some s
  | S n' => s' ← f i s; forRange f (S i) n' s'
  end.

End Updates.

(** ** The engine *)

Section Engine.
Context {T : Type} `{JsNum T}.
Local Open Scope num_scope.

(** The gravity constants set by the constructor. *)
Definition GRAVITY_STRENGTH : T := ofZ 1000.
Definition MIN_GRAVITY_DISTANCE : T := ofZ 30.
Definition MAX_GRAVITY_DISTANCE : T := ofZ 150.

Definition getRadius (k : Kind) : T :=
  match k with
  | ROCKET => ofZ 14
  | BALL_SMALL => ofZ 8
  | BALL_LARGE => ofZ 16
  | BBALL => ofZ 16
  | HOLE => ofZ 12
  | APPLE => ofZ 32
  | INSPECTOR => ofZ 14
  | LUNATIC => ofZ 10
  | _ => ofZ 10
  end.

Definition getMass (k : Kind) : T :=
  match k with
  | ROCKET => ofZ 4
  | BALL_SMALL => ofZ 3
  | BALL_LARGE => ofZ 6
  | BBALL => ofZ 8
  | APPLE => ofZ 34
  | INSPECTOR => ofZ 2
  | LUNATIC => lit 314 100
  | _ => ofZ 1
  end.

(** *** Notifications *)

Definition emit (e : Event) (st : State T) : State T :=
  set_out (out st ++ [Emit e]) st.

Definition playSound (s : Sound) (st : State T) : State T :=
  set_out (out st ++ [Play s]) st.

(** Eight particles, each drawing one random speed. *)
Definition createExplosion (ex ey : T) (color : Z) (st : State T) : State T :=
  set_randomCalls (randomCalls st + 8)
    (set_out (out st ++ [Explosion ex ey color]) st).

Definition checkExtraLife (st : State T) : State T :=
  let st :=
    if (score st >=? nextLifeAt st)%Z then
      let st := set_lives (lives st + 1) st in
      let st := set_nextLifeAt (nextLifeAt st + 500) st in
      let st := playSound sndLevelComplete st in
      emit (extraLife (score st) (level st) (lives st) (nextLifeAt st)) st
    else st in
  emit (scoreUpdate (score st) (level st) (lives st)) st.

(** *** Creating objects *)

(** [createGameObject(config)]; [cvx], [cvy] and [cplayer] are [None] where
    the caller leaves the field out.  Returns the reference of the new
    object. *)
Definition createGameObject (ty : Kind) (cx cy : T) (cvx cvy : option T)
    (cplayer : option nat) (st : State T) : nat * State T :=
  let obj :=
    Obj.mk ty (orZero cx) (orZero cy)
      (from_option orZero (ofZ 0) cvx) (from_option orZero (ofZ 0) cvy)
      (ofZ 0) (ofZ 0) (getRadius ty) (getMass ty) true
      (match cplayer with
       | Some (S i) => Z.of_nat (S i)
       | _ => (-1)%Z
       end) in
  let r := length (heap st) in
  (r, set_objects (objects st ++ [r]) (set_heap (heap st ++ [obj]) st)).

Definition isPositionSafeFromGravity (px py : T) (st : State T) : bool :=
  forallb
    (fun r =>
       match heap st !! r with
       | Some obj =>
           if isKind (Obj.type obj) HOLE && Obj.live obj then
             let dx := Obj.x obj - px in
             let dy := Obj.y obj - py in
             let distance := nsqrt (dx * dx + dy * dy) in
             negb (distance < MAX_GRAVITY_DISTANCE)
           else true
       | None => true
       end)
    (objects st).

Definition getFallbackSpawnPosition (h : Host T) : T * T :=
  (screenWidth h / ofZ 2, screenHeight h / ofZ 2).

(** The candidate probed at one attempt of the spiral search. *)
Definition spawnCandidate (h : Host T) (preferred : T * T) (attempt : nat)
    : T * T :=
  let a := ofZ (Z.of_nat attempt) in
  let angle := (a * lit 1375 10 * Math_PI) / ofZ 180 in
  let radius := ofZ 50 + a * ofZ 10 in
  let testX := fst preferred + Math_cos h angle * radius in
  let testY := snd preferred + Math_sin h angle * radius in
  (nmax (ofZ 50) (nmin (screenWidth h - ofZ 50) testX),
   nmax (ofZ 50) (nmin (screenHeight h - ofZ 50) testY)).

Definition findSafeSpawnPosition (h : Host T) (preferred : T * T)
    (st : State T) : T * T :=
  if isPositionSafeFromGravity (fst preferred) (snd preferred) st
  then preferred
  else
    let maxAttempts := 50%nat in
    match
      find (fun p => isPositionSafeFromGravity (fst p) (snd p) st)
           (map (spawnCandidate h preferred) (seq 0 maxAttempts))
    with
    | Some p => p
    | None => getFallbackSpawnPosition h
    end.

Definition rocketPositions (h : Host T) : list (T * T) :=
  let screenWidth := screenWidth h in
  let screenHeight := screenHeight h in
  [ (screenWidth * lit 125 1000, screenHeight * lit 5 10);
    (screenWidth * lit 875 1000, screenHeight * lit 5 10);
    (screenWidth * lit 5 10, screenHeight * lit 167 1000);
    (screenWidth * lit 5 10, screenHeight * lit 833 1000);
    (screenWidth * lit 25 100, screenHeight * lit 333 1000) ].

(** One round of the loop of [createRockets]; reading [.x] of a missing
    [rocketPositions[i]] throws. *)
Definition createRocket (h : Host T) (i : nat) (st : State T)
    : option (State T) :=
  preferred ← rocketPositions h !! i;
  let safePosition := findSafeSpawnPosition h preferred st in
  let '(rocket, st) :=
    createGameObject ROCKET (fst safePosition) (snd safePosition) None None
      (Some i) st in
  Some (set_rockets (rockets st ++ [rocket]) st).

Definition createRockets (h : Host T) (st : State T) : option (State T) :=
  forRange (createRocket h) 0 (playerCount st) st.

(** One round of the loop of [createBalls]: five random draws, in the order
    in which the source evaluates them. *)
Definition createBall (h : Host T) (st : State T) : State T :=
  let n := randomCalls st in
  let isLarge := Math_random h n < lit 25 100 in
  let ballType := if isLarge then BALL_LARGE else BALL_SMALL in
  let bx := Math_random h (n + 1) * (screenWidth h - ofZ 100) + ofZ 50 in
  let by_ := Math_random h (n + 2) * (screenHeight h - ofZ 100) + ofZ 50 in
  let bvx := (Math_random h (n + 3) - lit 5 10) * ofZ 2 in
  let bvy := (Math_random h (n + 4) - lit 5 10) * ofZ 2 in
  let st := set_randomCalls (n + 5) st in
  let '(ball, st) :=
    createGameObject ballType bx by_ (Some bvx) (Some bvy) None st in
  set_balls (balls st ++ [ball]) st.

Definition createBalls (h : Host T) (st : State T) : State T :=
  let ballCount := Z.min (8 + level st) 15 in
  Nat.iter (Z.to_nat ballCount) (createBall h) st.

Definition createHole (h : Host T) (st : State T) : State T :=
  let n := randomCalls st in
  let hx := Math_random h n * screenWidth h in
  let hy := Math_random h (n + 1) * screenHeight h in
  snd (createGameObject HOLE hx hy None None None
         (set_randomCalls (n + 2) st)).

Definition createBigBall (h : Host T) (st : State T) : State T :=
  let n := randomCalls st in
  let bx := Math_random h n * screenWidth h in
  let by_ := Math_random h (n + 1) * screenHeight h in
  let bvx := Math_random h (n + 2) - lit 5 10 in
  let bvy := Math_random h (n + 3) - lit 5 10 in
  snd (createGameObject BBALL bx by_ (Some bvx) (Some bvy) None
         (set_randomCalls (n + 4) st)).

Definition createSpecialObjects (h : Host T) (st : State T) : State T :=
  let st :=
    if (level st >? 2)%Z
    then Nat.iter (Z.to_nat (Z.min (level st - 2) 3)) (createHole h) st
    else st in
  if (level st >? 3)%Z
  then Nat.iter (Z.to_nat (Z.min (level st - 3) 2)) (createBigBall h) st
  else st.

Definition initLevel (h : Host T) (st : State T) : option (State T) :=
  st ← createRockets h st;
  let st := createBalls h st in
  Some (if (level st >? 1)%Z then createSpecialObjects h st else st).

Definition clearGame (st : State T) : State T :=
  set_balls [] (set_rockets [] (set_objects [] st)).

Definition restartLevel (h : Host T) (st : State T) : option (State T) :=
  st ← initLevel h (clearGame st);
  Some (set_gameState Running st).

(** *** Input *)

(** The body of the [forEach] of [processInput], for a live rocket. *)
Definition steer (controls : Controls) (rocket : GameObject T)
    : GameObject T :=
  let rocket := set_force (ofZ 0) (ofZ 0) rocket in
  let thrustForce := lit 8 10 in
  let brakeForce := lit 95 100 in
  let rocket :=
    if Ctl.up controls
    then set_force (Obj.fx rocket) (Obj.fy rocket - thrustForce) rocket
    else rocket in
  let rocket :=
    if Ctl.down controls
    then set_force (Obj.fx rocket) (Obj.fy rocket + thrustForce) rocket
    else rocket in
  let rocket :=
    if Ctl.left controls
    then set_force (Obj.fx rocket - thrustForce) (Obj.fy rocket) rocket
    else rocket in
  let rocket :=
    if Ctl.right controls
    then set_force (Obj.fx rocket + thrustForce) (Obj.fy rocket) rocket
    else rocket in
  if Ctl.brake controls then
    let rocket :=
      set_force (Obj.fx rocket - Obj.vx rocket * lit 1 10)
                (Obj.fy rocket - Obj.vy rocket * lit 1 10) rocket in
    set_vel (Obj.vx rocket * brakeForce) (Obj.vy rocket * brakeForce) rocket
  else rocket.

Definition processInput (h : Host T) (st : State T) : State T :=
  forEachFrom
    (fun r index st =>
       match heap st !! r with
       | Some rocket =>
           if negb (Obj.live rocket) then st
           else store r (steer (getPlayerControls h index) rocket) st
       | None => st
       end)
    0 (rockets st) st.

(** *** Forces and integration *)

(** The body of the [forEach] of [applyGravity]: the pull of one entry of
    [this.objects] on [obj]. *)
Definition gravityFrom (hole obj : GameObject T) : GameObject T :=
  if negb (Obj.live hole) || negb (isKind (Obj.type hole) HOLE) then obj
  else
    let dx := Obj.x hole - Obj.x obj in
    let dy := Obj.y hole - Obj.y obj in
    let distance := nsqrt (dx * dx + dy * dy) in
    if (distance < MAX_GRAVITY_DISTANCE) && (distance > MIN_GRAVITY_DISTANCE)
    then
      let gravityForce := GRAVITY_STRENGTH / (distance * distance) in
      let nx := dx / distance in
      let ny := dy / distance in
      set_force (Obj.fx obj + nx * gravityForce)
                (Obj.fy obj + ny * gravityForce) obj
    else obj.

Definition applyGravity (st : State T) (obj : GameObject T) : GameObject T :=
  if isKind (Obj.type obj) HOLE then obj
  else
    forEach
      (fun r obj =>
         match heap st !! r with
         | Some hole => gravityFrom hole obj
         | None => obj
         end)
      (objects st) obj.

(** Acceleration, friction, the velocity cap and the move of
    [updatePhysics], on the object already pulled by the holes.  (The
    test [obj.fx !== undefined && obj.fy !== undefined] of the source
    always passes: [createGameObject] sets both fields.) *)
Definition integrate (dt : T) (obj : GameObject T) : GameObject T :=
  let ax := Obj.fx obj / Obj.mass obj in
  let ay := Obj.fy obj / Obj.mass obj in
  let obj := set_vel (Obj.vx obj + ax * dt) (Obj.vy obj + ay * dt) obj in
  let friction :=
    if isKind (Obj.type obj) ROCKET then lit 98 100 else lit 995 1000 in
  let obj := set_vel (Obj.vx obj * friction) (Obj.vy obj * friction) obj in
  let maxVel := if isKind (Obj.type obj) ROCKET then ofZ 8 else ofZ 6 in
  let vel := nsqrt (Obj.vx obj * Obj.vx obj + Obj.vy obj * Obj.vy obj) in
  let obj :=
    if vel > maxVel
    then set_vel ((Obj.vx obj / vel) * maxVel)
                 ((Obj.vy obj / vel) * maxVel) obj
    else obj in
  set_pos (Obj.x obj + Obj.vx obj) (Obj.y obj + Obj.vy obj) obj.

Definition keepInBounds (h : Host T) (r : nat) (st : State T) : State T :=
  match heap st !! r with
  | Some obj =>
      let margin := Obj.radius obj in
      let hitLeft := Obj.x obj < margin in
      let hitRight := Obj.x obj > screenWidth h - margin in
      let hitTop := Obj.y obj < margin in
      let hitBottom := Obj.y obj > screenHeight h - margin in
      if hitLeft || hitRight || hitTop || hitBottom then
        if isKind (Obj.type obj) HOLE then st
        else
          let st := store r (set_live false obj) st in
          let st :=
            match Obj.type obj with
            | BALL_SMALL => checkExtraLife (set_score (score st + 5) st)
            | BALL_LARGE => checkExtraLife (set_score (score st + 10) st)
            | _ => st
            end in
          let st :=
            if isKind (Obj.type obj) ROCKET
            then playSound sndRocketDeath st
            else playSound sndObjectDeath st in
          let explosionColor :=
            if isKind (Obj.type obj) ROCKET then 0xff4444%Z else 0xffaa44%Z in
          createExplosion (Obj.x obj) (Obj.y obj) explosionColor st
      else st
  | None => st
  end.

(** The body of the [forEach] of [updatePhysics]. *)
Definition physicsStep (h : Host T) (r : nat) (st : State T) : State T :=
  match heap st !! r with
  | Some obj =>
      if negb (Obj.live obj) then st
      else
        let obj := applyGravity st obj in
        let obj := integrate (deltaTime st) obj in
        keepInBounds h r (store r obj st)
  | None => st
  end.

Definition updatePhysics (h : Host T) (st : State T) : State T :=
  forEach (physicsStep h) (objects st) st.

(** *** Collisions *)

Definition handleSpecialCollisions (r1 r2 : nat) (st : State T) : State T :=
  match heap st !! r1, heap st !! r2 with
  | Some obj1, Some obj2 =>
      if (isBall (Obj.type obj1) && isKind (Obj.type obj2) HOLE)
         || (isBall (Obj.type obj2) && isKind (Obj.type obj1) HOLE)
      then
        let '(rb, ball) :=
          if isBall (Obj.type obj1) then (r1, obj1) else (r2, obj2) in
        let st := store rb (set_live false ball) st in
        let st :=
          match Obj.type ball with
          | BALL_SMALL => set_score (score st + 10) st
          | BALL_LARGE => set_score (score st + 20) st
          | _ => st
          end in
        let st := checkExtraLife st in
        playSound sndBallInHole st
      else if (isKind (Obj.type obj1) ROCKET && isKind (Obj.type obj2) HOLE)
              || (isKind (Obj.type obj2) ROCKET && isKind (Obj.type obj1) HOLE)
      then
        let '(rr, rocket) :=
          if isKind (Obj.type obj1) ROCKET then (r1, obj1) else (r2, obj2) in
        let st := store rr (set_live false rocket) st in
        let st := playSound sndRocketDeath st in
        createExplosion (Obj.x rocket) (Obj.y rocket) 0xff4444%Z st
      else st
  | _, _ => st
  end.

Definition handleCollision (r1 r2 : nat) (dx dy distance : T) (st : State T)
    : State T :=
  match heap st !! r1, heap st !! r2 with
  | Some obj1, Some obj2 =>
      let nx := dx / distance in
      let ny := dy / distance in
      let overlap :=
        (Obj.radius obj1 + Obj.radius obj2 - distance) / ofZ 2 in
      let obj1 :=
        set_pos (Obj.x obj1 - nx * overlap) (Obj.y obj1 - ny * overlap)
                obj1 in
      let obj2 :=
        set_pos (Obj.x obj2 + nx * overlap) (Obj.y obj2 + ny * overlap)
                obj2 in
      let dvx := Obj.vx obj2 - Obj.vx obj1 in
      let dvy := Obj.vy obj2 - Obj.vy obj1 in
      let dvn := dvx * nx + dvy * ny in
      if dvn > ofZ 0 then store r2 obj2 (store r1 obj1 st)
      else
        let impulse := (ofZ 2 * dvn) / (Obj.mass obj1 + Obj.mass obj2) in
        let v1x := Obj.vx obj1 + impulse * Obj.mass obj2 * nx in
        let v1y := Obj.vy obj1 + impulse * Obj.mass obj2 * ny in
        let v2x := Obj.vx obj2 - impulse * Obj.mass obj1 * nx in
        let v2y := Obj.vy obj2 - impulse * Obj.mass obj1 * ny in
        let st := store r2 (set_vel v2x v2y obj2)
                    (store r1 (set_vel v1x v1y obj1) st) in
        let st := handleSpecialCollisions r1 r2 st in
        playSound sndCollision st
  | _, _ => st
  end.

(** The body of the inner loop of [checkCollisions]. *)
Definition collidePair (r1 r2 : nat) (st : State T) : State T :=
  match heap st !! r1, heap st !! r2 with
  | Some obj1, Some obj2 =>
      if negb (Obj.live obj1) || negb (Obj.live obj2) then st
      else
        let dx := Obj.x obj2 - Obj.x obj1 in
        let dy := Obj.y obj2 - Obj.y obj1 in
        let distance := nsqrt (dx * dx + dy * dy) in
        let minDistance := Obj.radius obj1 + Obj.radius obj2 in
        if distance < minDistance
        then handleCollision r1 r2 dx dy distance st
        else st
  | _, _ => st
  end.

(** The two nested loops over [i < j]. *)
Fixpoint collideAll (l : list nat) (st : State T) : State T :=
  match l with
  | [] => st
  | r1 :: rest => collideAll rest (forEach (collidePair r1) rest st)
  end.

Definition checkCollisions (st : State T) : State T :=
  collideAll (objects st) st.

(** *** End of the frame *)

Definition isLive (st : State T) (r : nat) : bool :=
  match heap st !! r with
  | Some obj => Obj.live obj
  | None => false
  end.

(** Dead objects leave [this.objects]; the other arrays keep them. *)
Definition updateObjects (st : State T) : State T :=
  set_objects (List.filter (isLive st) (objects st)) st.

Definition aliveBalls (st : State T) : list nat :=
  List.filter
    (fun r =>
       match heap st !! r with
       | Some obj => Obj.live obj && isBall (Obj.type obj)
       | None => false
       end)
    (objects st).

Definition aliveRockets (st : State T) : list nat :=
  List.filter (isLive st) (rockets st).

Definition checkGameState (h : Host T) (st : State T) : option (State T) :=
  let st :=
    if (length (aliveBalls st) =? 0)%nat
    then emit (levelComplete (level st) (score st)) st
    else st in
  if (length (aliveRockets st) =? 0)%nat then
    let st := set_lives (lives st - 1) st in
    if (lives st <=? 0)%Z
    then Some (emit (gameOver (score st) (level st)) st)
    else restartLevel h st
  else Some st.

(** One frame; [None] when the frame throws. *)
Definition gameLoop (h : Host T) (delta : T) (st : State T)
    : option (State T) :=
  match gameState st with
  | Running =>
      let st := set_deltaTime (delta / ofZ 60) st in
      let st := processInput h st in
      let st := updatePhysics h st in
      let st := checkCollisions st in
      let st := updateObjects st in
      st ← checkGameState h st;
      Some (emit (scoreUpdate (score st) (level st) (lives st)) st)
  | _ => Some st
  end.

(** *** Control of the game *)

(** The state the constructor leaves. *)
Definition initialState : State T :=
  mkState Stopped 1 0 3 500 1 [] [] [] [] (ofZ 0) 0 [].

(** [startGame(config)], [config] carrying [playerCount] and [level]. *)
Definition startGame (h : Host T) (cPlayerCount : nat) (cLevel : Z)
    (st : State T) : option (State T) :=
  let st :=
    mkState (gameState st)
            (if (cLevel =? 0)%Z then 1%Z else cLevel)
            0 3 500
            (if (cPlayerCount =? 0)%nat then 1%nat else cPlayerCount)
            (heap st) (objects st) (rockets st) (balls st) (deltaTime st)
            (randomCalls st) (out st) in
  st ← initLevel h (clearGame st);
  let st := set_gameState Running st in
  Some (emit (gameStarted (level st) (playerCount st)) st).

Definition pause (st : State T) : State T := set_gameState Paused st.
Definition resume (st : State T) : State T := set_gameState Running st.
Definition stop (st : State T) : State T := set_gameState Stopped st.

End Engine.

(** ** The classic engine

    The engine as it was before the deadly walls and the gravity (the
    second [GameEngine.js] of the repository).  A wall kills rockets only
    and the other objects bounce off it; a hole swallows the balls of type
    [BALL] and nothing else; there is no extra life and no safe spawn.
    [processInput], the integration of [updatePhysics], [updateObjects]
    and the loops are word for word those of the engine above and are
    taken from there. *)

Module Classic.

(** The names that the types 2 and 3 have in this engine. *)
Abbreviation BALL := BALL_SMALL.
Abbreviation LBALL := BALL_LARGE.

Section Engine.
Context {T : Type} `{JsNum T} `{JsSign T}.
Local Open Scope num_scope.

Definition getRadius (k : Kind) : T :=
  match k with
  | ROCKET => ofZ 14
  | BALL | LBALL => ofZ 8
  | BBALL => ofZ 16
  | HOLE => ofZ 12
  | APPLE => ofZ 32
  | INSPECTOR => ofZ 14
  | LUNATIC => ofZ 10
  | _ => ofZ 10
  end.

Definition getMass (k : Kind) : T :=
  match k with
  | ROCKET => ofZ 4
  | BALL | LBALL => ofZ 3
  | BBALL => ofZ 8
  | APPLE => ofZ 34
  | INSPECTOR => ofZ 2
  | LUNATIC => lit 314 100
  | _ => ofZ 1
  end.

Definition createGameObject (ty : Kind) (cx cy : T) (cvx cvy : option T)
    (cplayer : option nat) (st : State T) : nat * State T :=
  let obj :=
    Obj.mk ty (orZero cx) (orZero cy)
      (from_option orZero (ofZ 0) cvx) (from_option orZero (ofZ 0) cvy)
      (ofZ 0) (ofZ 0) (getRadius ty) (getMass ty) true
      (match cplayer with
       | Some (S i) => Z.of_nat (S i)
       | _ => (-1)%Z
       end) in
  let r := length (heap st) in
  (r, set_objects (objects st ++ [r]) (set_heap (heap st ++ [obj]) st)).

Definition rocketPositions : list (T * T) :=
  [ (ofZ 100, ofZ 300); (ofZ 700, ofZ 300); (ofZ 400, ofZ 100);
    (ofZ 400, ofZ 500); (ofZ 200, ofZ 200) ].

(** One round of the loop of [createRockets]; reading [.x] of a missing
    [rocketPositions[i]] throws. *)
Definition createRocket (i : nat) (st : State T) : option (State T) :=
  position ← rocketPositions !! i;
  let '(rocket, st) :=
    createGameObject ROCKET (fst position) (snd position) None None
      (Some i) st in
  Some (set_rockets (rockets st ++ [rocket]) st).

Definition createRockets (st : State T) : option (State T) :=
  forRange createRocket 0 (playerCount st) st.

(** One round of the loop of [createBalls]: four random draws. *)
Definition createBall (h : Host T) (st : State T) : State T :=
  let n := randomCalls st in
  let bx := Math_random h n * (screenWidth h - ofZ 100) + ofZ 50 in
  let by_ := Math_random h (n + 1) * (screenHeight h - ofZ 100) + ofZ 50 in
  let bvx := (Math_random h (n + 2) - lit 5 10) * ofZ 2 in
  let bvy := (Math_random h (n + 3) - lit 5 10) * ofZ 2 in
  let st := set_randomCalls (n + 4) st in
  let '(ball, st) :=
    createGameObject BALL bx by_ (Some bvx) (Some bvy) None st in
  set_balls (balls st ++ [ball]) st.

Definition createBalls (h : Host T) (st : State T) : State T :=
  let ballCount := Z.min (8 + level st) 15 in
  Nat.iter (Z.to_nat ballCount) (createBall h) st.

Definition createHole (h : Host T) (st : State T) : State T :=
  let n := randomCalls st in
  let hx := Math_random h n * screenWidth h in
  let hy := Math_random h (n + 1) * screenHeight h in
  snd (createGameObject HOLE hx hy None None None
         (set_randomCalls (n + 2) st)).

Definition createBigBall (h : Host T) (st : State T) : State T :=
  let n := randomCalls st in
  let bx := Math_random h n * screenWidth h in
  let by_ := Math_random h (n + 1) * screenHeight h in
  let bvx := Math_random h (n + 2) - lit 5 10 in
  let bvy := Math_random h (n + 3) - lit 5 10 in
  snd (createGameObject BBALL bx by_ (Some bvx) (Some bvy) None
         (set_randomCalls (n + 4) st)).

Definition createSpecialObjects (h : Host T) (st : State T) : State T :=
  let st :=
    if (level st >? 2)%Z
    then Nat.iter (Z.to_nat (Z.min (level st - 2) 3)) (createHole h) st
    else st in
  if (level st >? 3)%Z
  then Nat.iter (Z.to_nat (Z.min (level st - 3) 2)) (createBigBall h) st
  else st.

Definition initLevel (h : Host T) (st : State T) : option (State T) :=
  st ← createRockets st;
  let st := createBalls h st in
  Some (if (level st >? 1)%Z then createSpecialObjects h st else st).

Definition restartLevel (h : Host T) (st : State T) : option (State T) :=
  st ← initLevel h (clearGame st);
  Some (set_gameState Running st).

(** [startGame(config)]; this engine has no threshold to reset. *)
Definition startGame (h : Host T) (cPlayerCount : nat) (cLevel : Z)
    (st : State T) : option (State T) :=
  let st :=
    mkState (gameState st)
            (if (cLevel =? 0)%Z then 1%Z else cLevel)
            0 3 (nextLifeAt st)
            (if (cPlayerCount =? 0)%nat then 1%nat else cPlayerCount)
            (heap st) (objects st) (rockets st) (balls st) (deltaTime st)
            (randomCalls st) (out st) in
  st ← initLevel h (clearGame st);
  let st := set_gameState Running st in
  Some (emit (gameStarted (level st) (playerCount st)) st).

(** [stop()] also empties the arrays. *)
Definition stop (st : State T) : State T :=
  clearGame (set_gameState Stopped st).

(** Rockets die at a wall; everything else is put back at the wall and
    sent inwards with eight tenths of its speed along that axis. *)
Definition keepInBounds (h : Host T) (r : nat) (st : State T) : State T :=
  match heap st !! r with
  | Some obj =>
      let margin := Obj.radius obj in
      let hitLeft := Obj.x obj < margin in
      let hitRight := Obj.x obj > screenWidth h - margin in
      let hitTop := Obj.y obj < margin in
      let hitBottom := Obj.y obj > screenHeight h - margin in
      if hitLeft || hitRight || hitTop || hitBottom then
        if isKind (Obj.type obj) ROCKET then
          let st := store r (set_live false obj) st in
          let st := playSound sndRocketDeath st in
          createExplosion (Obj.x obj) (Obj.y obj) 0xff4444%Z st
        else
          let obj :=
            if hitLeft
            then set_vel (nabs (Obj.vx obj) * lit 8 10) (Obj.vy obj)
                   (set_pos margin (Obj.y obj) obj)
            else obj in
          let obj :=
            if hitRight
            then set_vel (nopp (nabs (Obj.vx obj)) * lit 8 10) (Obj.vy obj)
                   (set_pos (screenWidth h - margin) (Obj.y obj) obj)
            else obj in
          let obj :=
            if hitTop
            then set_vel (Obj.vx obj) (nabs (Obj.vy obj) * lit 8 10)
                   (set_pos (Obj.x obj) margin obj)
            else obj in
          let obj :=
            if hitBottom
            then set_vel (Obj.vx obj) (nopp (nabs (Obj.vy obj)) * lit 8 10)
                   (set_pos (Obj.x obj) (screenHeight h - margin) obj)
            else obj in
          store r obj st
      else st
  | None => st
  end.

(** The body of the [forEach] of [updatePhysics]: no gravity here. *)
Definition physicsStep (h : Host T) (r : nat) (st : State T) : State T :=
  match heap st !! r with
  | Some obj =>
      if negb (Obj.live obj) then st
      else
        let obj := integrate (deltaTime st) obj in
        keepInBounds h r (store r obj st)
  | None => st
  end.

Definition updatePhysics (h : Host T) (st : State T) : State T :=
  forEach (physicsStep h) (objects st) st.

(** Only a [BALL] in a hole; the branch for rockets is empty. *)
Definition handleSpecialCollisions (r1 r2 : nat) (st : State T) : State T :=
  match heap st !! r1, heap st !! r2 with
  | Some obj1, Some obj2 =>
      if (isKind (Obj.type obj1) BALL && isKind (Obj.type obj2) HOLE)
         || (isKind (Obj.type obj2) BALL && isKind (Obj.type obj1) HOLE)
      then
        let '(rb, ball) :=
          if isKind (Obj.type obj1) BALL then (r1, obj1) else (r2, obj2) in
        let st := store rb (set_live false ball) st in
        let st := set_score (score st + 10) st in
        playSound sndBallInHole st
      else st
  | _, _ => st
  end.

Definition handleCollision (r1 r2 : nat) (dx dy distance : T) (st : State T)
    : State T :=
  match heap st !! r1, heap st !! r2 with
  | Some obj1, Some obj2 =>
      let nx := dx / distance in
      let ny := dy / distance in
      let overlap :=
        (Obj.radius obj1 + Obj.radius obj2 - distance) / ofZ 2 in
      let obj1 :=
        set_pos (Obj.x obj1 - nx * overlap) (Obj.y obj1 - ny * overlap)
                obj1 in
      let obj2 :=
        set_pos (Obj.x obj2 + nx * overlap) (Obj.y obj2 + ny * overlap)
                obj2 in
      let dvx := Obj.vx obj2 - Obj.vx obj1 in
      let dvy := Obj.vy obj2 - Obj.vy obj1 in
      let dvn := dvx * nx + dvy * ny in
      if dvn > ofZ 0 then store r2 obj2 (store r1 obj1 st)
      else
        let impulse := (ofZ 2 * dvn) / (Obj.mass obj1 + Obj.mass obj2) in
        let v1x := Obj.vx obj1 + impulse * Obj.mass obj2 * nx in
        let v1y := Obj.vy obj1 + impulse * Obj.mass obj2 * ny in
        let v2x := Obj.vx obj2 - impulse * Obj.mass obj1 * nx in
        let v2y := Obj.vy obj2 - impulse * Obj.mass obj1 * ny in
        let st := store r2 (set_vel v2x v2y obj2)
                    (store r1 (set_vel v1x v1y obj1) st) in
        let st := handleSpecialCollisions r1 r2 st in
        playSound sndCollision st
  | _, _ => st
  end.

Definition collidePair (r1 r2 : nat) (st : State T) : State T :=
  match heap st !! r1, heap st !! r2 with
  | Some obj1, Some obj2 =>
      if negb (Obj.live obj1) || negb (Obj.live obj2) then st
      else
        let dx := Obj.x obj2 - Obj.x obj1 in
        let dy := Obj.y obj2 - Obj.y obj1 in
        let distance := nsqrt (dx * dx + dy * dy) in
        let minDistance := Obj.radius obj1 + Obj.radius obj2 in
        if distance < minDistance
        then handleCollision r1 r2 dx dy distance st
        else st
  | _, _ => st
  end.

Fixpoint collideAll (l : list nat) (st : State T) : State T :=
  match l with
  | [] => st
  | r1 :: rest => collideAll rest (forEach (collidePair r1) rest st)
  end.

Definition checkCollisions (st : State T) : State T :=
  collideAll (objects st) st.

Definition checkGameState (h : Host T) (st : State T) : option (State T) :=
  let st :=
    if (length (aliveBalls st) =? 0)%nat
    then emit (levelComplete (level st) (score st)) st
    else st in
  if (length (aliveRockets st) =? 0)%nat then
    let st := set_lives (lives st - 1) st in
    if (lives st <=? 0)%Z
    then Some (emit (gameOver (score st) (level st)) st)
    else restartLevel h st
  else Some st.

(** One frame; [None] when the frame throws. *)
Definition gameLoop (h : Host T) (delta : T) (st : State T)
    : option (State T) :=
  match gameState st with
  | Running =>
      let st := set_deltaTime (delta / ofZ 60) st in
      let st := processInput h st in
      let st := updatePhysics h st in
      let st := checkCollisions st in
      let st := updateObjects st in
      st ← checkGameState h st;
      Some (emit (scoreUpdate (score st) (level st) (lives st)) st)
  | _ => Some st
  end.

End Engine.
End Classic.

(** ** The input manager

    [InputManager.js]: the keys that are down, and from them the controls
    of the five players.  A key is the [key] of a [KeyboardEvent], a
    string.  A control scheme is taken to have its five keys. *)

(** One entry of [controlSchemes]. *)
Module Keys.
Record t := mk {
  up : string; down : string; left : string; right : string; brake : string;
}.
End Keys.

Module Input.
Local Open Scope string_scope.

Record t := mk {
  keys : gmap string bool;          (* the own properties of this.keys *)
  playerControls : list Controls;
  controlSchemes : list Keys.t;
  disabled : bool;                  (* undefined, which is falsy, at first *)
}.

Definition set_keys (ks : gmap string bool) (im : t) : t :=
  mk ks (playerControls im) (controlSchemes im) (disabled im).

Definition set_playerControls (cs : list Controls) (im : t) : t :=
  mk (keys im) cs (controlSchemes im) (disabled im).

Definition set_controlSchemes (ss : list Keys.t) (im : t) : t :=
  mk (keys im) (playerControls im) ss (disabled im).

Definition set_disabled (b : bool) (im : t) : t :=
  mk (keys im) (playerControls im) (controlSchemes im) b.

Definition defaultSchemes : list Keys.t :=
  [ Keys.mk "ArrowUp" "ArrowDown" "ArrowLeft" "ArrowRight" " ";
    Keys.mk "w" "s" "a" "d" "Shift";
    Keys.mk "i" "k" "j" "l" "u";
    Keys.mk "8" "2" "4" "6" "0";
    Keys.mk "t" "g" "f" "h" "r" ].

Definition noControls : Controls := Ctl.mk false false false false false.

(** The constructor, [init()] included. *)
Definition new : t := mk ∅ (replicate 5 noControls) defaultSchemes false.

(** [this.keys] is an object literal: under the names it inherits from
    [Object.prototype] a lookup finds a function, which is truthy, as long
    as no key of that name was stored. *)
Definition inherited : list string :=
  [ "constructor"; "hasOwnProperty"; "isPrototypeOf";
    "propertyIsEnumerable"; "toLocaleString"; "toString"; "valueOf";
    "__proto__"; "__defineGetter__"; "__defineSetter__";
    "__lookupGetter__"; "__lookupSetter__" ].

(** [this.keys[k] || false], as a truth value. *)
Definition held (ks : gmap string bool) (k : string) : bool :=
  match ks !! k with
  | Some b => b
  | None => bool_decide (k ∈ inherited)
  end.

(** [this.keys[k] = b]; under ["__proto__"] the assignment of a boolean
    stores nothing. *)
Definition setKey (k : string) (b : bool) (ks : gmap string bool)
    : gmap string bool :=
  if decide (k = "__proto__") then ks else <[k := b]> ks.

(** The controls that the body of the loop of [updatePlayerControls]
    writes for one scheme. *)
Definition readScheme (ks : gmap string bool) (s : Keys.t) : Controls :=
  Ctl.mk (held ks (Keys.up s)) (held ks (Keys.down s))
         (held ks (Keys.left s)) (held ks (Keys.right s))
         (held ks (Keys.brake s)).

(** [updatePlayerControls()]; [None] when it throws, which it does on a
    scheme that has no controls object. *)
Definition updatePlayerControls (im : t) : option t :=
  if disabled im then Some im
  else if decide (length (controlSchemes im) <= length (playerControls im))
  then
    Some (set_playerControls
            (map (readScheme (keys im)) (controlSchemes im)
             ++ drop (length (controlSchemes im)) (playerControls im)) im)
  else None.

Definition handleKeyDown (key : string) (im : t) : option t :=
  updatePlayerControls (set_keys (setKey key true (keys im)) im).

Definition handleKeyUp (key : string) (im : t) : option t :=
  updatePlayerControls (set_keys (setKey key false (keys im)) im).

(** [Object.values(scheme).includes(key)] for some scheme. *)
Definition isGameKey (key : string) (im : t) : bool :=
  existsb
    (fun s =>
       bool_decide
         (key ∈ [Keys.up s; Keys.down s; Keys.left s; Keys.right s;
                 Keys.brake s]))
    (controlSchemes im).

Definition getPlayerControls (playerId : Z) (im : t) : Controls :=
  if (playerId <? 0)%Z || (playerId >=? Z.of_nat (length (playerControls im)))%Z
  then noControls
  else default noControls (playerControls im !! Z.to_nat playerId).

Definition isKeyPressed (key : string) (im : t) : bool := held (keys im) key.

Definition isPlayerMoving (playerId : Z) (im : t) : bool :=
  let controls := getPlayerControls playerId im in
  Ctl.up controls || Ctl.down controls || Ctl.left controls
  || Ctl.right controls.

Definition getPlayerMovementVector {T : Type} `{JsNum T} (playerId : Z)
    (im : t) : T * T :=
  let controls := getPlayerControls playerId im in
  let x := ofZ 0 in
  let y := ofZ 0 in
  let x := if Ctl.left controls then (x - ofZ 1)%num else x in
  let x := if Ctl.right controls then (x + ofZ 1)%num else x in
  let y := if Ctl.up controls then (y - ofZ 1)%num else y in
  let y := if Ctl.down controls then (y + ofZ 1)%num else y in
  if negb (neqb x (ofZ 0)) && negb (neqb y (ofZ 0)) then
    let length := nsqrt (x * x + y * y)%num in
    ((x / length)%num, (y / length)%num)
  else (x, y).

Definition setPlayerControls (playerId : Z) (controlScheme : Keys.t) (im : t)
    : t :=
  if (playerId >=? 0)%Z && (playerId <? Z.of_nat (length (controlSchemes im)))%Z
  then set_controlSchemes
         (<[Z.to_nat playerId := controlScheme]> (controlSchemes im)) im
  else im.

Definition getPlayerControlScheme (playerId : Z) (im : t) : option Keys.t :=
  if (playerId >=? 0)%Z && (playerId <? Z.of_nat (length (controlSchemes im)))%Z
  then controlSchemes im !! Z.to_nat playerId
  else None.

Definition resetKeys (im : t) : t :=
  set_playerControls (replicate (length (playerControls im)) noControls)
    (set_keys ∅ im).

Definition disable (im : t) : t := resetKeys (set_disabled true im).

Definition enable (im : t) : t := set_disabled false im.

(** The two listeners that [init()] registers. *)
Inductive KeyEvent := KeyDown (key : string) | KeyUp (key : string).

Definition dispatch (e : KeyEvent) (im : t) : option t :=
  match e with
  | KeyDown key => handleKeyDown key im
  | KeyUp key => handleKeyUp key im
  end.

(** A run of key events, in order. *)
Fixpoint dispatchAll (evs : list KeyEvent) (im : t) : option t :=
  match evs with
  | [] => Some im
  | e :: evs' => im' ← dispatch e im; dispatchAll evs' im'
  end.

(** Whether [key] is down after the events [evs], when it was [before]
    them: what the last event of that key says. *)
Definition isDown (key : string) (evs : list KeyEvent) (before : bool)
    : bool :=
  fold_left
    (fun acc e =>
       match e with
       | KeyDown k => if decide (k = key) then true else acc
       | KeyUp k => if decide (k = key) then false else acc
       end)
    evs before.

End Input.

(** ** The menu

    [MenuSystem.js]: which menu is shown and which of its items is
    selected.  What the menu asks of the game and of the audio manager is
    recorded in [requests], in order. *)

Module Menu.

Inductive Which := main | controls.

Inductive Request :=
  | AskSound (soundName : string)
  | AskStart (playerCount : nat).

Record t := mk {
  currentMenu : option Which;       (* null at first *)
  selectedIndex : Z;
  visible : bool;
  audioManager : bool;              (* whether this.game.audioManager is set *)
  requests : list Request;
}.

(** The constructor. *)
Definition new (audio : bool) : t := mk None 0 false audio [].

Definition ask (q : Request) (m : t) : t :=
  mk (currentMenu m) (selectedIndex m) (visible m) (audioManager m)
     (requests m ++ [q]).

(** [if (this.game.audioManager) this.game.audioManager.playSound(name)]. *)
Definition cue (soundName : string) (m : t) : t :=
  if audioManager m then ask (AskSound soundName) m else m.

Definition showMainMenu (m : t) : t :=
  cue "menuSelect" (mk (Some main) 0 true (audioManager m) (requests m)).

Definition hideMenu (m : t) : t :=
  mk None (selectedIndex m) false (audioManager m) (requests m).

Definition selectMenuItem (index : Z) (m : t) : t :=
  let m := cue "menuMove" m in
  mk (currentMenu m) index (visible m) (audioManager m) (requests m).

Definition showControlsMenu (m : t) : t :=
  mk (Some controls) 0 (visible m) (audioManager m) (requests m).

Definition handleMainMenuSelection (m : t) : t :=
  match selectedIndex m with
  | 0%Z => ask (AskStart 1) m
  | 1%Z => ask (AskStart 2) m
  | 2%Z => showControlsMenu m
  | _ => m
  end.

Definition handleControlsMenuSelection (m : t) : t :=
  match selectedIndex m with
  | 0%Z => showMainMenu m
  | _ => m
  end.

Definition activateMenuItem (m : t) : t :=
  let m := cue "menuSelect" m in
  match currentMenu m with
  | Some main => handleMainMenuSelection m
  | Some controls => handleControlsMenuSelection m
  | None => m
  end.

Definition getMenuItemCount (m : t) : Z :=
  match currentMenu m with
  | Some main => 3
  | Some controls => 1
  | None => 0
  end.

(** [handleKeyPress(key)]: whether the key was handled, and the menu
    after it. *)
Definition handleKeyPress (key : string) (m : t) : bool * t :=
  if negb (visible m) then (false, m)
  else if String.eqb key "ArrowUp" then
    (true, selectMenuItem (Z.max 0 (selectedIndex m - 1)) m)
  else if String.eqb key "ArrowDown" then
    (true,
     selectMenuItem (Z.min (getMenuItemCount m - 1) (selectedIndex m + 1)) m)
  else if String.eqb key "Enter" || String.eqb key " " then
    (true, activateMenuItem m)
  else if String.eqb key "Escape" then
    (true,
     match currentMenu m with
     | Some controls => showMainMenu m
     | _ => hideMenu m
     end)
  else (false, m).

(** The calls that move the menu by themselves ([selectMenuItem] takes
    any index). *)
Inductive Call :=
  | CallShowMainMenu | CallHideMenu | CallActivateMenuItem
  | CallShowControlsMenu | CallHandleKeyPress (key : string).

Definition call (c : Call) (m : t) : t :=
  match c with
  | CallShowMainMenu => showMainMenu m
  | CallHideMenu => hideMenu m
  | CallActivateMenuItem => activateMenuItem m
  | CallShowControlsMenu => showControlsMenu m
  | CallHandleKeyPress key => snd (handleKeyPress key m)
  end.

Definition calls (cs : list Call) (m : t) : t :=
  fold_left (fun m c => call c m) cs m.

(** What these calls keep: a visible menu is one of the two menus, and the
    selected index is below three and, while there is a menu, that of one
    of its items. *)
Definition inRange (m : t) : Prop :=
  (visible m = true -> currentMenu m <> None) /\
  (0 <= selectedIndex m < 3)%Z /\
  (currentMenu m <> None ->
   (0 <= selectedIndex m < getMenuItemCount m)%Z).

End Menu.

(** ** The audio manager

    [AudioManager.js]: the volumes, the table of sounds and what
    [playSound] starts.  The sound itself (oscillators, filters, the
    envelope over time) is the browser's; [voices] records which
    generator was started with which parameters, in order. *)

Module Audio.

(** An entry of [soundDefinitions]. *)
Inductive SoundDef (T : Type) :=
  | tone (duration frequency : T)
  | noise (duration frequency : T)
  | melody (duration : T) (frequencies : list T).
Arguments tone {T}. Arguments noise {T}. Arguments melody {T}.

Inductive Voice (T : Type) :=
  | Tone (frequency duration gain : T)        (* playTone: the peak gain *)
  | Noise (filterFrequency duration gain : T) (* playNoise *)
  | Later (delay frequency duration volume : T)
      (* a note of playMelody, left to setTimeout *)
  | Warning (soundName : string).             (* console.warn: not found *)
Arguments Tone {T}. Arguments Noise {T}. Arguments Later {T}.
Arguments Warning {T}.

Record t (T : Type) := mk {
  audioContext : bool;              (* whether this.audioContext is set *)
  sounds : gmap string (SoundDef T);
  enabled : bool;
  volume : T;
  sfxVolume : T;
  musicVolume : T;
  masterGain : option T;            (* masterGain.gain, when there is one *)
  voices : list (Voice T);
}.
Arguments mk {T}.
Arguments audioContext {T}. Arguments sounds {T}. Arguments enabled {T}.
Arguments volume {T}. Arguments sfxVolume {T}. Arguments musicVolume {T}.
Arguments masterGain {T}. Arguments voices {T}.

Section Manager.
Context {T : Type} `{JsNum T}.
Local Open Scope num_scope.

Definition soundDefinitions : list (string * SoundDef T) :=
  [ ("collision"%string, noise (lit 1 10) (ofZ 150));
    ("ballInHole"%string, tone (lit 3 10) (ofZ 440));
    ("rocketThrust"%string, noise (lit 5 100) (ofZ 100));
    ("gameStart"%string, tone (lit 5 10) (lit 52325 100));
    ("gameOver"%string, tone (ofZ 1) (ofZ 220));
    ("levelComplete"%string,
     melody (lit 15 10) [lit 52325 100; lit 65925 100; lit 78399 100]);
    ("menuSelect"%string, tone (lit 1 10) (ofZ 800));
    ("menuMove"%string, tone (lit 5 100) (ofZ 600)) ].

(** The constructor with its [init()]; [ok] says whether the browser
    gave an [AudioContext] (creating one may throw, which [init]
    catches). *)
Definition new (ok : bool) : t T :=
  if ok then
    mk true (list_to_map soundDefinitions) true (lit 7 10) (lit 8 10)
       (lit 5 10) (Some (lit 7 10)) []
  else
    mk false ∅ false (lit 7 10) (lit 8 10) (lit 5 10) None [].

Definition say (v : Voice T) (a : t T) : t T :=
  mk (audioContext a) (sounds a) (enabled a) (volume a) (sfxVolume a)
     (musicVolume a) (masterGain a) (voices a ++ [v]).

Definition playTone (frequency duration volume : T) (a : t T) : t T :=
  say (Tone frequency duration (volume * sfxVolume a)) a.

Definition playNoise (filterFrequency duration volume : T) (a : t T) : t T :=
  say (Noise filterFrequency duration (volume * sfxVolume a)) a.

Definition playMelody (frequencies : list T) (totalDuration volume : T)
    (a : t T) : t T :=
  let noteDuration := totalDuration / ofZ (Z.of_nat (length frequencies)) in
  forEachFrom
    (fun frequency index a =>
       say (Later (ofZ (Z.of_nat index) * noteDuration * ofZ 1000) frequency
                  (noteDuration * lit 8 10) volume) a)
    0 frequencies a.

Definition playSound (soundName : string) (volume : T) (a : t T) : t T :=
  if negb (enabled a) || negb (audioContext a) then a
  else
    match sounds a !! soundName with
    | None => say (Warning soundName) a
    | Some (tone duration frequency) => playTone frequency duration volume a
    | Some (noise duration frequency) => playNoise frequency duration volume a
    | Some (melody duration frequencies) =>
        playMelody frequencies duration volume a
    end.

Definition setEnabled (b : bool) (a : t T) : t T :=
  mk (audioContext a) (sounds a) b (volume a) (sfxVolume a) (musicVolume a)
     (masterGain a) (voices a).

Definition setVolume (v : T) (a : t T) : t T :=
  let volume := nmax (ofZ 0) (nmin (ofZ 1) v) in
  mk (audioContext a) (sounds a) (enabled a) volume (sfxVolume a)
     (musicVolume a)
     (match masterGain a with Some _ => Some volume | None => None end)
     (voices a).

Definition setSfxVolume (v : T) (a : t T) : t T :=
  mk (audioContext a) (sounds a) (enabled a) (volume a)
     (nmax (ofZ 0) (nmin (ofZ 1) v)) (musicVolume a) (masterGain a)
     (voices a).

Definition setMusicVolume (v : T) (a : t T) : t T :=
  mk (audioContext a) (sounds a) (enabled a) (volume a) (sfxVolume a)
     (nmax (ofZ 0) (nmin (ofZ 1) v)) (masterGain a) (voices a).

Definition getVolume (a : t T) : T := volume a.

Definition isEnabled (a : t T) : bool := enabled a.

Definition destroy (a : t T) : t T :=
  mk (audioContext a) ∅ (enabled a) (volume a) (sfxVolume a) (musicVolume a)
     (masterGain a) (voices a).

(** The calls of the public interface modelled here. *)
Inductive Call :=
  | CallPlaySound (soundName : string) (volume : T)
  | CallSetEnabled (b : bool)
  | CallSetVolume (v : T) | CallSetSfxVolume (v : T)
  | CallSetMusicVolume (v : T)
  | CallDestroy.

Definition call (c : Call) (a : t T) : t T :=
  match c with
  | CallPlaySound soundName v => playSound soundName v a
  | CallSetEnabled b => setEnabled b a
  | CallSetVolume v => setVolume v a
  | CallSetSfxVolume v => setSfxVolume v a
  | CallSetMusicVolume v => setMusicVolume v a
  | CallDestroy => destroy a
  end.

Definition calls (cs : list Call) (a : t T) : t T :=
  fold_left (fun a c => call c a) cs a.

End Manager.

(** The names under which the engines ask for their cues. *)
Definition soundName (s : Sound) : string :=
  match s with
  | sndCollision => "collision"
  | sndBallInHole => "ballInHole"
  | sndRocketDeath => "rocketDeath"
  | sndObjectDeath => "objectDeath"
  | sndLevelComplete => "levelComplete"
  end.

End Audio.

(** ** The game

    [KoulesGame] of [main.js]: the state of the page around the engine,
    its reactions to the keys, to the notifications of the engine and to
    the timers it sets.  The page itself (the canvas, the menus and
    texts of the document, the alerts) is left out. *)

Module Game.

(** [this.gameState]. *)
Inductive Phase := loading | menu | playing | paused.

(** The callbacks handed to [setTimeout], each with a second of delay. *)
Inductive Timer :=
  | GameOverAlert (score : Z)
  | LevelCompleteAlert (level score : Z).

Record t (T : Type) := mk {
  gameState : Phase;
  currentLevel : Z;
  playerCount : nat;
  gameEngine : State T;
  timers : list Timer;              (* pending, the oldest first *)
}.
Arguments mk {T}.
Arguments gameState {T}. Arguments currentLevel {T}.
Arguments playerCount {T}. Arguments gameEngine {T}. Arguments timers {T}.

Section Host.
Context {T : Type} `{JsNum T}.

(** The game once [init()] is through: the engine just built, the main
    menu shown. *)
Definition new : t T := mk menu 1 1 (pause initialState) [].

Definition showMainMenu (g : t T) : t T :=
  mk menu (currentLevel g) (playerCount g) (pause (gameEngine g)) (timers g).

(** [startGame(playerCount)]; [None] when the engine throws. *)
Definition startGame (h : Host T) (count : nat) (g : t T) : option (t T) :=
  engine ← startGame h count (currentLevel g) (gameEngine g);
  Some (mk playing (currentLevel g) count engine (timers g)).

Definition pauseGame (g : t T) : t T :=
  match gameState g with
  | playing =>
      showMainMenu
        (mk paused (currentLevel g) (playerCount g) (pause (gameEngine g))
            (timers g))
  | _ => g
  end.

Definition resumeGame (g : t T) : t T :=
  match gameState g with
  | paused =>
      mk playing (currentLevel g) (playerCount g) (resume (gameEngine g))
         (timers g)
  | _ => g
  end.

Definition handleEscapeKey (g : t T) : t T :=
  match gameState g with
  | playing => pauseGame g
  | paused => resumeGame g
  | _ => g
  end.

Definition restartLevel (h : Host T) (g : t T) : option (t T) :=
  engine ← restartLevel h (gameEngine g);
  Some (mk (gameState g) (currentLevel g) (playerCount g) engine (timers g)).

Definition handleGameOver (score : Z) (g : t T) : t T :=
  mk menu (currentLevel g) (playerCount g) (gameEngine g)
     (timers g ++ [GameOverAlert score]).

Definition handleLevelComplete (level score : Z) (g : t T) : t T :=
  mk (gameState g) (currentLevel g + 1) (playerCount g) (gameEngine g)
     (timers g ++ [LevelCompleteAlert level score]).

(** The listeners that [setupEventListeners] puts on the engine;
    [updateScore] and [handleExtraLife] only write to the page. *)
Definition on (e : Event) (g : t T) : t T :=
  match e with
  | gameOver score _ => handleGameOver score g
  | levelComplete level score => handleLevelComplete level score g
  | _ => g
  end.

(** One tick of the ticker: the frame of the engine, whose notifications
    reach the listeners as they are sent.  The listeners write nothing
    that the engine reads, so they are run here on what the frame has
    sent, in order. *)
Definition tick (h : Host T) (delta : T) (g : t T) : option (t T) :=
  engine ← gameLoop h delta (set_out [] (gameEngine g));
  Some
    (fold_left
       (fun g o => match o with Emit e => on e g | _ => g end)
       (out engine)
       (mk (gameState g) (currentLevel g) (playerCount g) engine (timers g))).

(** The global [keydown] listener. *)
Definition keydown (h : Host T) (key : string) (g : t T) : option (t T) :=
  if String.eqb key "Escape" then Some (handleEscapeKey g)
  else if String.eqb key "r" || String.eqb key "R" then
    match gameState g with
    | playing => restartLevel h g
    | _ => Some g
    end
  else Some g.

(** The oldest timer fires. *)
Definition timeout (h : Host T) (g : t T) : option (t T) :=
  match timers g with
  | [] => Some g
  | GameOverAlert _ :: rest =>
      Some (showMainMenu
              (mk (gameState g) (currentLevel g) (playerCount g)
                  (gameEngine g) rest))
  | LevelCompleteAlert _ _ :: rest =>
      startGame h (playerCount g)
        (mk (gameState g) (currentLevel g) (playerCount g) (gameEngine g)
            rest)
  end.

(** What can happen to the game. *)
Inductive Action :=
  | ClickStart (count : nat)        (* start-single, start-multi *)
  | ClickBack                       (* back-to-menu *)
  | KeyDown (key : string)
  | Tick (delta : T)
  | Timeout.

Definition act (h : Host T) (a : Action) (g : t T) : option (t T) :=
  match a with
  | ClickStart count => startGame h count g
  | ClickBack => Some (showMainMenu g)
  | KeyDown key => keydown h key g
  | Tick delta => tick h delta g
  | Timeout => timeout h g
  end.

Fixpoint acts (h : Host T) (l : list Action) (g : t T) : option (t T) :=
  match l with
  | [] => Some g
  | a :: l' => g' ← act h a g; acts h l' g'
  end.

(** The game is in the menu or in play. *)
Definition shown (g : t T) : Prop :=
  gameState g = menu \/ gameState g = playing.

End Host.
End Game.

(** ** Vocabulary of the properties *)

Section Vocabulary.
Context {T : Type} `{JsNum T}.

(** The [extraLife] notifications among what was sent. *)
Definition extraLifeEvents (o : list (Output T)) : list Event :=
  omap (fun e =>
          match e with
          | Emit (extraLife s l v n) => Some (extraLife s l v n)
          | _ => None
          end) o.

(** What the rules read and write: the counters, the configuration and the
    [extraLife] notifications sent so far. *)
Record Tally := mkTally {
  t_score : Z;
  t_lives : Z;
  t_next : Z;
  t_level : Z;
  t_players : nat;
  t_phase : Phase;
  t_granted : list Event;
}.

Definition tally (st : State T) : Tally :=
  mkTally (score st) (lives st) (nextLifeAt st) (level st) (playerCount st)
          (gameState st) (extraLifeEvents (out st)).

(** The effect on the tally of scoring [p] points and then running
    [checkExtraLife]. *)
Definition award (p : Z) (t : Tally) : Tally :=
  let s := (t_score t + p)%Z in
  if (s >=? t_next t)%Z then
    mkTally s (t_lives t + 1) (t_next t + 500) (t_level t) (t_players t)
      (t_phase t)
      (t_granted t ++
         [extraLife s (t_level t) (t_lives t + 1) (t_next t + 500)])
  else
    mkTally s (t_lives t) (t_next t) (t_level t) (t_players t) (t_phase t)
      (t_granted t).

Definition awards (ps : list Z) (t : Tally) : Tally :=
  fold_left (fun t p => award p t) ps t.

(** [st'] is reached from [st] by scoring events only, as far as the tally
    goes, each event scoring at most 20 points. *)
Definition scored (st st' : State T) : Prop :=
  exists ps,
    Forall (fun p => 0 <= p <= 20)%Z ps /\ tally st' = awards ps (tally st).

(** The frame up to the rules check: what [gameLoop] does before
    [checkGameState]. *)
Definition simulate (h : Host T) (delta : T) (st : State T) : State T :=
  updateObjects
    (checkCollisions
       (updatePhysics h
          (processInput h (set_deltaTime (delta / ofZ 60)%num st)))).

(** [st'] differs from [st] in its objects at most. *)
Definition sameRules (st st' : State T) : Prop :=
  gameState st' = gameState st /\ level st' = level st /\
  score st' = score st /\ lives st' = lives st /\
  nextLifeAt st' = nextLifeAt st /\ playerCount st' = playerCount st /\
  out st' = out st.

(** Every reference held by [this.objects] and [this.rockets] is to a live
    object. *)
Definition allLive (st : State T) : Prop :=
  Forall (fun r => isLive st r = true) (objects st) /\
  Forall (fun r => isLive st r = true) (rockets st).

(** What spawning may change: [nr] rockets and [nb] balls are added, the
    fields of the rules stay, live references stay live. *)
Definition spawns (nr nb : nat) (st st' : State T) : Prop :=
  sameRules st st' /\
  length (rockets st') = (length (rockets st) + nr)%nat /\
  length (balls st') = (length (balls st) + nb)%nat /\
  (allLive st -> allLive st').

(** No object that is dead in [st] is live in [st']. *)
Definition noRevival (st st' : State T) : Prop :=
  forall q, isLive st q = false -> isLive st' q = false.

(** Every object of [st'] is of the kind it has in [st], and the two heaps
    hold objects at the same references. *)
Definition sameKinds (st st' : State T) : Prop :=
  forall q, Obj.type <$> heap st' !! q = Obj.type <$> heap st !! q.

(** The kinds that can die in the classic engine: rockets and the balls of
    type 2. *)
Definition classicMortal (k : Kind) : bool :=
  isKind k ROCKET || isKind k BALL_SMALL.

(** [st'] holds the objects of [st], each of its kind, and every object of
    a kind that is not mortal in the classic engine is as live as it
    was. *)
Definition spares (st st' : State T) : Prop :=
  forall q,
    (fun o => (Obj.type o, classicMortal (Obj.type o) || Obj.live o))
      <$> heap st' !! q =
    (fun o => (Obj.type o, classicMortal (Obj.type o) || Obj.live o))
      <$> heap st !! q.

(** The notifications of the rules check among what was sent. *)
Definition ruleEvents (o : list (Output T)) : list Event :=
  omap (fun e =>
          match e with
          | Emit (levelComplete l s) => Some (levelComplete l s)
          | Emit (gameOver s l) => Some (gameOver s l)
          | _ => None
          end) o.

(** The reference [r] is not to a hole. *)
Definition notHole (st : State T) (r : nat) : Prop :=
  forall o, heap st !! r = Some o -> Obj.type o <> HOLE.

(** [st'] holds the objects of [st], each of its kind and as live as it
    was, and nothing was scored between the two; positions, velocities
    and cues may differ. *)
Definition undisturbed (st st' : State T) : Prop :=
  tally st' = tally st /\
  forall q,
    (fun o => (Obj.type o, Obj.live o)) <$> heap st' !! q =
    (fun o => (Obj.type o, Obj.live o)) <$> heap st !! q.

(** The test of [keepInBounds]: the centre of [obj] is closer to an edge
    of the screen than its radius. *)
Definition atEdge (h : Host T) (obj : GameObject T) : bool :=
  (Obj.x obj < Obj.radius obj)%num
  || (Obj.x obj > screenWidth h - Obj.radius obj)%num
  || (Obj.y obj < Obj.radius obj)%num
  || (Obj.y obj > screenHeight h - Obj.radius obj)%num.

(** The points of a death at the wall. *)
Definition wallPoints (k : Kind) : Z :=
  match k with BALL_SMALL => 5 | BALL_LARGE => 10 | _ => 0 end.

(** The cue of a death at the wall. *)
Definition wallCue (k : Kind) : Sound :=
  match k with ROCKET => sndRocketDeath | _ => sndObjectDeath end.

(** [st'] holds the objects of [st], each of its kind, and every hole is
    as live as it was. *)
Definition sparesHoles (st st' : State T) : Prop :=
  forall q,
    (fun o => (Obj.type o, negb (isKind (Obj.type o) HOLE) || Obj.live o))
      <$> heap st' !! q =
    (fun o => (Obj.type o, negb (isKind (Obj.type o) HOLE) || Obj.live o))
      <$> heap st !! q.

(** [st'] has sent and played what [st] had, and maybe more after it. *)
Definition heardSince (st st' : State T) : Prop :=
  exists l, out st' = out st ++ l.

End Vocabulary.

(** ** Concrete frames *)

Module Scenario.

Definition quiet : Controls := Ctl.mk false false false false false.

(** An 800 by 600 screen on which no key is held and every random draw is
    one half; the trigonometric functions are the constants of angle 0
    (they are consulted by the spawn search only). *)
Definition host : Host float :=
  mkHost (ofZ 800) (ofZ 600) (fun _ => quiet) (fun _ => lit 5 10)
         (fun _ => ofZ 1) (fun _ => ofZ 0).

(** The number [0/0]. *)
Definition NaN : float := (ofZ 0 / ofZ 0)%num.

(** A live object of kind [k] as [createGameObject] builds it. *)
Definition object (k : Kind) (px py pvx pvy : Z) : GameObject float :=
  Obj.mk k (ofZ px) (ofZ py) (ofZ pvx) (ofZ pvy) (ofZ 0) (ofZ 0)
         (getRadius k) (getMass k) true (-1).

(** A running first level with [points] of score and [spare] lives that
    holds the objects [objs], the references
    [rk] being the rockets. *)
Definition frame (points spare : Z) (objs : list (GameObject float))
    (rk : list nat) : State float :=
  mkState Running 1 points spare 500 1 objs (seq 0 (length objs)) rk []
          (ofZ 0) 0 [].

(** A rocket that overlaps a hole and flies away from it. *)
Definition separating : State float :=
  frame 0 3 [object ROCKET 400 300 (-1) 0; object HOLE 420 300 0 0] [0].

(** The same pair, the rocket flying into the hole. *)
Definition approaching : State float :=
  frame 0 3 [object ROCKET 400 300 1 0; object HOLE 420 300 0 0] [0].

(** A small ball faster than the cap, alone with a rocket. *)
Definition fastBall : GameObject float := object BALL_SMALL 400 300 10 0.

Definition speeding : State float :=
  frame 0 3 [object ROCKET 100 300 0 0; fastBall] [0].

(** Two balls spawned on the same spot. *)
Definition coincident : State float :=
  frame 0 3
    [object ROCKET 100 300 0 0; object BALL_SMALL 400 300 0 0;
     object BALL_SMALL 400 300 0 0] [0].

(** Five points below the threshold, a large ball about to fall into a
    hole. *)
Definition crossing : State float :=
  frame 495 3
    [object ROCKET 100 300 0 0; object BALL_LARGE 400 300 1 0;
     object HOLE 420 300 0 0] [0].

(** The score far beyond the threshold. *)
Definition farBeyond : State float := set_score 1200 (frame 0 3 [] []).

(** The last life: the only rocket is dead, a ball remains. *)
Definition lastLife : State float :=
  set_objects [1]
    (frame 40 1
       [set_live false (object ROCKET 100 300 0 0);
        object BALL_SMALL 400 300 0 0] [0]).

(** Two lives left, the only rocket dead. *)
Definition secondLife : State float :=
  set_objects [1]
    (frame 40 2
       [set_live false (object ROCKET 100 300 0 0);
        object BALL_SMALL 400 300 0 0] [0]).

(** All balls gone, the rocket alive. *)
Definition cleared : State float :=
  frame 100 3 [object ROCKET 100 300 0 0] [0].

(** Balls and a hole touching the left wall. *)
Definition atWall : State float :=
  frame 0 3
    [object BALL_SMALL 5 300 0 0; object BALL_LARGE 10 300 0 0;
     object HOLE 5 100 0 0; object ROCKET 790 300 0 0] [3].

(** Exact arithmetic: two balls on a line, flying at each other. *)
Definition headOn : State R :=
  mkState Running 1 0 3 500 1
    [Obj.mk BALL_SMALL 0%R 0%R 1%R 0%R 0%R 0%R 8%R 3%R true (-1);
     Obj.mk BALL_LARGE 10%R 0%R (-1)%R 0%R 0%R 0%R 16%R 6%R true (-1)]
    [0; 1] [] [] 0%R 0 [].

(** Exact arithmetic: a hole and a ball 90 to its left. *)
Definition well : GameObject R :=
  Obj.mk HOLE 90%R 0%R 0%R 0%R 0%R 0%R 12%R 1%R true (-1).

Definition satellite : GameObject R :=
  Obj.mk BALL_SMALL 0%R 0%R 0%R 0%R 0%R 0%R 8%R 3%R true (-1).

(** Exact arithmetic: a ball of the classic engine that flies out of the
    screen at its left edge. *)
Definition leaving : State R :=
  mkState Running 1 0 3 500 1
    [Obj.mk BALL_SMALL 9%R 300%R (-3)%R 0%R 0%R 0%R 8%R 3%R true (-1)]
    [0] [] [0] 0%R 0 [].

(** Exact arithmetic: the hole and the ball alone on a third level. *)
Definition orbit : State R :=
  mkState Running 3 0 3 500 1 [well; satellite] [0; 1] [] [1] 0%R 0 [].

(** Exact arithmetic: the 800 by 600 screen, every random draw one half. *)
Definition hostR : Host R :=
  mkHost 800%R 600%R (fun _ => quiet) (fun _ => (1 / 2)%R) cos sin.

(** A small ball inside the margin of the left wall that flies back into
    the screen. *)
Definition inward : State float :=
  frame 0 3 [object BALL_SMALL 7 300 2 0; object ROCKET 400 300 0 0] [1].

(** Two overlapping small balls at rest next to the left wall. *)
Definition pushed : State float :=
  frame 0 3
    [object BALL_SMALL 9 300 0 0; object BALL_SMALL 20 300 0 0;
     object ROCKET 400 300 0 0] [2].

(** A hole 90 to the right of a ball and [120 - 2^-46] below it: a little
    less than 150 away. *)
Definition rimBall : GameObject float := object BALL_SMALL 8 8 0 0.

Definition rimHole : GameObject float :=
  set_pos (ofZ 98) (ofZ (2 ^ 53 - 1) / ofZ (2 ^ 46))%num
          (object HOLE 98 128 0 0).

Definition rim : State float :=
  frame 0 3 [rimHole; rimBall; object ROCKET 400 300 0 0] [2].

End Scenario.

(** * Properties *)

(** ** The score, the lives and the threshold *)

Section ScoringFacts.
Context {T : Type} `{JsNum T}.

Lemma extraLifeEvents_app (a b : list (Output T)) :
  extraLifeEvents (a ++ b) = extraLifeEvents a ++ extraLifeEvents b.
Proof. unfold extraLifeEvents. apply omap_app. Qed.

Lemma tally_store r o (st : State T) : tally (store r o st) = tally st.
Proof. reflexivity. Qed.

Lemma tally_playSound s (st : State T) : tally (playSound s st) = tally st.
Proof.
  unfold tally, playSound; simpl.
  rewrite extraLifeEvents_app; simpl. by rewrite app_nil_r.
Qed.

Lemma tally_createExplosion ex ey c (st : State T) :
  tally (createExplosion ex ey c st) = tally st.
Proof.
  unfold tally, createExplosion; simpl.
  rewrite extraLifeEvents_app; simpl. by rewrite app_nil_r.
Qed.

Lemma tally_checkExtraLife p (st : State T) :
  tally (checkExtraLife (set_score (score st + p) st)) = award p (tally st).
Proof.
  unfold checkExtraLife, award, tally; simpl.
  destruct (score st + p >=? nextLifeAt st)%Z; simpl;
    rewrite !extraLifeEvents_app; simpl; by rewrite ?app_nil_r.
Qed.

Lemma tally_checkExtraLife_same (st : State T) :
  tally (checkExtraLife st) = award 0 (tally st).
Proof.
  unfold checkExtraLife, award, tally; simpl. rewrite Z.add_0_r.
  destruct (score st >=? nextLifeAt st)%Z; simpl;
    rewrite !extraLifeEvents_app; simpl; by rewrite ?app_nil_r.
Qed.

(** *** Arithmetic of a run of scoring events *)

Lemma award_score p t : t_score (award p t) = (t_score t + p)%Z.
Proof. unfold award. by destruct (_ >=? _)%Z. Qed.

Lemma award_level p t : t_level (award p t) = t_level t.
Proof. unfold award. by destruct (_ >=? _)%Z. Qed.

Lemma awards_config ps : forall t,
  t_level (awards ps t) = t_level t /\
  t_players (awards ps t) = t_players t /\ t_phase (awards ps t) = t_phase t.
Proof.
  induction ps as [|p ps IH]; intros t; [done|].
  change (awards (p :: ps) t) with (awards ps (award p t)).
  destruct (IH (award p t)) as (-> & -> & ->).
  unfold award. by destruct (_ >=? _)%Z.
Qed.

Lemma awards_app ps qs t : awards (ps ++ qs) t = awards qs (awards ps t).
Proof. unfold awards. apply fold_left_app. Qed.

Lemma awards_cons p ps t : awards (p :: ps) t = awards ps (award p t).
Proof. reflexivity. Qed.

Lemma award_no p t :
  (t_score t + p < t_next t)%Z ->
  award p t =
  mkTally (t_score t + p) (t_lives t) (t_next t) (t_level t) (t_players t)
    (t_phase t) (t_granted t).
Proof. intros Hlt. unfold award. destruct (_ >=? _)%Z eqn:E; [lia|done]. Qed.

Lemma award_yes p t :
  (t_next t <= t_score t + p)%Z ->
  award p t =
  mkTally (t_score t + p) (t_lives t + 1) (t_next t + 500) (t_level t)
    (t_players t) (t_phase t)
    (t_granted t ++
       [extraLife (t_score t + p) (t_level t) (t_lives t + 1)
          (t_next t + 500)]).
Proof. intros Hle. unfold award. destruct (_ >=? _)%Z eqn:E; [done|lia]. Qed.

Lemma awards_score_mono ps : forall t,
  Forall (fun p => 0 <= p <= 20)%Z ps -> (t_score t <= t_score (awards ps t))%Z.
Proof.
  induction ps as [|p ps IH]; intros t Hps; [simpl; lia|].
  inversion Hps as [|? ? Hp Hps']; subst. rewrite awards_cons.
  specialize (IH (award p t) Hps'). rewrite award_score in IH. lia.
Qed.

(** No grant while the score stays below the threshold. *)
Lemma awards_below ps : forall t,
  Forall (fun p => 0 <= p <= 20)%Z ps ->
  (t_score (awards ps t) < t_next t)%Z ->
  t_lives (awards ps t) = t_lives t /\ t_next (awards ps t) = t_next t /\
  t_level (awards ps t) = t_level t /\ t_granted (awards ps t) = t_granted t.
Proof.
  induction ps as [|p ps IH]; intros t Hps Hlt; [done|].
  inversion Hps as [|? ? Hp Hps']; subst. rewrite awards_cons in *.
  pose proof (awards_score_mono ps (award p t) Hps') as Hmono.
  rewrite award_score in Hmono.
  assert (Hno := award_no p t ltac:(lia)).
  assert (En : t_next (award p t) = t_next t) by (by rewrite Hno).
  destruct (IH (award p t) Hps') as (Hl & Hn & Hv & Hg);
    rewrite ?En; try lia.
  rewrite Hl, Hn, Hv, Hg, Hno. done.
Qed.

(** One crossing of the threshold grants one life. *)
Lemma awards_cross ps : forall t,
  Forall (fun p => 0 <= p <= 20)%Z ps ->
  (t_score t < t_next t)%Z ->
  (t_next t <= t_score (awards ps t) < t_next t + 500)%Z ->
  t_lives (awards ps t) = (t_lives t + 1)%Z /\
  t_next (awards ps t) = (t_next t + 500)%Z /\
  t_level (awards ps t) = t_level t /\
  exists s, (t_next t <= s <= t_score (awards ps t))%Z /\
    t_granted (awards ps t) =
    t_granted t ++ [extraLife s (t_level t) (t_lives t + 1) (t_next t + 500)].
Proof.
  induction ps as [|p ps IH]; intros t Hps Hlt Hcross; [simpl in *; lia|].
  inversion Hps as [|? ? Hp Hps']; subst. rewrite awards_cons in *.
  pose proof (awards_score_mono ps (award p t) Hps') as Hmono.
  rewrite award_score in Hmono.
  destruct (Z_lt_le_dec (t_score t + p) (t_next t)) as [Hno|Hyes].
  - apply award_no in Hno as E.
    assert (En : t_next (award p t) = t_next t) by (by rewrite E).
    assert (El : t_lives (award p t) = t_lives t) by (by rewrite E).
    assert (Ev : t_level (award p t) = t_level t) by (by rewrite E).
    assert (Eg : t_granted (award p t) = t_granted t) by (by rewrite E).
    destruct (IH (award p t) Hps') as (Hl & Hn & Hv & s & Hs & Hg);
      rewrite ?award_score, ?En; try lia.
    rewrite Hl, Hn, Hv, Hg, En, El, Ev, Eg. repeat split; try done.
    exists s. split; [lia|done].
  - apply award_yes in Hyes as E.
    assert (En : t_next (award p t) = (t_next t + 500)%Z) by (by rewrite E).
    assert (El : t_lives (award p t) = (t_lives t + 1)%Z) by (by rewrite E).
    assert (Ev : t_level (award p t) = t_level t) by (by rewrite E).
    assert (Eg : t_granted (award p t) =
                 t_granted t ++
                   [extraLife (t_score t + p) (t_level t) (t_lives t + 1)
                      (t_next t + 500)]) by (by rewrite E).
    destruct (awards_below ps (award p t) Hps') as (Hl & Hn & Hv & Hg);
      rewrite ?En; try lia.
    rewrite Hl, Hn, Hv, Hg, En, El, Ev, Eg. repeat split; try done.
    exists (t_score t + p)%Z. split; [lia|done].
Qed.

(** *** The relation [scored] *)

Lemma scored_refl (st : State T) : scored st st.
Proof. exists []. by split. Qed.

Lemma scored_trans (st1 st2 st3 : State T) :
  scored st1 st2 -> scored st2 st3 -> scored st1 st3.
Proof.
  intros (ps & Hps & E1) (qs & Hqs & E2). exists (ps ++ qs). split.
  - by apply Forall_app.
  - by rewrite awards_app, <- E1.
Qed.

Lemma scored_same (st st' : State T) : tally st' = tally st -> scored st st'.
Proof. intros E. exists []. by split. Qed.

Lemma scored_award p (st st' : State T) :
  (0 <= p <= 20)%Z -> tally st' = award p (tally st) -> scored st st'.
Proof. intros Hp E. exists [p]. split; [by constructor|done]. Qed.

Lemma scored_forEach {A} (f : A -> State T -> State T) l :
  (forall a s, scored s (f a s)) -> forall s, scored s (forEach f l s).
Proof.
  intros Hf. unfold forEach.
  induction l as [|a l IH]; intros s; simpl; [apply scored_refl|].
  eapply scored_trans; [apply Hf|apply IH].
Qed.

Lemma scored_forEachFrom {A} (f : A -> nat -> State T -> State T) l :
  (forall a i s, scored s (f a i s)) ->
  forall i s, scored s (forEachFrom f i l s).
Proof.
  intros Hf.
  induction l as [|a l IH]; intros i s; simpl; [apply scored_refl|].
  eapply scored_trans; [apply Hf|apply IH].
Qed.

End ScoringFacts.

(** ** The phases of a frame *)

Section FrameFacts.
Context {T : Type} `{JsNum T}.

(** *** Each phase of the frame only scores *)

Lemma scored_keepInBounds h r (st : State T) : scored st (keepInBounds h r st).
Proof.
  unfold keepInBounds. destruct (heap st !! r) as [obj|]; [|apply scored_refl].
  destruct (_ || _ || _ || _); [|apply scored_refl].
  destruct (isKind (Obj.type obj) HOLE); [apply scored_refl|].
  assert (Hsnd : forall s : State T,
    tally (if isKind (Obj.type obj) ROCKET
           then playSound sndRocketDeath s
           else playSound sndObjectDeath s) = tally s).
  { intros s. destruct (isKind _ _); apply tally_playSound. }
  destruct (Obj.type obj);
    try (apply scored_same; rewrite tally_createExplosion, Hsnd;
         apply tally_store).
  - apply (scored_award 5); [lia|].
    rewrite tally_createExplosion, Hsnd, tally_checkExtraLife.
    by rewrite tally_store.
  - apply (scored_award 10); [lia|].
    rewrite tally_createExplosion, Hsnd, tally_checkExtraLife.
    by rewrite tally_store.
Qed.

Lemma scored_physicsStep h r (st : State T) : scored st (physicsStep h r st).
Proof.
  unfold physicsStep. destruct (heap st !! r) as [obj|]; [|apply scored_refl].
  destruct (negb _); [apply scored_refl|].
  eapply scored_trans; [|apply scored_keepInBounds].
  apply scored_same, tally_store.
Qed.

Lemma scored_updatePhysics h (st : State T) : scored st (updatePhysics h st).
Proof. apply scored_forEach. intros. apply scored_physicsStep. Qed.

Lemma scored_handleSpecialCollisions r1 r2 (st : State T) :
  scored st (handleSpecialCollisions r1 r2 st).
Proof.
  unfold handleSpecialCollisions.
  destruct (heap st !! r1) as [obj1|]; [|apply scored_refl].
  destruct (heap st !! r2) as [obj2|]; [|apply scored_refl].
  destruct (_ || _).
  - destruct (isBall (Obj.type obj1)).
    + destruct (Obj.type obj1);
        try (apply (scored_award 0); [lia|];
             rewrite tally_playSound, tally_checkExtraLife_same;
             by rewrite tally_store).
      * apply (scored_award 10); [lia|].
        rewrite tally_playSound, tally_checkExtraLife. by rewrite tally_store.
      * apply (scored_award 20); [lia|].
        rewrite tally_playSound, tally_checkExtraLife. by rewrite tally_store.
    + destruct (Obj.type obj2);
        try (apply (scored_award 0); [lia|];
             rewrite tally_playSound, tally_checkExtraLife_same;
             by rewrite tally_store).
      * apply (scored_award 10); [lia|].
        rewrite tally_playSound, tally_checkExtraLife. by rewrite tally_store.
      * apply (scored_award 20); [lia|].
        rewrite tally_playSound, tally_checkExtraLife. by rewrite tally_store.
  - destruct (_ || _); [|apply scored_refl].
    apply scored_same.
    destruct (isKind (Obj.type obj1) ROCKET);
      by rewrite tally_createExplosion, tally_playSound, tally_store.
Qed.

Lemma scored_handleCollision r1 r2 dx dy distance (st : State T) :
  scored st (handleCollision r1 r2 dx dy distance st).
Proof.
  unfold handleCollision.
  destruct (heap st !! r1) as [obj1|]; [|apply scored_refl].
  destruct (heap st !! r2) as [obj2|]; [|apply scored_refl].
  cbv zeta. destruct (nltb _ _).
  - apply scored_same. by rewrite !tally_store.
  - eapply scored_trans; [|apply scored_same, tally_playSound].
    eapply scored_trans; [|apply scored_handleSpecialCollisions].
    apply scored_same. by rewrite !tally_store.
Qed.

Lemma scored_collidePair r1 r2 (st : State T) :
  scored st (collidePair r1 r2 st).
Proof.
  unfold collidePair.
  destruct (heap st !! r1) as [obj1|]; [|apply scored_refl].
  destruct (heap st !! r2) as [obj2|]; [|apply scored_refl].
  destruct (_ || _); [apply scored_refl|].
  cbv zeta. destruct (nltb _ _); [|apply scored_refl].
  apply scored_handleCollision.
Qed.

Lemma scored_collideAll l : forall st : State T, scored st (collideAll l st).
Proof.
  induction l as [|r1 rest IH]; intros st; simpl; [apply scored_refl|].
  eapply scored_trans; [|apply IH].
  apply scored_forEach. intros. apply scored_collidePair.
Qed.

Lemma scored_processInput h (st : State T) : scored st (processInput h st).
Proof.
  apply scored_forEachFrom. intros r i s.
  destruct (heap s !! r) as [rocket|]; [|apply scored_refl].
  destruct (negb _); [apply scored_refl|]. apply scored_same, tally_store.
Qed.

Lemma scored_simulate h delta (st : State T) : scored st (simulate h delta st).
Proof.
  unfold simulate, checkCollisions, updateObjects.
  eapply scored_trans; [|apply scored_same; reflexivity].
  eapply scored_trans; [|apply scored_collideAll].
  eapply scored_trans; [|apply scored_updatePhysics].
  eapply scored_trans; [|apply scored_processInput].
  by apply scored_same.
Qed.

End FrameFacts.

(** ** Spawning a level *)

Section SpawnFacts.
Context {T : Type} `{JsNum T}.

(** *** Loops *)

Lemma forRange_inv {St} (P : nat -> St -> Prop) (f : nat -> St -> option St) n :
  forall i s,
    P i s ->
    (forall j t, i <= j < i + n -> P j t ->
                 exists t', f j t = Some t' /\ P (S j) t') ->
    exists s', forRange f i n s = Some s' /\ P (i + n) s'.
Proof.
  induction n as [|n IH]; intros i s HP Hf; simpl.
  - exists s. by rewrite Nat.add_0_r.
  - destruct (Hf i s ltac:(lia) HP) as (t' & -> & HP'). simpl.
    destruct (IH (S i) t' HP') as (s' & -> & HP'').
    { intros j t Hj. apply Hf. lia. }
    exists s'. split; [done|]. by replace (i + S n) with (S i + n) by lia.
Qed.

Lemma iter_inv {St} (P : nat -> St -> Prop) (f : St -> St) n s :
  P 0 s -> (forall k t, P k t -> P (S k) (f t)) -> P n (Nat.iter n f s).
Proof. intros H0 HS. induction n as [|n IH]; simpl; [done|by apply HS]. Qed.

(** *** Spawning keeps the rules' fields and only adds live objects *)

Lemma sameRules_refl (st : State T) : sameRules st st.
Proof. by repeat split. Qed.

Lemma sameRules_trans (st1 st2 st3 : State T) :
  sameRules st1 st2 -> sameRules st2 st3 -> sameRules st1 st3.
Proof.
  unfold sameRules. intros (?&?&?&?&?&?&?) (?&?&?&?&?&?&?).
  repeat split; congruence.
Qed.

Lemma isLive_grow (st : State T) hp' r :
  isLive st r = true -> isLive (set_heap (heap st ++ hp') st) r = true.
Proof.
  unfold isLive; simpl. destruct (heap st !! r) as [o|] eqn:E; [|done].
  intros Hl. by rewrite (lookup_app_l_Some _ _ _ _ E).
Qed.

Lemma createGameObject_spec ty cx cy cvx cvy cp (st : State T) :
  let r := fst (createGameObject ty cx cy cvx cvy cp st) in
  let st' := snd (createGameObject ty cx cy cvx cvy cp st) in
  sameRules st st' /\
  objects st' = objects st ++ [r] /\ rockets st' = rockets st /\
  balls st' = balls st /\ randomCalls st' = randomCalls st /\
  isLive st' r = true /\
  (forall q, isLive st q = true -> isLive st' q = true).
Proof.
  simpl. repeat split.
  - unfold isLive; simpl. by rewrite list_lookup_middle.
  - intros q Hq. unfold isLive in *; simpl.
    destruct (heap st !! q) as [o|] eqn:E; [|done].
    by rewrite (lookup_app_l_Some _ _ _ _ E).
Qed.

Lemma allLive_clearGame (st : State T) : allLive (clearGame st).
Proof. split; constructor. Qed.

Lemma spawns_refl (st : State T) : spawns 0 0 st st.
Proof.
  split; [apply sameRules_refl|]. split; [lia|]. split; [lia|done].
Qed.

Lemma spawns_trans nr nb nr' nb' n m (st1 st2 st3 : State T) :
  spawns nr nb st1 st2 -> spawns nr' nb' st2 st3 ->
  n = nr + nr' -> m = nb + nb' -> spawns n m st1 st3.
Proof.
  intros (Hs & Hr & Hb & Hl) (Hs' & Hr' & Hb' & Hl') -> ->.
  split; [by eapply sameRules_trans|]. split; [lia|]. split; [lia|tauto].
Qed.

Lemma allLive_add (st st' : State T) r :
  objects st' = objects st ++ [r] ->
  isLive st' r = true ->
  (forall q, isLive st q = true -> isLive st' q = true) ->
  Forall (fun q => isLive st q = true) (objects st) ->
  Forall (fun q => isLive st' q = true) (objects st').
Proof.
  intros -> Hnew Hold Hall. apply Forall_app. split; [|by repeat constructor].
  eapply Forall_impl; [exact Hall|]. apply Hold.
Qed.

Lemma spawns_createGameObject ty cx cy cvx cvy cp (st : State T) :
  spawns 0 0 st (snd (createGameObject ty cx cy cvx cvy cp st)).
Proof.
  destruct (createGameObject_spec ty cx cy cvx cvy cp st)
    as (Hs & Ho & Hr & Hb & _ & Hnew & Hold).
  split; [done|]. rewrite Hr, Hb. split; [lia|]. split; [lia|].
  intros [Hobj Hrk]. split.
  - by eapply allLive_add.
  - eapply Forall_impl; [exact Hrk|]. apply Hold.
Qed.

Lemma spawns_createRocket h i (st : State T) :
  i < 5 -> exists st', createRocket h i st = Some st' /\ spawns 1 0 st st'.
Proof.
  intros Hi. unfold createRocket.
  destruct (rocketPositions h !! i) as [pref|] eqn:E.
  2: { apply lookup_ge_None in E. simpl in E. lia. }
  simpl. eexists. split; [reflexivity|].
  set (p := findSafeSpawnPosition h pref st).
  destruct (createGameObject_spec ROCKET (fst p) (snd p) None None (Some i) st)
    as (Hs & Ho & Hr & Hb & _ & Hnew & Hold).
  split; [exact Hs|]. simpl. rewrite length_app. simpl.
  split; [lia|]. split; [lia|].
  intros [Hobj Hrk]. split.
  - by eapply allLive_add.
  - apply Forall_app. split; [|by repeat constructor].
    eapply Forall_impl; [exact Hrk|]. apply Hold.
Qed.

Lemma spawns_createRockets h (st : State T) :
  playerCount st <= 5 ->
  exists st', createRockets h st = Some st' /\
              spawns (playerCount st) 0 st st'.
Proof.
  intros Hn. unfold createRockets.
  destruct (forRange_inv (fun i s => spawns i 0 st s) (createRocket h)
              (playerCount st) 0 st (spawns_refl st)) as (st' & E & Hs).
  - intros j t Hj Ht.
    destruct (spawns_createRocket h j t ltac:(lia)) as (t' & Et & Ht').
    exists t'. split; [done|]. eapply spawns_trans; [exact Ht|exact Ht'|lia..].
  - by exists st'.
Qed.

Lemma spawns_set_randomCalls n (st : State T) :
  spawns 0 0 st (set_randomCalls n st).
Proof.
  split; [by repeat split|]. split; [simpl; lia|]. split; [simpl; lia|done].
Qed.

Lemma spawns_createBall h (st : State T) : spawns 0 1 st (createBall h st).
Proof.
  unfold createBall. cbv zeta.
  set (st1 := set_randomCalls _ st).
  match goal with
  | |- context [createGameObject ?k ?a ?b ?c ?d ?e st1] =>
      destruct (createGameObject_spec k a b c d e st1)
        as (Hs & Ho & Hr & Hb & _ & Hnew & Hold)
  end.
  split; [exact Hs|]. simpl. rewrite length_app. simpl.
  split; [lia|]. split; [lia|].
  intros [Hobj Hrk]. split.
  - by eapply allLive_add.
  - eapply Forall_impl; [exact Hrk|]. apply Hold.
Qed.

Lemma spawns_createHole h (st : State T) : spawns 0 0 st (createHole h st).
Proof.
  unfold createHole. cbv zeta.
  eapply spawns_trans;
    [apply spawns_set_randomCalls|apply spawns_createGameObject|lia..].
Qed.

Lemma spawns_createBigBall h (st : State T) :
  spawns 0 0 st (createBigBall h st).
Proof.
  unfold createBigBall. cbv zeta.
  eapply spawns_trans;
    [apply spawns_set_randomCalls|apply spawns_createGameObject|lia..].
Qed.

Lemma spawns_iter nr nb (f : State T -> State T) n (st : State T) :
  (forall s, spawns nr nb s (f s)) ->
  spawns (n * nr) (n * nb) st (Nat.iter n f st).
Proof.
  intros Hf. induction n as [|n IH]; simpl; [apply spawns_refl|].
  eapply spawns_trans; [exact IH|apply Hf|lia..].
Qed.

Lemma spawns_createBalls h (st : State T) :
  spawns 0 (Z.to_nat (Z.min (8 + level st) 15)) st (createBalls h st).
Proof.
  unfold createBalls. cbv zeta.
  eapply spawns_trans;
    [apply spawns_refl|apply spawns_iter, spawns_createBall|lia..].
Qed.

Lemma spawns_createSpecialObjects h (st : State T) :
  spawns 0 0 st (createSpecialObjects h st).
Proof.
  unfold createSpecialObjects. cbv zeta.
  set (st1 := if (level st >? 2)%Z then _ else st).
  assert (H1 : spawns 0 0 st st1).
  { subst st1. destruct (level st >? 2)%Z; [|apply spawns_refl].
    eapply spawns_trans;
      [apply spawns_refl|apply spawns_iter, spawns_createHole|lia..]. }
  destruct (level st1 >? 3)%Z; [|done].
  eapply spawns_trans;
    [exact H1|apply spawns_iter, spawns_createBigBall|lia..].
Qed.

Lemma spawns_initLevel h (st : State T) :
  playerCount st <= 5 ->
  exists st', initLevel h st = Some st' /\
    spawns (playerCount st) (Z.to_nat (Z.min (8 + level st) 15)) st st'.
Proof.
  intros Hn. unfold initLevel.
  destruct (spawns_createRockets h st Hn) as (st1 & -> & H1). simpl.
  assert (Hlv : level st1 = level st) by apply H1.
  pose proof (spawns_createBalls h st1) as H2. rewrite Hlv in H2.
  eexists. split; [reflexivity|].
  set (st2 := createBalls h st1) in *.
  assert (H3 : spawns 0 0 st2
                 (if (level st2 >? 1)%Z then createSpecialObjects h st2
                  else st2)).
  { destruct (_ >? 1)%Z;
      [apply spawns_createSpecialObjects|apply spawns_refl]. }
  eapply spawns_trans;
    [eapply spawns_trans; [exact H1|exact H2|reflexivity..]|exact H3|lia..].
Qed.

(** Restarting a level spawns it afresh: the rockets of all players and
    the balls of the level, all of them live; the level, the score, the
    lives and the threshold stay. *)
Lemma restartLevel_spec h (st : State T) :
  playerCount st <= 5 ->
  exists st', restartLevel h st = Some st' /\
    gameState st' = Running /\ level st' = level st /\
    score st' = score st /\ lives st' = lives st /\
    nextLifeAt st' = nextLifeAt st /\ playerCount st' = playerCount st /\
    out st' = out st /\
    length (rockets st') = playerCount st /\
    length (balls st') = Z.to_nat (Z.min (8 + level st) 15) /\
    allLive st'.
Proof.
  intros Hn. unfold restartLevel.
  destruct (spawns_initLevel h (clearGame st) Hn)
    as (st1 & -> & (Hg & Hl & Hs & Hv & Hx & Hp & Ho) & Hr & Hb & Hlive).
  simpl in *. eexists. split; [reflexivity|]. simpl.
  repeat split; try done; try lia.
  - by apply (Hlive (allLive_clearGame st)).
  - by apply (Hlive (allLive_clearGame st)).
Qed.

End SpawnFacts.

(** A first level for one player on the concrete host: one rocket and
    nine balls, the game running; for six players the spawn throws. *)
Example startGame_first_level :
  exists st', startGame Scenario.host 1 1 initialState = Some st' /\
    gameState st' = Running /\ length (rockets st') = 1 /\
    length (balls st') = 9 /\ length (objects st') = 10 /\
    randomCalls st' = 45 /\ out st' = [Emit (gameStarted 1 1)].
Proof. eexists. split; [by vm_compute|]. by repeat split. Qed.

Example startGame_six_players :
  startGame Scenario.host 6 1 initialState = None.
Proof. by vm_compute. Qed.

(** ** The rules check *)

Section RulesFacts.
Context {T : Type} `{JsNum T}.

Lemma forRange_some {St} (P : St -> Prop) (f : nat -> St -> option St) n :
  (forall j t t', f j t = Some t' -> P t -> P t') ->
  forall i s s', forRange f i n s = Some s' -> P s -> P s'.
Proof.
  intros Hf. induction n as [|n IH]; intros i s s' E HP; simpl in E.
  - by inversion E; subst.
  - destruct (f i s) as [t|] eqn:Et; simpl in E; [|done].
    eapply IH; [exact E|]. by eapply Hf.
Qed.

Lemma sameRules_createRocket h i (st st' : State T) :
  createRocket h i st = Some st' -> sameRules st st'.
Proof.
  unfold createRocket. destruct (rocketPositions h !! i); simpl; [|done].
  intros [= <-]. by repeat split.
Qed.

Lemma sameRules_initLevel h (st st' : State T) :
  initLevel h st = Some st' -> sameRules st st'.
Proof.
  unfold initLevel. destruct (createRockets h st) as [st1|] eqn:E1; [|done].
  simpl. intros [= <-].
  assert (H1 : sameRules st st1).
  { eapply (forRange_some (sameRules st)); [|exact E1|apply sameRules_refl].
    intros j t t' Et Ht. eapply sameRules_trans; [exact Ht|].
    by eapply sameRules_createRocket. }
  eapply sameRules_trans; [exact H1|].
  eapply sameRules_trans; [apply (spawns_createBalls h st1)|].
  destruct (_ >? 1)%Z; [apply spawns_createSpecialObjects|apply sameRules_refl].
Qed.

(** The rules check never touches the score, the threshold or the level,
    and sends no [extraLife]. *)
Lemma checkGameState_keeps h (st st' : State T) :
  checkGameState h st = Some st' ->
  score st' = score st /\ nextLifeAt st' = nextLifeAt st /\
  level st' = level st /\
  extraLifeEvents (out st') = extraLifeEvents (out st).
Proof.
  unfold checkGameState.
  set (st1 := if (length (aliveBalls st) =? 0)%nat then _ else st).
  assert (H1 : score st1 = score st /\ nextLifeAt st1 = nextLifeAt st /\
               level st1 = level st /\
               extraLifeEvents (out st1) = extraLifeEvents (out st)).
  { subst st1. destruct (_ =? _)%nat; [|done]. simpl.
    rewrite extraLifeEvents_app. simpl. by rewrite app_nil_r. }
  destruct H1 as (Hs & Hn & Hl & He).
  destruct (length (aliveRockets st1) =? 0)%nat.
  - cbv zeta. destruct (_ <=? 0)%Z.
    + intros [= <-]. simpl. rewrite extraLifeEvents_app. simpl.
      by rewrite app_nil_r.
    + unfold restartLevel.
      destruct (initLevel h _) as [st2|] eqn:E2; simpl; [|done].
      intros [= <-]. simpl.
      apply sameRules_initLevel in E2 as (_ & Hl2 & Hs2 & _ & Hn2 & _ & Ho2).
      simpl in *. by rewrite Hl2, Hs2, Hn2, Ho2.
  - by intros [= <-].
Qed.

Lemma gameLoop_simulate h delta (st : State T) :
  gameState st = Running ->
  gameLoop h delta st =
  (st1 ← checkGameState h (simulate h delta st);
   Some (emit (scoreUpdate (score st1) (level st1) (lives st1)) st1)).
Proof. intros E. unfold gameLoop. by rewrite E. Qed.

(** The configuration is not touched before the rules check. *)
Lemma simulate_config h delta (st : State T) :
  level (simulate h delta st) = level st /\
  playerCount (simulate h delta st) = playerCount st /\
  gameState (simulate h delta st) = gameState st.
Proof.
  destruct (scored_simulate h delta st) as (ps & _ & E).
  destruct (awards_config ps (tally st)) as (Hl & Hp & Hg).
  rewrite <- E in Hl, Hp, Hg. by repeat split.
Qed.

(** With at most five players the rules check does not throw. *)
Lemma checkGameState_returns h (st : State T) :
  playerCount st <= 5 -> exists st', checkGameState h st = Some st'.
Proof.
  intros Hn. unfold checkGameState.
  set (st1 := if (length (aliveBalls st) =? 0)%nat then _ else st).
  assert (Hp : playerCount st1 = playerCount st).
  { subst st1. by destruct (_ =? _)%nat. }
  destruct (length (aliveRockets st1) =? 0)%nat; [|by exists st1].
  cbv zeta. destruct (_ <=? 0)%Z; [by eexists|].
  destruct (restartLevel_spec h (set_lives (lives st1 - 1) st1))
    as (st' & E & _); [simpl; lia|]. by exists st'.
Qed.

(** With at most five players a frame does not throw. *)
Lemma gameLoop_returns h delta (st : State T) :
  playerCount st <= 5 -> exists st', gameLoop h delta st = Some st'.
Proof.
  intros Hn. destruct (gameState st) eqn:Eg.
  1,3: unfold gameLoop; rewrite Eg; by eexists.
  rewrite (gameLoop_simulate h delta st Eg).
  destruct (simulate_config h delta st) as (_ & Hp & _).
  destruct (checkGameState_returns h (simulate h delta st)) as (st1 & ->);
    [lia|].
  by eexists.
Qed.

End RulesFacts.

(** ** Life lost and level complete *)

Section Rules.
Context {T : Type} `{JsNum T}.

(** C5 (amended). When the rules check finds no live rocket it takes one
    life.  If no life is left it sends [gameOver] with the score and the
    level, and leaves the phase and the objects as they are: the engine
    does not stop itself.  Otherwise it restarts the same level: the
    rockets of all players and the balls of the level are spawned afresh,
    all live, and the phase is [Running]. *)
Theorem life_lost_rule h (st : State T) :
  aliveRockets st = [] -> playerCount st <= 5 ->
  let note :=
    if (length (aliveBalls st) =? 0)%nat
    then [Emit (levelComplete (level st) (score st))] else [] in
  exists st', checkGameState h st = Some st' /\
    lives st' = (lives st - 1)%Z /\ level st' = level st /\
    score st' = score st /\
    if (lives st - 1 <=? 0)%Z then
      gameState st' = gameState st /\ objects st' = objects st /\
      heap st' = heap st /\
      out st' = out st ++ note ++ [Emit (gameOver (score st) (level st))]
    else
      gameState st' = Running /\ out st' = out st ++ note /\
      length (rockets st') = playerCount st /\
      length (balls st') = Z.to_nat (Z.min (8 + level st) 15) /\
      allLive st'.
Proof.
  intros Hdead Hn note. unfold checkGameState.
  set (st1 := if (length (aliveBalls st) =? 0)%nat then _ else st).
  assert (H1 : aliveRockets st1 = aliveRockets st /\
               sameRules st (set_out (out st) st1) /\
               out st1 = out st ++ note /\ objects st1 = objects st /\
               heap st1 = heap st).
  { subst st1 note. destruct (_ =? _)%nat.
    - by repeat split.
    - repeat split. by rewrite app_nil_r. }
  destruct H1 as (Hr & (Hg & Hl & Hs & Hv & Hx & Hp & _) & Ho & Hob & Hh).
  simpl in Hg, Hl, Hs, Hv, Hx, Hp.
  rewrite Hr, Hdead. simpl.
  destruct (lives st1 - 1 <=? 0)%Z eqn:E; rewrite Hv in E; rewrite E.
  - eexists. split; [reflexivity|]. simpl.
    rewrite Hv, Hl, Hs, Hg, Hob, Hh, Ho. repeat split. by rewrite <- app_assoc.
  - destruct (restartLevel_spec h (set_lives (lives st1 - 1) st1))
      as (st' & -> & Hg' & Hl' & Hs' & Hv' & _ & _ & Ho' & Hrk & Hb & Hlive);
      [simpl; lia|].
    simpl in *. exists st'. split; [done|].
    repeat (split; [congruence|]). exact Hlive.
Qed.

(** C6 (amended). When the rules check finds no live ball it sends
    [levelComplete] with the current level and score.  The check itself
    does not move to another level: the level stays, and as long as a
    rocket lives the objects and the phase stay too (acting on the
    notification is left to the listener). *)
Theorem level_complete_rule h (st : State T) :
  aliveBalls st = [] -> playerCount st <= 5 ->
  exists st' rest, checkGameState h st = Some st' /\
    out st' = out st ++ Emit (levelComplete (level st) (score st)) :: rest /\
    level st' = level st /\
    (aliveRockets st <> [] ->
     objects st' = objects st /\ heap st' = heap st /\
     gameState st' = gameState st).
Proof.
  intros Hnone Hn. unfold checkGameState. rewrite Hnone. simpl.
  set (st1 := emit (levelComplete (level st) (score st)) st).
  change (aliveRockets st1) with (aliveRockets st).
  destruct (aliveRockets st) as [|r rs] eqn:Hr; simpl.
  - destruct (lives st - 1 <=? 0)%Z.
    + eexists. exists [Emit (gameOver (score st) (level st))].
      split; [reflexivity|]. simpl. split; [by rewrite <- app_assoc|].
      by split.
    + destruct (restartLevel_spec h (set_lives (lives st - 1) st1))
        as (st' & -> & _ & Hl & _ & _ & _ & _ & Ho & _); [simpl; lia|].
      exists st', []. split; [done|]. split; [exact Ho|]. by split.
  - eexists. exists []. split; [reflexivity|]. by repeat split.
Qed.

End Rules.

Lemma life_lost_rule_witness :
  exists st',
    checkGameState Scenario.host Scenario.secondLife = Some st' /\
    lives st' = 1%Z /\ gameState st' = Running /\
    length (rockets st') = 1 /\ length (balls st') = 9.
Proof.
  destruct (life_lost_rule Scenario.host Scenario.secondLife)
    as (st' & E & Hl & _ & _ & Hg & _ & Hr & Hb & _).
  - by vm_compute.
  - vm_compute. lia.
  - exists st'. split; [exact E|]. split; [exact Hl|]. split; [exact Hg|].
    split; [exact Hr|exact Hb].
Defined.

(** C5, as stated, fails: on the last life the engine sends [gameOver] and
    stays [Running]. *)
Lemma game_over_keeps_running :
  aliveRockets Scenario.lastLife = [] /\
  exists st',
    checkGameState Scenario.host Scenario.lastLife = Some st' /\
    lives st' = 0%Z /\ In (Emit (gameOver 40 1)) (out st') /\
    gameState st' = Running /\ gameState st' <> Stopped.
Proof.
  split; [by vm_compute|]. eexists. split; [by vm_compute|].
  split; [reflexivity|]. split; [by left|]. by split.
Qed.

Lemma level_complete_rule_witness :
  exists st',
    checkGameState Scenario.host Scenario.cleared = Some st' /\
    out st' = [Emit (levelComplete 1 100)] /\ level st' = 1%Z.
Proof.
  destruct (level_complete_rule Scenario.host Scenario.cleared)
    as (st' & rest & E & Ho & Hl & _).
  - by vm_compute.
  - vm_compute. lia.
  - exists st'. split; [exact E|]. split; [|exact Hl].
    revert E. vm_compute. by intros [= <-].
Defined.

(** C6, as stated, fails: with all balls gone the check adds no bonus and
    stays on the level, no ball of a next level being spawned. *)
Lemma level_complete_no_advance :
  aliveBalls Scenario.cleared = [] /\
  exists st',
    checkGameState Scenario.host Scenario.cleared = Some st' /\
    score st' = score Scenario.cleared /\
    level st' = level Scenario.cleared /\
    objects st' = objects Scenario.cleared /\ balls st' = [].
Proof.
  split; [by vm_compute|]. eexists. split; [by vm_compute|]. by repeat split.
Qed.

(** ** Extra lives *)

Section ExtraLife.
Context {T : Type} `{JsNum T}.

(** C10. One call of [checkExtraLife] with the score at or above the
    threshold, by whatever amount (also by more than 500), grants exactly
    one life and moves the threshold up by exactly 500: [lives] grows by 1,
    [nextLifeAt] by 500, and one [extraLife] notification is sent. *)
Theorem checkExtraLife_grants_one (st : State T) :
  (nextLifeAt st <= score st)%Z ->
  lives (checkExtraLife st) = (lives st + 1)%Z /\
  nextLifeAt (checkExtraLife st) = (nextLifeAt st + 500)%Z /\
  score (checkExtraLife st) = score st /\
  extraLifeEvents (out (checkExtraLife st)) =
  extraLifeEvents (out st) ++
    [extraLife (score st) (level st) (lives st + 1) (nextLifeAt st + 500)].
Proof.
  intros Hle. unfold checkExtraLife.
  destruct (score st >=? nextLifeAt st)%Z eqn:E; [|lia]. simpl.
  repeat split. rewrite !extraLifeEvents_app. simpl. by rewrite !app_nil_r.
Qed.

(** Below the threshold the call grants nothing. *)
Lemma checkExtraLife_below (st : State T) :
  (score st < nextLifeAt st)%Z ->
  lives (checkExtraLife st) = lives st /\
  nextLifeAt (checkExtraLife st) = nextLifeAt st /\
  extraLifeEvents (out (checkExtraLife st)) = extraLifeEvents (out st).
Proof.
  intros Hlt. unfold checkExtraLife.
  destruct (score st >=? nextLifeAt st)%Z eqn:E; [lia|]. simpl.
  repeat split. rewrite extraLifeEvents_app. simpl. by rewrite app_nil_r.
Qed.

(** C3. A frame of a game of at most five players returns, and if in it
    the score crosses the threshold once (it starts below [nextLifeAt] and
    ends at or above it, below the next threshold), exactly one life is
    granted: the threshold ends at the old one plus 500, the phases before
    the rules check leave one life more, and exactly one [extraLife]
    notification is sent, carrying the new lives and the new threshold. *)
Theorem extra_life_once_per_crossing h delta (st : State T) :
  (playerCount st <= 5 -> exists st', gameLoop h delta st = Some st') /\
  forall st',
    gameLoop h delta st = Some st' ->
    (score st < nextLifeAt st)%Z ->
    (nextLifeAt st <= score st' < nextLifeAt st + 500)%Z ->
    nextLifeAt st' = (nextLifeAt st + 500)%Z /\
    lives (simulate h delta st) = (lives st + 1)%Z /\
    exists s, (nextLifeAt st <= s <= score st')%Z /\
      extraLifeEvents (out st') =
      extraLifeEvents (out st) ++
        [extraLife s (level st) (lives st + 1) (nextLifeAt st + 500)].
Proof.
  split; [apply gameLoop_returns|].
  intros st' Hloop Hlt Hcross.
  destruct (gameState st) eqn:Eg.
  1,3: unfold gameLoop in Hloop; rewrite Eg in Hloop;
       inversion Hloop; subst; lia.
  rewrite (gameLoop_simulate h delta st Eg) in Hloop.
  destruct (checkGameState h (simulate h delta st)) as [st1|] eqn:E1;
    simpl in Hloop; [|done].
  inversion Hloop; subst st'; clear Hloop. simpl in *.
  destruct (checkGameState_keeps h _ _ E1) as (Hs & Hn & Hl & He).
  destruct (scored_simulate h delta st) as (ps & Hps & Et).
  assert (Hsc : t_score (awards ps (tally st)) = score st1).
  { rewrite <- Et. exact (eq_sym Hs). }
  destruct (awards_cross ps (tally st) Hps) as (Hlv & Hnx & _ & s & Hsr & Hgr);
    simpl; rewrite ?Hsc; try lia.
  rewrite <- Et in Hlv, Hnx, Hgr.
  change (lives (simulate h delta st) = (lives st + 1)%Z) in Hlv.
  change (nextLifeAt (simulate h delta st) = (nextLifeAt st + 500)%Z) in Hnx.
  change (extraLifeEvents (out (simulate h delta st)) =
          extraLifeEvents (out st) ++
            [extraLife s (level st) (lives st + 1) (nextLifeAt st + 500)])
    in Hgr.
  split; [by rewrite Hn|]. split; [done|].
  exists s. split; [simpl in Hsr; lia|].
  rewrite extraLifeEvents_app. simpl. rewrite app_nil_r. by rewrite He.
Qed.

End ExtraLife.

Lemma checkExtraLife_grants_one_witness :
  (nextLifeAt Scenario.farBeyond + 500 < score Scenario.farBeyond)%Z /\
  lives (checkExtraLife Scenario.farBeyond) = 4%Z /\
  nextLifeAt (checkExtraLife Scenario.farBeyond) = 1000%Z.
Proof.
  split; [by vm_compute|].
  destruct (checkExtraLife_grants_one Scenario.farBeyond) as (Hl & Hn & _).
  - by vm_compute.
  - split; [exact Hl|exact Hn].
Defined.

Lemma extra_life_once_per_crossing_witness :
  exists st',
    gameLoop Scenario.host (ofZ 1) Scenario.crossing = Some st' /\
    score Scenario.crossing = 495%Z /\ score st' = 515%Z /\
    nextLifeAt st' = 1000%Z /\
    extraLifeEvents (out st') = [extraLife 515 1 4 1000].
Proof.
  eexists. split; [by vm_compute|].
  split; [reflexivity|]. split; [reflexivity|].
  edestruct (proj2 (extra_life_once_per_crossing Scenario.host (ofZ 1)
                      Scenario.crossing)) as (Hn & _ & s & Hs & He).
  - by vm_compute.
  - by vm_compute.
  - by vm_compute.
  - split; [exact Hn|]. by vm_compute.
Defined.

(** ** Walls *)

Section Walls.
Context {T : Type} `{JsNum T}.

Lemma isLive_store_eq r o (st : State T) :
  r < length (heap st) -> isLive (store r o st) r = Obj.live o.
Proof.
  intros Hr. unfold isLive, store; simpl.
  by rewrite list_lookup_insert_eq.
Qed.

Lemma heap_checkExtraLife (st : State T) : heap (checkExtraLife st) = heap st.
Proof. unfold checkExtraLife. by destruct (_ >=? _)%Z. Qed.

Lemma score_checkExtraLife (st : State T) :
  score (checkExtraLife st) = score st.
Proof. unfold checkExtraLife. by destruct (_ >=? _)%Z. Qed.

Lemma isLive_heap (st st' : State T) r :
  heap st' = heap st -> isLive st' r = isLive st r.
Proof. unfold isLive. by intros ->. Qed.

Lemma isLive_checkExtraLife (st : State T) r :
  isLive (checkExtraLife st) r = isLive st r.
Proof. apply isLive_heap, heap_checkExtraLife. Qed.

(** One call of the bounds check on an object that is within one radius
    of a screen edge (its centre closer to the edge than its radius): an
    object that is not a hole is marked not live, the score grows by 5 for
    a small ball and by 10 for a large ball, and the death cue is played
    ([rocketDeath] for a rocket, [objectDeath] otherwise); on a hole the
    check changes nothing. *)
Lemma keepInBounds_kills h r obj (st : State T) :
  heap st !! r = Some obj ->
  (Obj.x obj < Obj.radius obj)%num = true \/
  (Obj.x obj > screenWidth h - Obj.radius obj)%num = true \/
  (Obj.y obj < Obj.radius obj)%num = true \/
  (Obj.y obj > screenHeight h - Obj.radius obj)%num = true ->
  let st' := keepInBounds h r st in
  (Obj.type obj <> HOLE ->
   isLive st' r = false /\
   score st' =
     (score st + match Obj.type obj with
                 | BALL_SMALL => 5 | BALL_LARGE => 10 | _ => 0
                 end)%Z /\
   In (Play match Obj.type obj with
            | ROCKET => sndRocketDeath | _ => sndObjectDeath
            end) (out st')) /\
  (Obj.type obj = HOLE -> st' = st).
Proof.
  intros Hobj Hhit st'. subst st'. unfold keepInBounds. rewrite Hobj.
  cbv zeta.
  assert (Hany : (Obj.x obj < Obj.radius obj)%num
                 || (Obj.x obj > screenWidth h - Obj.radius obj)%num
                 || (Obj.y obj < Obj.radius obj)%num
                 || (Obj.y obj > screenHeight h - Obj.radius obj)%num = true).
  { destruct Hhit as [-> | [-> | [-> | ->]]]; by rewrite ?orb_true_r. }
  rewrite Hany. apply lookup_lt_Some in Hobj as Hr.
  split.
  - intros Hk.
    assert (Hdead : isLive (store r (set_live false obj) st) r = false)
      by (by rewrite isLive_store_eq).
    assert (Hlive : forall ex ey c s (st1 : State T),
              isLive st1 r = false ->
              isLive (createExplosion ex ey c (playSound s st1)) r = false)
      by done.
    assert (Hcue : forall ex ey c s (st1 : State T),
              In (Play s) (out (createExplosion ex ey c (playSound s st1)))).
    { intros. simpl. rewrite !in_app_iff. simpl. tauto. }
    destruct (Obj.type obj) eqn:Ek; try done;
      cbv [isKind kindCode Z.eqb Pos.eqb].
    all: split; [apply Hlive; by rewrite ?isLive_checkExtraLife|].
    all: split; [|apply Hcue].
    all: change (score (createExplosion ?ex ?ey ?c (playSound ?s ?st1)))
           with (score st1).
    all: rewrite ?score_checkExtraLife; simpl; lia.
  - intros ->. reflexivity.
Qed.

(** The bounds check is the last thing the physics step of a live object
    does, on the position just integrated. *)
Lemma physicsStep_bounds h r obj (st : State T) :
  heap st !! r = Some obj -> Obj.live obj = true ->
  physicsStep h r st =
  keepInBounds h r
    (store r (integrate (deltaTime st) (applyGravity st obj)) st).
Proof. intros Hobj Hl. unfold physicsStep. by rewrite Hobj, Hl. Qed.

End Walls.

(** ** Collisions on binary64 *)

Section Separating.
Context {T : Type} `{JsNum T}.

Lemma isLive_store_ne r q o (st : State T) :
  r <> q -> isLive (store r o st) q = isLive st q.
Proof.
  intros Hne. unfold isLive, store; simpl. by rewrite list_lookup_insert_ne.
Qed.

Lemma lookup_store_ne r q o (st : State T) :
  r <> q -> heap (store r o st) !! q = heap st !! q.
Proof. intros Hne. unfold store; simpl. by apply list_lookup_insert_ne. Qed.

Lemma lookup_store_eq r o (st : State T) :
  r < length (heap st) -> heap (store r o st) !! r = Some o.
Proof. intros Hr. unfold store; simpl. by apply list_lookup_insert_eq. Qed.

Lemma isLive_store_same r q o o' (st : State T) :
  heap st !! r = Some o -> Obj.live o' = Obj.live o ->
  isLive (store r o' st) q = isLive st q.
Proof.
  intros Hr Hl. destruct (decide (r = q)) as [<-|Hne].
  - rewrite isLive_store_eq; [|by eapply lookup_lt_Some].
    unfold isLive. by rewrite Hr.
  - by apply isLive_store_ne.
Qed.

(** When the two objects move apart along the normal,
    [handleCollision] returns after pushing them apart: no velocity changes, no object dies,
    nothing is scored and no cue is played, whatever the kinds of the two
    objects. *)
Lemma handleCollision_separating r1 r2 obj1 obj2 dx dy distance (st : State T) :
  r1 <> r2 ->
  heap st !! r1 = Some obj1 -> heap st !! r2 = Some obj2 ->
  ((Obj.vx obj2 - Obj.vx obj1) * (dx / distance)
   + (Obj.vy obj2 - Obj.vy obj1) * (dy / distance) > ofZ 0)%num = true ->
  let st' := handleCollision r1 r2 dx dy distance st in
  out st' = out st /\ score st' = score st /\ lives st' = lives st /\
  forall q, isLive st' q = isLive st q.
Proof.
  intros Hne H1 H2 Hsep. simpl. unfold handleCollision. rewrite H1, H2.
  cbv zeta. simpl Obj.vx. simpl Obj.vy. rewrite Hsep.
  repeat split. intros q.
  rewrite (isLive_store_same r2 q obj2); [|by rewrite lookup_store_ne|done].
  by rewrite (isLive_store_same r1 q obj1).
Qed.

End Separating.

(** C1 (fails on the code).  A live rocket overlaps a live hole (centres
    20 apart, radii 14 and 12) and flies away from it: the collision pass
    pushes the two apart and returns; the rocket is still live and no
    death cue is played, and so it is after a whole frame.  The same pair
    with the rocket flying into the hole does kill the rocket. *)
Theorem separating_rocket_survives_hole :
  checkCollisions Scenario.separating =
  set_heap [set_pos (ofZ 397) (ofZ 300) (Scenario.object ROCKET 400 300 (-1) 0);
            set_pos (ofZ 423) (ofZ 300) (Scenario.object HOLE 420 300 0 0)]
           Scenario.separating /\
  isLive (checkCollisions Scenario.separating) 0 = true /\
  out (checkCollisions Scenario.separating) = [] /\
  (exists st', gameLoop Scenario.host (ofZ 1) Scenario.separating = Some st' /\
     isLive st' 0 = true /\
     out st' = [Emit (levelComplete 1 0); Emit (scoreUpdate 0 1 3)]) /\
  isLive (checkCollisions Scenario.approaching) 0 = false /\
  In (Play sndRocketDeath) (out (checkCollisions Scenario.approaching)).
Proof.
  split; [by vm_compute|]. split; [by vm_compute|]. split; [by vm_compute|].
  split; [eexists; split; [by vm_compute|by vm_compute]|].
  split; [by vm_compute|]. vm_compute. tauto.
Qed.

(** C2, as stated, fails: the deadly-wall engine clamps the speed.  A
    small ball with velocity 10 has velocity 9.95 after friction, above
    the cap of 6 for its kind; the physics pass leaves it with velocity 6
    and moves it by 6 only, not by the velocity after friction. *)
Lemma deadly_engine_caps_speed :
  heap (updatePhysics Scenario.host Scenario.speeding) =
  [Scenario.object ROCKET 100 300 0 0; Scenario.object BALL_SMALL 406 300 6 0]
  /\ (ofZ 6 < Obj.vx Scenario.fastBall * lit 995 1000)%num = true /\
  (ofZ 406
   < Obj.x Scenario.fastBall + Obj.vx Scenario.fastBall * lit 995 1000)%num
  = true.
Proof. by vm_compute. Qed.

(** C7 (fails on the code).  Two live balls with the same centre are
    detected as colliding (distance 0 is below the sum of the radii) and
    resolved: the normal is 0/0, and the position and the velocity of both
    become NaN; they are NaN at the end of the frame too. *)
Theorem coincident_pair_yields_nan :
  isNaN Scenario.NaN = true /\
  Forall (fun o => isNaN (Obj.x o) || isNaN (Obj.y o)
                   || isNaN (Obj.vx o) || isNaN (Obj.vy o) = false)
         (heap Scenario.coincident) /\
  heap (checkCollisions Scenario.coincident) =
  [Scenario.object ROCKET 100 300 0 0;
   set_vel Scenario.NaN Scenario.NaN
     (set_pos Scenario.NaN Scenario.NaN
        (Scenario.object BALL_SMALL 400 300 0 0));
   set_vel Scenario.NaN Scenario.NaN
     (set_pos Scenario.NaN Scenario.NaN
        (Scenario.object BALL_SMALL 400 300 0 0))] /\
  In (Play sndCollision) (out (checkCollisions Scenario.coincident)) /\
  exists st', gameLoop Scenario.host (ofZ 1) Scenario.coincident = Some st' /\
    heap st' = heap (checkCollisions Scenario.coincident).
Proof.
  split; [by vm_compute|]. split; [by repeat constructor|].
  split; [by vm_compute|]. split; [vm_compute; tauto|].
  eexists. split; by vm_compute.
Qed.

(** ** The impulse *)

Section Impulse.
Context {T : Type} `{JsNum T}.

Lemma set_live_same (o : GameObject T) : set_live (Obj.live o) o = o.
Proof. by destruct o. Qed.

Lemma heap_playSound s (st : State T) : heap (playSound s st) = heap st.
Proof. reflexivity. Qed.

(** The special cases change nothing of an object but its [live] flag. *)
Lemma handleSpecialCollisions_lookup r1 r2 q o (st : State T) :
  heap st !! q = Some o ->
  exists b, heap (handleSpecialCollisions r1 r2 st) !! q = Some (set_live b o).
Proof.
  intros Hq. unfold handleSpecialCollisions.
  assert (Hsame : exists b, heap st !! q = Some (set_live b o)).
  { exists (Obj.live o). by rewrite set_live_same. }
  assert (Hkill : forall rb ball, heap st !! rb = Some ball ->
            exists b, heap (store rb (set_live false ball) st) !! q
                      = Some (set_live b o)).
  { intros rb ball Hb. destruct (decide (rb = q)) as [->|Hne].
    - exists false. rewrite lookup_store_eq; [|by eapply lookup_lt_Some].
      congruence.
    - rewrite lookup_store_ne; done. }
  destruct (heap st !! r1) as [obj1|] eqn:E1; [|done].
  destruct (heap st !! r2) as [obj2|] eqn:E2; [|done].
  destruct (_ || _).
  - destruct (isBall (Obj.type obj1)).
    + destruct (Hkill r1 obj1 E1) as (b & Hb). exists b.
      destruct (Obj.type obj1);
        rewrite heap_playSound, heap_checkExtraLife; exact Hb.
    + destruct (Hkill r2 obj2 E2) as (b & Hb). exists b.
      destruct (Obj.type obj2);
        rewrite heap_playSound, heap_checkExtraLife; exact Hb.
  - destruct (_ || _); [|done].
    destruct (isKind (Obj.type obj1) ROCKET).
    + destruct (Hkill r1 obj1 E1) as (b & Hb). by exists b.
    + destruct (Hkill r2 obj2 E2) as (b & Hb). by exists b.
Qed.

(** What [handleCollision] leaves in the two objects: the positions pushed
    apart, the velocities after the impulse [imp] (which is 0 when the
    pair separates), and a [live] flag. *)
Lemma handleCollision_lookup r1 r2 obj1 obj2 dx dy distance (st : State T) :
  r1 <> r2 ->
  heap st !! r1 = Some obj1 -> heap st !! r2 = Some obj2 ->
  let nx := (dx / distance)%num in
  let ny := (dy / distance)%num in
  let overlap :=
    ((Obj.radius obj1 + Obj.radius obj2 - distance) / ofZ 2)%num in
  let p1 := set_pos (Obj.x obj1 - nx * overlap)%num
                    (Obj.y obj1 - ny * overlap)%num obj1 in
  let p2 := set_pos (Obj.x obj2 + nx * overlap)%num
                    (Obj.y obj2 + ny * overlap)%num obj2 in
  let dvn := ((Obj.vx obj2 - Obj.vx obj1) * nx
              + (Obj.vy obj2 - Obj.vy obj1) * ny)%num in
  let imp := (ofZ 2 * dvn / (Obj.mass obj1 + Obj.mass obj2))%num in
  let st' := handleCollision r1 r2 dx dy distance st in
  (heap st' !! r1 = Some p1 /\ heap st' !! r2 = Some p2) \/
  exists b1 b2,
    heap st' !! r1 =
      Some (set_live b1
              (set_vel (Obj.vx obj1 + imp * Obj.mass obj2 * nx)%num
                       (Obj.vy obj1 + imp * Obj.mass obj2 * ny)%num p1)) /\
    heap st' !! r2 =
      Some (set_live b2
              (set_vel (Obj.vx obj2 - imp * Obj.mass obj1 * nx)%num
                       (Obj.vy obj2 - imp * Obj.mass obj1 * ny)%num p2)).
Proof.
  intros Hne H1 H2. cbv zeta. unfold handleCollision. rewrite H1, H2.
  cbv zeta. simpl Obj.vx. simpl Obj.vy. simpl Obj.mass.
  apply lookup_lt_Some in H1 as Hl1. apply lookup_lt_Some in H2 as Hl2.
  destruct (nltb _ _).
  - left. split.
    + rewrite lookup_store_ne by done. by rewrite lookup_store_eq.
    + rewrite lookup_store_eq; [done|]. unfold store; simpl.
      by rewrite length_insert.
  - right.
    match goal with
    | |- context [store r2 ?o2 (store r1 ?o1 st)] =>
        set (q1 := o1); set (q2 := o2)
    end.
    set (st2 := store r2 q2 (store r1 q1 st)).
    assert (E1 : heap st2 !! r1 = Some q1).
    { subst st2. rewrite lookup_store_ne by done. by rewrite lookup_store_eq. }
    assert (E2 : heap st2 !! r2 = Some q2).
    { subst st2. rewrite lookup_store_eq; [done|]. unfold store; simpl.
      by rewrite length_insert. }
    destruct (handleSpecialCollisions_lookup r1 r2 r1 _ st2 E1) as (b1 & Hb1).
    destruct (handleSpecialCollisions_lookup r1 r2 r2 _ st2 E2) as (b2 & Hb2).
    exists b1, b2. split; [exact Hb1|exact Hb2].
Qed.

End Impulse.

(** ** Exact arithmetic *)

(** C9. One resolution of a pair by [handleCollision], in exact real
    arithmetic: the masses stay, and the total momentum of the two objects
    (mass times velocity, summed, in each coordinate) is the same after as
    before. *)
Theorem collision_conserves_momentum r1 r2 obj1 obj2 dx dy distance
    (st : State R) :
  r1 <> r2 ->
  heap st !! r1 = Some obj1 -> heap st !! r2 = Some obj2 ->
  exists obj1' obj2',
    heap (handleCollision r1 r2 dx dy distance st) !! r1 = Some obj1' /\
    heap (handleCollision r1 r2 dx dy distance st) !! r2 = Some obj2' /\
    Obj.mass obj1' = Obj.mass obj1 /\ Obj.mass obj2' = Obj.mass obj2 /\
    (Obj.mass obj1' * Obj.vx obj1' + Obj.mass obj2' * Obj.vx obj2' =
     Obj.mass obj1 * Obj.vx obj1 + Obj.mass obj2 * Obj.vx obj2)%R /\
    (Obj.mass obj1' * Obj.vy obj1' + Obj.mass obj2' * Obj.vy obj2' =
     Obj.mass obj1 * Obj.vy obj1 + Obj.mass obj2 * Obj.vy obj2)%R.
Proof.
  intros Hne H1 H2.
  destruct (handleCollision_lookup r1 r2 obj1 obj2 dx dy distance st Hne H1 H2)
    as [[E1 E2]|(b1 & b2 & E1 & E2)].
  - eexists. eexists. split; [exact E1|]. split; [exact E2|]. by simpl.
  - eexists. eexists. split; [exact E1|]. split; [exact E2|]. simpl.
    split; [done|]. split; [done|]. split; ring.
Qed.

Lemma collision_conserves_momentum_witness :
  exists obj1' obj2',
    heap (handleCollision 0 1 10%R 0%R 10%R Scenario.headOn) !! 0
      = Some obj1' /\
    heap (handleCollision 0 1 10%R 0%R 10%R Scenario.headOn) !! 1
      = Some obj2' /\
    (3 * Obj.vx obj1' + 6 * Obj.vx obj2' = 3 * 1 + 6 * -1)%R.
Proof.
  destruct (collision_conserves_momentum 0 1
              (Obj.mk BALL_SMALL 0%R 0%R 1%R 0%R 0%R 0%R 8%R 3%R true (-1))
              (Obj.mk BALL_LARGE 10%R 0%R (-1)%R 0%R 0%R 0%R 16%R 6%R true
                      (-1))
              10%R 0%R 10%R Scenario.headOn)
    as (o1 & o2 & E1 & E2 & M1 & M2 & Px & _).
  - lia.
  - reflexivity.
  - reflexivity.
  - exists o1, o2. split; [exact E1|]. split; [exact E2|].
    rewrite M1, M2 in Px. exact Px.
Defined.

Lemma real_ltb_true (a b : R) : RealNum.ltb a b = true <-> (a < b)%R.
Proof. unfold RealNum.ltb. destruct (Rlt_dec a b); split; done. Qed.

Lemma real_ltb_false (a b : R) : RealNum.ltb a b = false <-> (b <= a)%R.
Proof.
  unfold RealNum.ltb. destruct (Rlt_dec a b); split; try done; lra.
Qed.

(** The pull of one live hole on an object, in exact real arithmetic,
    [d] being the distance of the centres.  For [d <= 30] or [d >= 150]
    the hole adds no force.  For [30 < d < 150] the added force has
    magnitude [1000 / d^2] and is a positive multiple of the vector from
    the object to the hole. *)
Lemma gravityFrom_band (hole obj : GameObject R) :
  Obj.live hole = true -> Obj.type hole = HOLE ->
  let dx := (Obj.x hole - Obj.x obj)%R in
  let dy := (Obj.y hole - Obj.y obj)%R in
  let d := sqrt (dx * dx + dy * dy) in
  let Fx := (Obj.fx (gravityFrom hole obj) - Obj.fx obj)%R in
  let Fy := (Obj.fy (gravityFrom hole obj) - Obj.fy obj)%R in
  ((d <= 30 \/ 150 <= d)%R ->
   Fx = 0%R /\ Fy = 0%R /\ gravityFrom hole obj = obj) /\
  ((30 < d < 150)%R ->
   sqrt (Fx * Fx + Fy * Fy) = (1000 / (d * d))%R /\
   exists k, (0 < k)%R /\ Fx = (k * dx)%R /\ Fy = (k * dy)%R).
Proof.
  intros Hlive Hhole dx dy d Fx Fy.
  assert (Hstep : gravityFrom hole obj =
    if RealNum.ltb d 150 && RealNum.ltb 30 d
    then set_force (Obj.fx obj + dx / d * (1000 / (d * d)))%R
                   (Obj.fy obj + dy / d * (1000 / (d * d)))%R obj
    else obj).
  { unfold gravityFrom. rewrite Hlive, Hhole. reflexivity. }
  split.
  - intros Hout.
    assert (E : RealNum.ltb d 150 && RealNum.ltb 30 d = false).
    { destruct Hout as [Hle|Hge].
      - apply real_ltb_false in Hle. rewrite Hle. apply andb_false_r.
      - apply real_ltb_false in Hge. by rewrite Hge. }
    subst Fx Fy. rewrite Hstep, E. repeat split; lra.
  - intros [Hlo Hhi].
    assert (E : RealNum.ltb d 150 && RealNum.ltb 30 d = true).
    { apply andb_true_iff. split; by apply real_ltb_true. }
    assert (Hd : (0 < d)%R) by lra.
    assert (Hdd : (d * d = dx * dx + dy * dy)%R).
    { subst d. apply sqrt_sqrt. nra. }
    subst Fx Fy. rewrite Hstep, E. simpl.
    set (g := (1000 / (d * d))%R).
    assert (Hg : (0 < g)%R).
    { subst g. apply Rdiv_lt_0_compat; [lra|nra]. }
    split.
    + replace ((Obj.fx obj + dx / d * g - Obj.fx obj) *
               (Obj.fx obj + dx / d * g - Obj.fx obj) +
               (Obj.fy obj + dy / d * g - Obj.fy obj) *
               (Obj.fy obj + dy / d * g - Obj.fy obj))%R
        with (g * g)%R.
      * apply sqrt_square. lra.
      * transitivity ((dx * dx + dy * dy) / (d * d) * (g * g))%R.
        -- rewrite <- Hdd. field. lra.
        -- field. lra.
    + exists (g / d)%R. split; [by apply Rdiv_lt_0_compat|].
      split; field; lra.
Qed.

(** ** Gravity and integration *)

Section Gravity.
Context {T : Type} `{JsNum T}.

(** Holes are not pulled. *)
Lemma applyGravity_hole (st : State T) obj :
  Obj.type obj = HOLE -> applyGravity st obj = obj.
Proof. intros E. unfold applyGravity. by rewrite E. Qed.

(** The pull on any other object is the pulls of the entries of
    [this.objects], one after the other. *)
Lemma applyGravity_split (st : State T) obj pre r post hole :
  Obj.type obj <> HOLE ->
  objects st = pre ++ r :: post -> heap st !! r = Some hole ->
  let pull := fun q o => match heap st !! q with
                         | Some hl => gravityFrom hl o
                         | None => o
                         end in
  applyGravity st obj =
  forEach pull post (gravityFrom hole (forEach pull pre obj)).
Proof.
  intros Hk Hobjs Hr pull. unfold applyGravity.
  destruct (isKind (Obj.type obj) HOLE) eqn:E.
  { destruct (Obj.type obj); done. }
  rewrite Hobjs. unfold forEach. rewrite fold_left_app. simpl.
  by rewrite Hr.
Qed.

(** A pull changes the force only. *)
Lemma gravityFrom_force_only hole (obj : GameObject T) :
  exists gx gy, gravityFrom hole obj = set_force gx gy obj.
Proof.
  unfold gravityFrom. destruct (_ || _).
  - exists (Obj.fx obj), (Obj.fy obj). by destruct obj.
  - cbv zeta. destruct (_ && _).
    + by eexists; eexists.
    + exists (Obj.fx obj), (Obj.fy obj). by destruct obj.
Qed.

(** Outside the band, by the engine's own comparisons, a hole pulls
    nothing; this holds on binary64 as on the reals. *)
Lemma gravityFrom_outside hole (obj : GameObject T) :
  let dx := (Obj.x hole - Obj.x obj)%num in
  let dy := (Obj.y hole - Obj.y obj)%num in
  let distance := nsqrt (dx * dx + dy * dy)%num in
  (distance < MAX_GRAVITY_DISTANCE)%num = false \/
  (distance > MIN_GRAVITY_DISTANCE)%num = false ->
  gravityFrom hole obj = obj.
Proof.
  intros dx dy distance Hout. unfold gravityFrom.
  destruct (_ || _); [done|]. cbv zeta. fold dx dy distance.
  destruct Hout as [-> | ->]; by rewrite ?andb_false_r.
Qed.

End Gravity.

(** The velocity [integrate] leaves and moves by: the velocity after
    acceleration and friction, rescaled to the cap of the kind when its
    length is above the cap. *)
Lemma integrate_velocity {T} `{JsNum T} dt (obj : GameObject T) :
  let friction :=
    if isKind (Obj.type obj) ROCKET then lit 98 100 else lit 995 1000 in
  let maxVel := if isKind (Obj.type obj) ROCKET then ofZ 8 else ofZ 6 in
  let wx := ((Obj.vx obj + Obj.fx obj / Obj.mass obj * dt) * friction)%num in
  let wy := ((Obj.vy obj + Obj.fy obj / Obj.mass obj * dt) * friction)%num in
  let vel := nsqrt (wx * wx + wy * wy)%num in
  let ux := if (vel > maxVel)%num then (wx / vel * maxVel)%num else wx in
  let uy := if (vel > maxVel)%num then (wy / vel * maxVel)%num else wy in
  integrate dt obj =
    set_pos (Obj.x obj + ux)%num (Obj.y obj + uy)%num (set_vel ux uy obj) /\
  Obj.vx (integrate dt obj) = ux /\ Obj.vy (integrate dt obj) = uy.
Proof.
  unfold integrate. cbv zeta. simpl. by destruct (nltb _ _).
Qed.

(** X14. In exact arithmetic the speed after [integrate] is never above
    the cap of the kind (8 for a rocket, 6 otherwise), whatever the
    velocity, the force and the time step were. *)
Lemma integrate_speed_capped dt (obj : GameObject R) :
  (sqrt (Obj.vx (integrate dt obj) * Obj.vx (integrate dt obj)
         + Obj.vy (integrate dt obj) * Obj.vy (integrate dt obj))
   <= if isKind (Obj.type obj) ROCKET then 8 else 6)%R.
Proof.
  pose proof (integrate_velocity dt obj) as Hv. cbv zeta in Hv.
  destruct Hv as (_ & -> & ->).
  set (friction := if isKind (Obj.type obj) ROCKET then lit 98 100
                   else lit 995 1000).
  set (maxVel := if isKind (Obj.type obj) ROCKET then ofZ 8 else ofZ 6).
  set (wx := ((Obj.vx obj + Obj.fx obj / Obj.mass obj * dt) * friction)%num).
  set (wy := ((Obj.vy obj + Obj.fy obj / Obj.mass obj * dt) * friction)%num).
  assert (Hmax : maxVel = if isKind (Obj.type obj) ROCKET then 8%R else 6%R).
  { subst maxVel. by destruct (isKind _ _). }
  assert (Hpos : (0 < maxVel)%R).
  { rewrite Hmax. destruct (isKind _ _); lra. }
  rewrite <- Hmax. clearbody wx wy maxVel. clear friction.
  cbv [nadd nsub nmul ndiv nsqrt nltb RealNum.real_num].
  set (vel := sqrt (wx * wx + wy * wy)).
  assert (Hvv : (vel * vel = wx * wx + wy * wy)%R).
  { subst vel. apply sqrt_sqrt. nra. }
  destruct (RealNum.ltb maxVel vel) eqn:E; simpl.
  - apply real_ltb_true in E.
    replace (wx / vel * maxVel * (wx / vel * maxVel) +
             wy / vel * maxVel * (wy / vel * maxVel))%R
      with (maxVel * maxVel)%R.
    + rewrite sqrt_square; lra.
    + transitivity ((wx * wx + wy * wy) / (vel * vel) * (maxVel * maxVel))%R.
      * rewrite <- Hvv. field. lra.
      * field. lra.
  - apply real_ltb_false in E. exact E.
Qed.

(** ** The life of an object within a frame *)

Section Lifecycle.
Context {T : Type} `{JsNum T}.

(** *** Dead objects stay dead during a frame *)

Lemma noRevival_refl (st : State T) : noRevival st st.
Proof. by intros q. Qed.

Lemma noRevival_trans (st1 st2 st3 : State T) :
  noRevival st1 st2 -> noRevival st2 st3 -> noRevival st1 st3.
Proof. intros H12 H23 q Hq. by apply H23, H12. Qed.

Lemma noRevival_heap (st st' : State T) :
  heap st' = heap st -> noRevival st st'.
Proof. intros E q Hq. by rewrite (isLive_heap st st' q E). Qed.

Lemma noRevival_store r o o' (st : State T) :
  heap st !! r = Some o -> (Obj.live o' = true -> Obj.live o = true) ->
  noRevival st (store r o' st).
Proof.
  intros Hr Hl q Hq. destruct (decide (r = q)) as [<-|Hne].
  - rewrite isLive_store_eq; [|by eapply lookup_lt_Some].
    unfold isLive in Hq. rewrite Hr in Hq.
    destruct (Obj.live o'); [|done]. by rewrite Hl in Hq.
  - by rewrite isLive_store_ne.
Qed.

Lemma noRevival_forEach {A} (f : A -> State T -> State T) l :
  (forall a s, noRevival s (f a s)) -> forall s, noRevival s (forEach f l s).
Proof.
  intros Hf. unfold forEach.
  induction l as [|a l IH]; intros s; simpl; [apply noRevival_refl|].
  eapply noRevival_trans; [apply Hf|apply IH].
Qed.

Lemma noRevival_forEachFrom {A} (f : A -> nat -> State T -> State T) l :
  (forall a i s, noRevival s (f a i s)) ->
  forall i s, noRevival s (forEachFrom f i l s).
Proof.
  intros Hf.
  induction l as [|a l IH]; intros i s; simpl; [apply noRevival_refl|].
  eapply noRevival_trans; [apply Hf|apply IH].
Qed.

Lemma steer_live c (rocket : GameObject T) :
  Obj.live (steer c rocket) = Obj.live rocket.
Proof. destruct c as [[] [] [] [] []]; reflexivity. Qed.

Lemma noRevival_processInput h (st : State T) :
  noRevival st (processInput h st).
Proof.
  apply noRevival_forEachFrom. intros r i s.
  destruct (heap s !! r) as [rocket|] eqn:E; [|apply noRevival_refl].
  destruct (negb _); [apply noRevival_refl|].
  eapply noRevival_store; [exact E|]. by rewrite steer_live.
Qed.

(** Gravity and integration leave the kind, the radius and the [live] flag
    of an object. *)
Lemma applyGravity_force_only (st : State T) obj :
  exists gx gy, applyGravity st obj = set_force gx gy obj.
Proof.
  assert (Hid : exists gx gy, obj = set_force gx gy obj).
  { exists (Obj.fx obj), (Obj.fy obj). by destruct obj. }
  unfold applyGravity. destruct (isKind _ _); [done|].
  unfold forEach. revert Hid. generalize obj at 1 3 as o.
  induction (objects st) as [|r l IH]; intros o Ho; simpl; [done|].
  apply IH. destruct (heap st !! r) as [hole|]; [|done].
  destruct Ho as (gx & gy & ->).
  destruct (gravityFrom_force_only hole (set_force gx gy obj))
    as (gx' & gy' & ->).
  by exists gx', gy'.
Qed.

Lemma integrate_keeps dt (obj : GameObject T) :
  Obj.type (integrate dt obj) = Obj.type obj /\
  Obj.radius (integrate dt obj) = Obj.radius obj /\
  Obj.live (integrate dt obj) = Obj.live obj.
Proof. unfold integrate. cbv zeta. simpl. by destruct (nltb _ _). Qed.

Lemma moved_keeps (st : State T) obj :
  Obj.type (integrate (deltaTime st) (applyGravity st obj)) = Obj.type obj /\
  Obj.radius (integrate (deltaTime st) (applyGravity st obj))
    = Obj.radius obj /\
  Obj.live (integrate (deltaTime st) (applyGravity st obj)) = Obj.live obj.
Proof.
  destruct (integrate_keeps (deltaTime st) (applyGravity st obj))
    as (-> & -> & ->).
  destruct (applyGravity_force_only st obj) as (gx & gy & ->). done.
Qed.

Lemma noRevival_keepInBounds h r (st : State T) :
  noRevival st (keepInBounds h r st).
Proof.
  unfold keepInBounds.
  destruct (heap st !! r) as [obj|] eqn:E; [|apply noRevival_refl].
  cbv zeta. destruct (_ || _ || _ || _); [|apply noRevival_refl].
  destruct (isKind (Obj.type obj) HOLE); [apply noRevival_refl|].
  eapply noRevival_trans;
    [apply (noRevival_store r obj (set_live false obj)); [exact E|done]|].
  apply noRevival_heap.
  destruct (Obj.type obj); cbv [isKind kindCode Z.eqb Pos.eqb];
    change (heap (createExplosion ?a ?b ?c (playSound ?s ?x)))
      with (heap x);
    by rewrite ?heap_checkExtraLife.
Qed.

Lemma noRevival_physicsStep h r (st : State T) :
  noRevival st (physicsStep h r st).
Proof.
  unfold physicsStep.
  destruct (heap st !! r) as [obj|] eqn:E; [|apply noRevival_refl].
  destruct (negb _); [apply noRevival_refl|].
  eapply noRevival_trans; [|apply noRevival_keepInBounds].
  eapply noRevival_store; [exact E|].
  by destruct (moved_keeps st obj) as (_ & _ & ->).
Qed.

Lemma noRevival_handleSpecialCollisions r1 r2 (st : State T) :
  noRevival st (handleSpecialCollisions r1 r2 st).
Proof.
  unfold handleSpecialCollisions.
  destruct (heap st !! r1) as [obj1|] eqn:E1; [|apply noRevival_refl].
  destruct (heap st !! r2) as [obj2|] eqn:E2; [|apply noRevival_refl].
  assert (Hkill : forall rb ball (s : State T),
            heap st !! rb = Some ball ->
            heap s = heap (store rb (set_live false ball) st) ->
            noRevival st s).
  { intros rb ball s Hb Hs.
    eapply noRevival_trans; [|by apply noRevival_heap].
    by apply (noRevival_store rb ball). }
  destruct (_ || _).
  - destruct (isBall (Obj.type obj1)).
    + apply (Hkill r1 obj1); [done|].
      destruct (Obj.type obj1); by rewrite heap_playSound, heap_checkExtraLife.
    + apply (Hkill r2 obj2); [done|].
      destruct (Obj.type obj2); by rewrite heap_playSound, heap_checkExtraLife.
  - destruct (_ || _); [|apply noRevival_refl].
    destruct (isKind (Obj.type obj1) ROCKET).
    + by apply (Hkill r1 obj1).
    + by apply (Hkill r2 obj2).
Qed.

Lemma noRevival_handleCollision r1 r2 dx dy distance (st : State T) :
  noRevival st (handleCollision r1 r2 dx dy distance st).
Proof.
  unfold handleCollision.
  destruct (heap st !! r1) as [obj1|] eqn:E1; [|apply noRevival_refl].
  destruct (heap st !! r2) as [obj2|] eqn:E2; [|apply noRevival_refl].
  cbv zeta.
  assert (Hst : forall o1 o2,
            Obj.live o1 = Obj.live obj1 -> Obj.live o2 = Obj.live obj2 ->
            noRevival st (store r2 o2 (store r1 o1 st))).
  { intros o1 o2 H1 H2.
    eapply noRevival_trans.
    - apply (noRevival_store r1 obj1 o1); [done|congruence].
    - destruct (decide (r1 = r2)) as [<-|Hne].
      + apply (noRevival_store r1 o1 o2); [|congruence].
        apply lookup_store_eq. by eapply lookup_lt_Some.
      + apply (noRevival_store r2 obj2 o2); [|congruence].
        by rewrite lookup_store_ne. }
  destruct (nltb _ _); [by apply Hst|].
  eapply noRevival_trans; [|apply noRevival_heap, heap_playSound].
  eapply noRevival_trans; [|apply noRevival_handleSpecialCollisions].
  by apply Hst.
Qed.

Lemma noRevival_collidePair r1 r2 (st : State T) :
  noRevival st (collidePair r1 r2 st).
Proof.
  unfold collidePair.
  destruct (heap st !! r1) as [obj1|]; [|apply noRevival_refl].
  destruct (heap st !! r2) as [obj2|]; [|apply noRevival_refl].
  destruct (_ || _); [apply noRevival_refl|].
  cbv zeta. destruct (nltb _ _); [|apply noRevival_refl].
  apply noRevival_handleCollision.
Qed.

Lemma noRevival_checkCollisions (st : State T) :
  noRevival st (checkCollisions st).
Proof.
  unfold checkCollisions. generalize (objects st) as l. intros l. revert st.
  induction l as [|r1 rest IH]; intros st; simpl; [apply noRevival_refl|].
  eapply noRevival_trans; [|apply IH].
  apply noRevival_forEach. intros. apply noRevival_collidePair.
Qed.

Lemma noRevival_updatePhysics h (st : State T) :
  noRevival st (updatePhysics h st).
Proof. apply noRevival_forEach. intros. apply noRevival_physicsStep. Qed.

(** Nothing dead at the start of a frame is live before the rules
    check. *)
Lemma noRevival_simulate h delta (st : State T) :
  noRevival st (simulate h delta st).
Proof.
  unfold simulate, updateObjects.
  eapply noRevival_trans; [|by apply noRevival_heap].
  eapply noRevival_trans; [|apply noRevival_checkCollisions].
  eapply noRevival_trans; [|apply noRevival_updatePhysics].
  eapply noRevival_trans; [|apply noRevival_processInput].
  by apply noRevival_heap.
Qed.

(** The bounds check marks the object dead when it touches a wall and is
    not a hole. *)
Lemma keepInBounds_dead h r obj (st : State T) :
  heap st !! r = Some obj -> Obj.type obj <> HOLE ->
  (Obj.x obj < Obj.radius obj)%num
  || (Obj.x obj > screenWidth h - Obj.radius obj)%num
  || (Obj.y obj < Obj.radius obj)%num
  || (Obj.y obj > screenHeight h - Obj.radius obj)%num = true ->
  isLive (keepInBounds h r st) r = false.
Proof.
  intros E Hk Hhit. unfold keepInBounds. rewrite E. cbv zeta. rewrite Hhit.
  apply lookup_lt_Some in E.
  destruct (Obj.type obj); try done; cbv [isKind kindCode Z.eqb Pos.eqb];
    change (isLive (createExplosion ?a ?b ?c (playSound ?s ?x)) r)
      with (isLive x r);
    rewrite ?isLive_checkExtraLife; by apply isLive_store_eq.
Qed.

(** X16. A live object that is not a hole and that the physics pass moves
    to within one radius of a screen edge is dead when the collision pass
    of the same frame is over: the pass reaches it after the objects [pre],
    integrates it to [moved], and the bounds check kills it for good. *)
Lemma wall_death_in_frame h pre r post obj (st : State T) :
  objects st = pre ++ r :: post ->
  let s1 := forEach (physicsStep h) pre st in
  let moved := integrate (deltaTime s1) (applyGravity s1 obj) in
  heap s1 !! r = Some obj -> Obj.live obj = true -> Obj.type obj <> HOLE ->
  (Obj.x moved < Obj.radius obj)%num
  || (Obj.x moved > screenWidth h - Obj.radius obj)%num
  || (Obj.y moved < Obj.radius obj)%num
  || (Obj.y moved > screenHeight h - Obj.radius obj)%num = true ->
  isLive (checkCollisions (updatePhysics h st)) r = false.
Proof.
  intros Hobjs s1 moved E Hl Hk Hhit.
  apply noRevival_checkCollisions.
  unfold updatePhysics. rewrite Hobjs. unfold forEach.
  rewrite fold_left_app. simpl. fold (forEach (physicsStep h) pre st).
  fold s1.
  apply (noRevival_forEach (physicsStep h) post
           (fun a s => noRevival_physicsStep h a s)).
  rewrite (physicsStep_bounds h r obj s1 E Hl). fold moved.
  destruct (moved_keeps s1 obj) as (Ht & Hr & _). fold moved in Ht, Hr.
  apply (keepInBounds_dead h r moved).
  - apply lookup_store_eq. by eapply lookup_lt_Some.
  - by rewrite Ht.
  - by rewrite Hr.
Qed.

End Lifecycle.

(** ** From frame to frame *)

Section Threshold.
Context {T : Type} `{JsNum T}.

(** *** The threshold stays ahead of the score *)

Lemma awards_keep_ahead ps : forall t,
  Forall (fun p => 0 <= p <= 20)%Z ps ->
  (t_score t < t_next t)%Z ->
  (t_score (awards ps t) < t_next (awards ps t))%Z.
Proof.
  induction ps as [|p ps IH]; intros t Hps Hlt; [done|].
  inversion Hps as [|? ? Hp Hps']; subst. rewrite awards_cons.
  apply (IH _ Hps'). unfold award.
  destruct (t_score t + p >=? t_next t)%Z eqn:E; simpl; lia.
Qed.

(** X17. A frame that starts with the score below the threshold ends so:
    at the start of every frame of a game the next life is still to be
    earned. *)
Lemma gameLoop_keeps_ahead h delta (st st' : State T) :
  gameLoop h delta st = Some st' ->
  (score st < nextLifeAt st)%Z -> (score st' < nextLifeAt st')%Z.
Proof.
  intros Hloop Hlt. destruct (gameState st) eqn:Eg.
  1,3: unfold gameLoop in Hloop; rewrite Eg in Hloop;
       by inversion Hloop; subst.
  rewrite (gameLoop_simulate h delta st Eg) in Hloop.
  destruct (checkGameState h (simulate h delta st)) as [st1|] eqn:E1;
    simpl in Hloop; [|done].
  inversion Hloop; subst st'; clear Hloop. simpl.
  destruct (checkGameState_keeps h _ _ E1) as (-> & -> & _).
  destruct (scored_simulate h delta st) as (ps & Hps & Et).
  pose proof (awards_keep_ahead ps (tally st) Hps Hlt) as Hk.
  by rewrite <- Et in Hk.
Qed.

Lemma startGame_ahead h n lv (st st' : State T) :
  startGame h n lv st = Some st' ->
  score st' = 0%Z /\ nextLifeAt st' = 500%Z /\ lives st' = 3%Z /\
  gameState st' = Running.
Proof.
  unfold startGame. cbv zeta.
  destruct (initLevel h _) as [st1|] eqn:E; simpl; [|done].
  intros [= <-]. simpl.
  by apply sameRules_initLevel in E as (_ & _ & -> & -> & -> & _).
Qed.

End Threshold.

(** ** Starting a game *)

Section Starting.
Context {T : Type} `{JsNum T}.

(** *** A sixth player *)

Lemma forRange_none {St} (f : nat -> St -> option St) k n :
  (forall s, f k s = None) ->
  forall i s, i <= k < i + n -> forRange f i n s = None.
Proof.
  intros Hk. induction n as [|n IH]; intros i s Hi; [lia|]. simpl.
  destruct (decide (i = k)) as [->|Hne]; [by rewrite Hk|].
  destruct (f i s) as [t|]; simpl; [|done]. apply IH. lia.
Qed.

Lemma createRockets_none h (st : State T) :
  5 < playerCount st -> createRockets h st = None.
Proof.
  intros Hn. unfold createRockets.
  apply (forRange_none (createRocket h) 5); [done|lia].
Qed.

(** *** The size of a level *)

Lemma length_objects_iter (f : State T -> State T) k n (st : State T) :
  (forall s, length (objects (f s)) = length (objects s) + k) ->
  length (objects (Nat.iter n f st)) = length (objects st) + n * k.
Proof.
  intros Hf. induction n as [|n IH]; simpl; [lia|]. rewrite Hf, IH. lia.
Qed.

Lemma length_objects_createRocket h i (st st' : State T) :
  createRocket h i st = Some st' ->
  length (objects st') = length (objects st) + 1.
Proof.
  unfold createRocket. destruct (rocketPositions h !! i); simpl; [|done].
  intros [= <-]. simpl. by rewrite length_app.
Qed.

Lemma length_objects_createRockets h (st st' : State T) :
  createRockets h st = Some st' ->
  length (objects st') = length (objects st) + playerCount st.
Proof.
  unfold createRockets. generalize (playerCount st) as n. intros n.
  generalize 0 as i. revert st.
  induction n as [|n IH]; intros st i E; simpl in E.
  - inversion E; subst. lia.
  - destruct (createRocket h i st) as [t|] eqn:Et; simpl in E; [|done].
    rewrite (IH _ _ E), (length_objects_createRocket h i st t Et). lia.
Qed.

Lemma length_objects_createBall h (st : State T) :
  length (objects (createBall h st)) = length (objects st) + 1.
Proof. unfold createBall. simpl. by rewrite length_app. Qed.

Lemma length_objects_createHole h (st : State T) :
  length (objects (createHole h st)) = length (objects st) + 1.
Proof. unfold createHole. simpl. by rewrite length_app. Qed.

Lemma length_objects_createBigBall h (st : State T) :
  length (objects (createBigBall h st)) = length (objects st) + 1.
Proof. unfold createBigBall. simpl. by rewrite length_app. Qed.

Lemma length_objects_createSpecialObjects h (st : State T) :
  length (objects (createSpecialObjects h st)) =
  length (objects st) + Z.to_nat (Z.min (level st - 2) 3)
  + Z.to_nat (Z.min (level st - 3) 2).
Proof.
  unfold createSpecialObjects.
  set (st1 := if (level st >? 2)%Z then _ else st).
  assert (Hlv : level st1 = level st).
  { subst st1. destruct (_ >? 2)%Z; [|done].
    apply (spawns_iter 0 0), spawns_createHole. }
  assert (H1 : length (objects st1) =
               length (objects st) + Z.to_nat (Z.min (level st - 2) 3)).
  { subst st1. destruct (level st >? 2)%Z eqn:E.
    - rewrite (length_objects_iter (createHole h) 1);
        [lia|apply length_objects_createHole].
    - lia. }
  rewrite Hlv. destruct (level st >? 3)%Z eqn:E.
  - rewrite (length_objects_iter (createBigBall h) 1);
      [lia|apply length_objects_createBigBall].
  - lia.
Qed.

Lemma length_objects_initLevel h (st st' : State T) :
  initLevel h st = Some st' ->
  length (objects st') =
  length (objects st) + playerCount st
  + Z.to_nat (Z.min (8 + level st) 15)
  + Z.to_nat (Z.min (level st - 2) 3) + Z.to_nat (Z.min (level st - 3) 2).
Proof.
  unfold initLevel. destruct (createRockets h st) as [st1|] eqn:E1; [|done].
  simpl. intros [= <-].
  assert (Hlv1 : level st1 = level st).
  { destruct (spawns_createRockets h st) as (st1' & E1' & Hs & _).
    - destruct (le_lt_dec (playerCount st) 5) as [Hle|Hgt]; [done|].
      by rewrite (createRockets_none h st Hgt) in E1.
    - rewrite E1 in E1'. inversion E1'; subst. apply Hs. }
  set (st2 := createBalls h st1).
  assert (Hlv2 : level st2 = level st).
  { rewrite <- Hlv1. apply (spawns_createBalls h st1). }
  assert (H2 : length (objects st2) =
               length (objects st1) + Z.to_nat (Z.min (8 + level st) 15)).
  { subst st2. unfold createBalls. rewrite Hlv1.
    rewrite (length_objects_iter (createBall h) 1);
      [lia|apply length_objects_createBall]. }
  rewrite (length_objects_createRockets h st st1 E1) in H2.
  rewrite Hlv2. destruct (level st >? 1)%Z eqn:E.
  - rewrite length_objects_createSpecialObjects, Hlv2. lia.
  - lia.
Qed.

(** X1. [startGame] throws exactly when more than five players are asked
    for: [createRockets] has five start positions, and reading the sixth
    fails.  (No players at all count as one.) *)
Theorem startGame_throws_iff h n lv (st : State T) :
  startGame h n lv st = None <-> 5 < n.
Proof.
  unfold startGame. cbv zeta.
  set (st0 := clearGame _).
  assert (Hp : playerCount st0 = if (n =? 0)%nat then 1 else n) by done.
  split.
  - intros E. destruct (le_lt_dec n 5) as [Hle|Hgt]; [|done].
    destruct (spawns_initLevel h st0) as (st1 & E1 & _).
    { rewrite Hp. destruct (n =? 0)%nat; lia. }
    by rewrite E1 in E.
  - intros Hn. unfold initLevel. rewrite createRockets_none; [done|].
    rewrite Hp. destruct (n =? 0)%nat eqn:E0; [|done].
    apply Nat.eqb_eq in E0. lia.
Qed.

(** X2. With at most five players [startGame] returns, and leaves a
    running game with no score, three lives and the first threshold; the
    level and the number of players are those asked for (1 where the
    configuration has none); there is one rocket per player and
    [min (8 + level) 15] balls; [this.objects] holds these together with
    [min (level - 2) 3] holes from level 3 on and [min (level - 3) 2] big
    balls from level 4 on; every object is live; and [gameStarted] is the
    one notification sent. *)
Theorem startGame_spawns_level h n lv (st : State T) :
  n <= 5 ->
  exists st', startGame h n lv st = Some st' /\
    gameState st' = Running /\ score st' = 0%Z /\ lives st' = 3%Z /\
    nextLifeAt st' = 500%Z /\
    level st' = (if (lv =? 0)%Z then 1%Z else lv) /\
    playerCount st' = (if (n =? 0)%nat then 1 else n) /\
    length (rockets st') = playerCount st' /\
    length (balls st') = Z.to_nat (Z.min (8 + level st') 15) /\
    length (objects st') =
      playerCount st' + Z.to_nat (Z.min (8 + level st') 15)
      + Z.to_nat (Z.min (level st' - 2) 3)
      + Z.to_nat (Z.min (level st' - 3) 2) /\
    allLive st' /\
    out st' = out st ++ [Emit (gameStarted (level st') (playerCount st'))].
Proof.
  intros Hn. unfold startGame. cbv zeta.
  set (st0 := clearGame _).
  assert (Hp : playerCount st0 = if (n =? 0)%nat then 1 else n) by done.
  assert (Hl : level st0 = if (lv =? 0)%Z then 1%Z else lv) by done.
  destruct (spawns_initLevel h st0)
    as (st1 & E1 & (Hg & Hlv & Hs & Hv & Hx & Hpc & Ho) & Hr & Hb & Hlive).
  { rewrite Hp. destruct (n =? 0)%nat; lia. }
  pose proof (length_objects_initLevel h st0 st1 E1) as Hobj.
  rewrite E1. simpl. eexists. split; [reflexivity|]. simpl.
  rewrite Hlv, Hpc, Hl, Hp, Ho, Hs, Hv, Hx.
  rewrite Hl, Hp in Hobj. rewrite Hl in Hb. rewrite Hp in Hr.
  simpl in Hobj, Hb, Hr.
  repeat split; try done; try lia.
  - by apply (Hlive (allLive_clearGame _)).
  - by apply (Hlive (allLive_clearGame _)).
Qed.

End Starting.

Lemma startGame_spawns_level_witness :
  exists st', startGame Scenario.host 2 4 initialState = Some st' /\
    length (rockets st') = 2 /\ length (balls st') = 12 /\
    length (objects st') = 17.
Proof.
  destruct (startGame_spawns_level Scenario.host 2 4 initialState)
    as (st' & E & _ & _ & _ & _ & Hl & Hp & Hr & Hb & Ho & _); [lia|].
  exists st'. split; [exact E|].
  rewrite Hp in Hr. rewrite Hl in Hb. rewrite Hl, Hp in Ho.
  split; [exact Hr|]. split; [exact Hb|exact Ho].
Defined.

(** ** Where the rockets start *)

Section SpawnPositions.
Context {T : Type} `{JsNum T}.

(** *** Spawning only adds to the heap *)

Lemma prefix_createGameObject ty cx cy cvx cvy cp (st : State T) :
  heap st `prefix_of` heap (snd (createGameObject ty cx cy cvx cvy cp st)).
Proof. simpl. by apply prefix_app_r. Qed.

Lemma prefix_createRocket h i (st st' : State T) :
  createRocket h i st = Some st' -> heap st `prefix_of` heap st'.
Proof.
  unfold createRocket. destruct (rocketPositions h !! i); simpl; [|done].
  intros [= <-]. simpl. by apply prefix_app_r.
Qed.

Lemma prefix_createRockets h (st st' : State T) :
  createRockets h st = Some st' -> heap st `prefix_of` heap st'.
Proof.
  intros E.
  eapply (forRange_some (fun s => heap st `prefix_of` heap s)); [|exact E|done].
  intros j t t' Et Ht. etrans; [exact Ht|]. by eapply prefix_createRocket.
Qed.

Lemma keeps_iter (f : State T -> State T) n (st : State T) :
  (forall s, rockets (f s) = rockets s /\ heap s `prefix_of` heap (f s)) ->
  rockets (Nat.iter n f st) = rockets st /\
  heap st `prefix_of` heap (Nat.iter n f st).
Proof.
  intros Hf. induction n as [|n [IHr IHp]]; simpl; [done|].
  destruct (Hf (Nat.iter n f st)) as [Hr Hp].
  split; [congruence|by etrans].
Qed.

Lemma keeps_createBall h (st : State T) :
  rockets (createBall h st) = rockets st /\
  heap st `prefix_of` heap (createBall h st).
Proof. split; [done|]. simpl. by apply prefix_app_r. Qed.

Lemma keeps_createHole h (st : State T) :
  rockets (createHole h st) = rockets st /\
  heap st `prefix_of` heap (createHole h st).
Proof. split; [done|]. simpl. by apply prefix_app_r. Qed.

Lemma keeps_createBigBall h (st : State T) :
  rockets (createBigBall h st) = rockets st /\
  heap st `prefix_of` heap (createBigBall h st).
Proof. split; [done|]. simpl. by apply prefix_app_r. Qed.

Lemma keeps_createSpecialObjects h (st : State T) :
  rockets (createSpecialObjects h st) = rockets st /\
  heap st `prefix_of` heap (createSpecialObjects h st).
Proof.
  unfold createSpecialObjects.
  set (st1 := if (level st >? 2)%Z then _ else st).
  assert (H1 : rockets st1 = rockets st /\ heap st `prefix_of` heap st1).
  { subst st1. destruct (_ >? 2)%Z; [|done].
    apply keeps_iter, keeps_createHole. }
  destruct H1 as [Hr Hp]. destruct (level st1 >? 3)%Z; [|done].
  destruct (keeps_iter (createBigBall h) (Z.to_nat (Z.min (level st1 - 3) 2))
              st1 (keeps_createBigBall h)) as [Hr' Hp'].
  split; [congruence|by etrans].
Qed.

(** After the rockets, [initLevel] leaves [this.rockets] alone and only
    adds objects. *)
Lemma keeps_after_rockets h (st : State T) :
  let st1 := createBalls h st in
  let st2 := if (level st1 >? 1)%Z then createSpecialObjects h st1 else st1 in
  rockets st2 = rockets st /\ heap st `prefix_of` heap st2.
Proof.
  cbv zeta.
  destruct (keeps_iter (createBall h) (Z.to_nat (Z.min (8 + level st) 15)) st
              (keeps_createBall h)) as [Hr Hp].
  fold (createBalls h st) in Hr, Hp.
  destruct (_ >? 1)%Z; [|done].
  destruct (keeps_createSpecialObjects h (createBalls h st)) as [Hr' Hp'].
  split; [congruence|by etrans].
Qed.

Lemma prefix_initLevel h (st st' : State T) :
  initLevel h st = Some st' -> heap st `prefix_of` heap st'.
Proof.
  unfold initLevel. destruct (createRockets h st) as [st1|] eqn:E1; [|done].
  simpl. intros [= <-]. etrans; [by eapply prefix_createRockets|].
  apply (keeps_after_rockets h st1).
Qed.

(** *** Without a hole every position is safe *)

Lemma safe_without_holes px py (st : State T) :
  Forall (fun r => forall o, heap st !! r = Some o -> Obj.type o <> HOLE)
         (objects st) ->
  isPositionSafeFromGravity px py st = true.
Proof.
  unfold isPositionSafeFromGravity.
  induction 1 as [|r l Hr _ IH]; simpl; [done|]. rewrite IH, andb_true_r.
  destruct (heap st !! r) as [o|]; [|done].
  specialize (Hr o eq_refl). by destruct (Obj.type o).
Qed.

(** *** The loop of [createRockets] *)

Lemma forRange_some_ix {St} (P : nat -> St -> Prop)
    (f : nat -> St -> option St) n :
  (forall j t t', f j t = Some t' -> P j t -> P (S j) t') ->
  forall i s s', forRange f i n s = Some s' -> P i s -> P (i + n) s'.
Proof.
  intros Hf. induction n as [|n IH]; intros i s s' E HP; simpl in E.
  - inversion E; subst. by rewrite Nat.add_0_r.
  - destruct (f i s) as [t|] eqn:Et; simpl in E; [|done].
    replace (i + S n) with (S i + n) by lia.
    eapply IH; [exact E|]. by eapply Hf.
Qed.

(** The rocket of player [i] as [createRockets] builds it at [p]. *)
Local Abbreviation rocketOf i p :=
  (Obj.mk ROCKET (orZero (fst p)) (orZero (snd p)) (ofZ 0) (ofZ 0) (ofZ 0)
          (ofZ 0) (ofZ 14) (ofZ 4) true
          (match i%nat with S _ => Z.of_nat i%nat | O => (-1)%Z end)).

Lemma createRocket_preferred h j (t t' : State T) :
  createRocket h j t = Some t' ->
  Forall (fun r => forall o, heap t !! r = Some o -> Obj.type o <> HOLE)
         (objects t) ->
  exists p, rocketPositions h !! j = Some p /\
    heap t' = heap t ++ [rocketOf j p] /\
    objects t' = objects t ++ [length (heap t)] /\
    rockets t' = rockets t ++ [length (heap t)].
Proof.
  intros E Hno. unfold createRocket in E.
  destruct (rocketPositions h !! j) as [p|]; simpl in E; [|done].
  exists p. split; [done|].
  unfold findSafeSpawnPosition in E.
  rewrite (safe_without_holes _ _ t Hno) in E.
  inversion E; subst; clear E. simpl. by destruct j.
Qed.

Lemma createRockets_preferred h (st st' : State T) :
  objects st = [] -> rockets st = [] ->
  createRockets h st = Some st' ->
  forall i r, rockets st' !! i = Some r ->
  exists p, rocketPositions h !! i = Some p /\
            heap st' !! r = Some (rocketOf i p).
Proof.
  intros Hobj Hrk E.
  pose (P := fun (j : nat) (s : State T) =>
    Forall (fun r => forall o, heap s !! r = Some o -> Obj.type o <> HOLE)
           (objects s) /\
    length (rockets s) = j /\
    forall i r, rockets s !! i = Some r ->
      exists p, rocketPositions h !! i = Some p /\
                heap s !! r = Some (rocketOf i p)).
  assert (HP : P (0 + playerCount st) st').
  { apply (forRange_some_ix P (createRocket h) (playerCount st)) with (s := st);
      [|exact E|].
    - intros j t t' Et (Hno & Hlen & Hall).
      destruct (createRocket_preferred h j t t' Et Hno)
        as (p & Hp & Hh & Ho & Hr).
      split; [|split].
      + rewrite Ho, Hh. apply Forall_app. split.
        * eapply Forall_impl; [exact Hno|]. intros r Hr0 o Hlk.
          apply lookup_app_Some in Hlk as [Hlk|[_ Hlk]]; [by apply Hr0|].
          apply list_lookup_singleton_Some in Hlk as [_ <-]. done.
        * repeat constructor. intros o Hlk.
          rewrite list_lookup_middle in Hlk by done. by inversion Hlk.
      + rewrite Hr, length_app. simpl. lia.
      + intros i r Hi. rewrite Hr in Hi.
        apply lookup_app_Some in Hi as [Hi|[Hge Hi]].
        * destruct (Hall i r Hi) as (q & Hq & Hlk). exists q.
          split; [done|]. rewrite Hh. by apply lookup_app_l_Some.
        * apply list_lookup_singleton_Some in Hi as [Hi <-].
          assert (i = j) as -> by lia. exists p. split; [done|].
          rewrite Hh. by apply list_lookup_middle.
    - split; [by rewrite Hobj|]. split; [by rewrite Hrk|].
      intros i r. by rewrite Hrk. }
  apply HP.
Qed.

(** X3. The rockets always start at the fixed positions of
    [createRockets], at rest: [startGame] and [restartLevel] empty
    [this.objects] before they spawn, and the rockets are spawned before
    any hole, so [findSafeSpawnPosition] finds every preferred position
    safe and its search never runs. *)
Theorem rockets_start_at_preferred h n lv (st st' : State T) :
  startGame h n lv st = Some st' \/ restartLevel h st = Some st' ->
  forall i r, rockets st' !! i = Some r ->
  exists p, rocketPositions h !! i = Some p /\
    heap st' !! r =
      Some (Obj.mk ROCKET (orZero (fst p)) (orZero (snd p)) (ofZ 0) (ofZ 0)
              (ofZ 0) (ofZ 0) (ofZ 14) (ofZ 4) true
              (match i with S _ => Z.of_nat i | O => (-1)%Z end)).
Proof.
  assert (Hinit : forall s s' : State T,
            initLevel h (clearGame s) = Some s' ->
            forall i r, rockets s' !! i = Some r ->
            exists p, rocketPositions h !! i = Some p /\
                      heap s' !! r = Some (rocketOf i p)).
  { intros s s' E i r Hi. unfold initLevel in E.
    destruct (createRockets h (clearGame s)) as [s1|] eqn:E1; [|done].
    simpl in E. inversion E; subst s'; clear E.
    destruct (keeps_after_rockets h s1) as [Hr Hp]. cbv zeta in Hr, Hp.
    rewrite Hr in Hi.
    destruct (createRockets_preferred h (clearGame s) s1 eq_refl eq_refl E1
                i r Hi) as (p & Hpos & Hlk).
    exists p. split; [done|]. by eapply prefix_lookup_Some. }
  intros [E|E] i r Hi.
  - unfold startGame in E. cbv zeta in E.
    match type of E with
    | context [initLevel h (clearGame ?s)] =>
        destruct (initLevel h (clearGame s)) as [s1|] eqn:E1; [|done]
    end.
    simpl in E. inversion E; subst st'; clear E.
    by apply (Hinit _ _ E1).
  - unfold restartLevel in E.
    destruct (initLevel h (clearGame st)) as [s1|] eqn:E1; [|done].
    simpl in E. inversion E; subst st'; clear E.
    by apply (Hinit _ _ E1).
Qed.

(** X4. What [findSafeSpawnPosition] returns: the preferred position when
    that is safe; otherwise a position that [isPositionSafeFromGravity]
    accepts, or, when none of the fifty candidates is accepted, the centre
    of the screen, which is not tested. *)
Theorem findSafeSpawnPosition_safe_or_fallback h preferred (st : State T) :
  let p := findSafeSpawnPosition h preferred st in
  let safe := fun q => isPositionSafeFromGravity (fst q) (snd q) st in
  (safe preferred = true /\ p = preferred) \/
  (safe preferred = false /\ safe p = true /\
   exists attempt, attempt < 50 /\ p = spawnCandidate h preferred attempt) \/
  (safe preferred = false /\ p = getFallbackSpawnPosition h /\
   forall attempt, attempt < 50 ->
     safe (spawnCandidate h preferred attempt) = false).
Proof.
  cbv zeta. unfold findSafeSpawnPosition.
  destruct (isPositionSafeFromGravity (fst preferred) (snd preferred) st)
    eqn:E0; [by left|right].
  destruct (find _ _) as [p|] eqn:Ef.
  - left. apply find_some in Ef as [Hin Hsafe].
    apply in_map_iff in Hin as (a & <- & Ha). apply in_seq in Ha.
    split; [done|]. split; [done|]. exists a. split; [lia|done].
  - right. split; [done|]. split; [done|]. intros a Ha.
    apply (find_none _ _ Ef). apply in_map_iff. exists a.
    split; [done|]. apply in_seq. lia.
Qed.

End SpawnPositions.

Lemma rockets_start_at_preferred_witness :
  exists st', startGame Scenario.host 2 3 initialState = Some st' /\
    forall r, rockets st' !! 1 = Some r ->
    exists o, heap st' !! r = Some o /\
      Obj.x o = ofZ 700 /\ Obj.y o = ofZ 300 /\ Obj.playerId o = 1%Z.
Proof.
  destruct (startGame Scenario.host 2 3 initialState) as [st'|] eqn:E;
    [|by vm_compute in E].
  exists st'. split; [done|]. intros r Hr.
  destruct (rockets_start_at_preferred Scenario.host 2 3 initialState st'
              (or_introl E) 1 r Hr) as (p & Hp & Ho).
  vm_compute in Hp. inversion Hp; subst p; clear Hp.
  eexists. split; [exact Ho|]. by vm_compute.
Defined.

(** ** Whole frames *)

Section Frames.
Context {T : Type} `{JsNum T}.

(** *** The heap keeps its size during a frame *)

Lemma length_heap_store r o (st : State T) :
  length (heap (store r o st)) = length (heap st).
Proof. unfold store; simpl. apply length_insert. Qed.

Lemma length_heap_forEach {A} (f : A -> State T -> State T) l :
  (forall a s, length (heap (f a s)) = length (heap s)) ->
  forall s, length (heap (forEach f l s)) = length (heap s).
Proof.
  intros Hf. unfold forEach.
  induction l as [|a l IH]; intros s; simpl; [done|]. by rewrite IH, Hf.
Qed.

Lemma length_heap_processInput h (st : State T) :
  length (heap (processInput h st)) = length (heap st).
Proof.
  unfold processInput. generalize 0 as i. generalize (rockets st) as l.
  intros l. revert st.
  induction l as [|r l IH]; intros st i; simpl; [done|]. rewrite IH.
  destruct (heap st !! r) as [rocket|]; [|done].
  destruct (negb _); [done|]. apply length_heap_store.
Qed.

Lemma length_heap_keepInBounds h r (st : State T) :
  length (heap (keepInBounds h r st)) = length (heap st).
Proof.
  unfold keepInBounds. destruct (heap st !! r) as [obj|]; [|done].
  cbv zeta. destruct (_ || _ || _ || _); [|done].
  destruct (isKind (Obj.type obj) HOLE); [done|].
  destruct (Obj.type obj); cbv [isKind kindCode Z.eqb Pos.eqb];
    change (heap (createExplosion ?a ?b ?c (playSound ?s ?x)))
      with (heap x);
    rewrite ?heap_checkExtraLife; apply length_heap_store.
Qed.

Lemma length_heap_physicsStep h r (st : State T) :
  length (heap (physicsStep h r st)) = length (heap st).
Proof.
  unfold physicsStep. destruct (heap st !! r) as [obj|]; [|done].
  destruct (negb _); [done|].
  by rewrite length_heap_keepInBounds, length_heap_store.
Qed.

Lemma length_heap_handleSpecialCollisions r1 r2 (st : State T) :
  length (heap (handleSpecialCollisions r1 r2 st)) = length (heap st).
Proof.
  unfold handleSpecialCollisions.
  destruct (heap st !! r1) as [obj1|]; [|done].
  destruct (heap st !! r2) as [obj2|]; [|done].
  destruct (_ || _).
  - destruct (isBall (Obj.type obj1)).
    + destruct (Obj.type obj1);
        rewrite heap_playSound, heap_checkExtraLife; apply length_heap_store.
    + destruct (Obj.type obj2);
        rewrite heap_playSound, heap_checkExtraLife; apply length_heap_store.
  - destruct (_ || _); [|done].
    destruct (isKind (Obj.type obj1) ROCKET); apply length_heap_store.
Qed.

Lemma length_heap_handleCollision r1 r2 dx dy distance (st : State T) :
  length (heap (handleCollision r1 r2 dx dy distance st)) = length (heap st).
Proof.
  unfold handleCollision.
  destruct (heap st !! r1) as [obj1|]; [|done].
  destruct (heap st !! r2) as [obj2|]; [|done].
  cbv zeta. destruct (nltb _ _).
  - by rewrite !length_heap_store.
  - by rewrite heap_playSound, length_heap_handleSpecialCollisions,
         !length_heap_store.
Qed.

Lemma length_heap_collidePair r1 r2 (st : State T) :
  length (heap (collidePair r1 r2 st)) = length (heap st).
Proof.
  unfold collidePair.
  destruct (heap st !! r1) as [obj1|]; [|done].
  destruct (heap st !! r2) as [obj2|]; [|done].
  destruct (_ || _); [done|]. cbv zeta. destruct (nltb _ _); [|done].
  apply length_heap_handleCollision.
Qed.

Lemma length_heap_checkCollisions (st : State T) :
  length (heap (checkCollisions st)) = length (heap st).
Proof.
  unfold checkCollisions. generalize (objects st) as l. intros l. revert st.
  induction l as [|r1 rest IH]; intros st; simpl; [done|].
  rewrite IH. apply length_heap_forEach. intros.
  apply length_heap_collidePair.
Qed.

Lemma length_heap_simulate h delta (st : State T) :
  length (heap (simulate h delta st)) = length (heap st).
Proof.
  unfold simulate, updateObjects, updatePhysics.
  change (heap (set_objects ?l ?s)) with (heap s).
  rewrite length_heap_checkCollisions.
  rewrite (length_heap_forEach (physicsStep h));
    [|intros; apply length_heap_physicsStep].
  by rewrite length_heap_processInput.
Qed.

(** *** What the rules check leaves *)

Lemma createRockets_some h (st st' : State T) :
  createRockets h st = Some st' -> playerCount st <= 5.
Proof.
  intros E. destruct (le_lt_dec (playerCount st) 5) as [Hle|Hgt]; [done|].
  by rewrite (createRockets_none h st Hgt) in E.
Qed.

(** The rules check either keeps the objects or respawns the level. *)
Lemma checkGameState_cases h (st st' : State T) :
  checkGameState h st = Some st' ->
  (heap st' = heap st /\ objects st' = objects st) \/
  (exists s, restartLevel h s = Some st' /\ heap s = heap st).
Proof.
  unfold checkGameState.
  set (st1 := if (length (aliveBalls st) =? 0)%nat then _ else st).
  assert (H1 : heap st1 = heap st /\ objects st1 = objects st).
  { subst st1. by destruct (_ =? _)%nat. }
  destruct H1 as [Hh Ho].
  destruct (length (aliveRockets st1) =? 0)%nat.
  - cbv zeta. destruct (_ <=? 0)%Z.
    + intros [= <-]. by left.
    + intros E. right. by eexists.
  - intros [= <-]. by left.
Qed.

Lemma restartLevel_some h (st st' : State T) :
  restartLevel h st = Some st' -> playerCount st <= 5.
Proof.
  unfold restartLevel, initLevel.
  destruct (createRockets h (clearGame st)) as [st1|] eqn:E1; [|done].
  intros _. by apply createRockets_some in E1.
Qed.

(** X5. At the end of a frame every entry of [this.objects] is a live
    object: the dead are filtered out before the rules check, and a
    respawn creates live objects only. *)
Theorem gameLoop_objects_live h delta (st st' : State T) :
  gameState st = Running -> gameLoop h delta st = Some st' ->
  Forall (fun r => isLive st' r = true) (objects st').
Proof.
  intros Eg Hloop. rewrite (gameLoop_simulate h delta st Eg) in Hloop.
  destruct (checkGameState h (simulate h delta st)) as [st1|] eqn:E1;
    simpl in Hloop; [|done].
  inversion Hloop; subst st'; clear Hloop.
  change (Forall (fun r => isLive st1 r = true) (objects st1)).
  destruct (checkGameState_cases h _ _ E1) as [[Hh Ho]|(s & Er & _)].
  - rewrite Ho. apply Forall_forall. intros r Hr.
    unfold simulate, updateObjects in Hr.
    change (objects (set_objects ?l ?s)) with l in Hr.
    apply list_elem_of_In, filter_In in Hr as [_ Hr].
    rewrite <- Hr. apply isLive_heap. by rewrite Hh.
  - destruct (restartLevel_spec h s (restartLevel_some h s st1 Er))
      as (st2 & E2 & Hspec).
    rewrite Er in E2. inversion E2; subst st2. apply Hspec.
Qed.

(** X6. The dead stay dead: an object that is not live when a frame
    starts is not live when the frame ends, whatever happens in the frame,
    a respawn of the level included (which creates new objects and revives
    none). *)
Theorem gameLoop_no_revival h delta q o (st st' : State T) :
  gameLoop h delta st = Some st' ->
  heap st !! q = Some o -> Obj.live o = false ->
  isLive st' q = false.
Proof.
  intros Hloop Hq Hdead.
  assert (H0 : isLive st q = false) by (unfold isLive; by rewrite Hq).
  destruct (gameState st) eqn:Eg.
  1,3: unfold gameLoop in Hloop; rewrite Eg in Hloop;
       by inversion Hloop; subst.
  rewrite (gameLoop_simulate h delta st Eg) in Hloop.
  destruct (checkGameState h (simulate h delta st)) as [st1|] eqn:E1;
    simpl in Hloop; [|done].
  inversion Hloop; subst st'; clear Hloop.
  change (isLive st1 q = false).
  pose proof (noRevival_simulate h delta st q H0) as H1.
  destruct (checkGameState_cases h _ _ E1) as [[Hh Ho]|(s & Er & Hs)].
  - by rewrite (isLive_heap _ _ q Hh).
  - unfold restartLevel in Er.
    destruct (initLevel h (clearGame s)) as [s1|] eqn:Ei; [|done].
    simpl in Er. inversion Er; subst st1; clear Er.
    apply prefix_initLevel in Ei. simpl in Ei. rewrite Hs in Ei.
    assert (Hlt : q < length (heap (simulate h delta st))).
    { rewrite length_heap_simulate. by eapply lookup_lt_Some. }
    apply lookup_lt_is_Some in Hlt as [o' Ho'].
    unfold isLive in H1 |- *. rewrite Ho' in H1. simpl.
    by rewrite (prefix_lookup_Some _ _ _ _ Ho' Ei).
Qed.

End Frames.

Lemma gameLoop_objects_live_witness :
  exists st', gameLoop Scenario.host (ofZ 1) Scenario.atWall = Some st' /\
    Forall (fun r => isLive st' r = true) (objects st').
Proof.
  destruct (gameLoop Scenario.host (ofZ 1) Scenario.atWall) as [st'|] eqn:E;
    [|by vm_compute in E].
  exists st'. split; [done|].
  by apply (gameLoop_objects_live Scenario.host (ofZ 1) Scenario.atWall st').
Defined.

Lemma gameLoop_no_revival_witness :
  exists st', gameLoop Scenario.host (ofZ 1) Scenario.secondLife = Some st' /\
    isLive st' 0 = false.
Proof.
  destruct (gameLoop Scenario.host (ofZ 1) Scenario.secondLife) as [st'|] eqn:E;
    [|by vm_compute in E].
  exists st'. split; [done|].
  by apply (gameLoop_no_revival Scenario.host (ofZ 1) 0
              (set_live false (Scenario.object ROCKET 100 300 0 0))
              Scenario.secondLife st').
Defined.

(** ** More exact arithmetic *)

Lemma Rclamp_bounds (lo hi t : R) :
  (lo <= hi)%R -> (lo <= Rmax lo (Rmin hi t) <= hi)%R.
Proof.
  intros Hle. unfold Rmax, Rmin. repeat destruct (Rle_dec _ _); lra.
Qed.

(** X7. In exact arithmetic, on a screen at least 100 wide and high, a
    position that [findSafeSpawnPosition] returns is the preferred one or
    lies on the screen, at least 50 away from every edge. *)
Theorem findSafeSpawnPosition_on_screen (h : Host R) preferred (st : State R) :
  (100 <= screenWidth h)%R -> (100 <= screenHeight h)%R ->
  let p := findSafeSpawnPosition h preferred st in
  p = preferred \/
  (50 <= fst p <= screenWidth h - 50 /\
   50 <= snd p <= screenHeight h - 50)%R.
Proof.
  intros Hw Hh. cbv zeta. unfold findSafeSpawnPosition.
  destruct (isPositionSafeFromGravity _ _ _); [by left|right].
  destruct (find _ _) as [p|] eqn:Ef.
  - apply find_some in Ef as [Hin _].
    apply in_map_iff in Hin as (a & <- & _).
    unfold spawnCandidate. cbv zeta. simpl fst. simpl snd.
    cbv [nadd nsub nmul ndiv nmin nmax ofZ RealNum.real_num].
    split; apply Rclamp_bounds; lra.
  - unfold getFallbackSpawnPosition. simpl.
    cbv [ndiv ofZ RealNum.real_num]. lra.
Qed.

Lemma findSafeSpawnPosition_on_screen_witness :
  findSafeSpawnPosition Scenario.hostR (10%R, 0%R) Scenario.orbit
    = (10%R, 0%R) \/
  (50 <= fst (findSafeSpawnPosition Scenario.hostR (10%R, 0%R) Scenario.orbit)
      <= 800 - 50 /\
   50 <= snd (findSafeSpawnPosition Scenario.hostR (10%R, 0%R) Scenario.orbit)
      <= 600 - 50)%R.
Proof.
  apply (findSafeSpawnPosition_on_screen Scenario.hostR (10%R, 0%R)
           Scenario.orbit); simpl; lra.
Defined.

(** X8. In exact arithmetic, the resolution of one overlapping pair of
    live objects whose centres differ (the body of the two loops of
    [checkCollisions]) moves the two by the same amount in opposite
    directions along the line of their centres, the first away from the
    second, and leaves them touching: right after it the distance of the
    centres is the sum of the radii.  (A later pair of the same pass may
    move either of them again.) *)
Theorem collision_separates r1 r2 obj1 obj2 (st : State R) :
  r1 <> r2 ->
  heap st !! r1 = Some obj1 -> heap st !! r2 = Some obj2 ->
  Obj.live obj1 = true -> Obj.live obj2 = true ->
  let dx := (Obj.x obj2 - Obj.x obj1)%R in
  let dy := (Obj.y obj2 - Obj.y obj1)%R in
  (0 < sqrt (dx * dx + dy * dy) < Obj.radius obj1 + Obj.radius obj2)%R ->
  exists o1 o2 t,
    heap (collidePair r1 r2 st) !! r1 = Some o1 /\
    heap (collidePair r1 r2 st) !! r2 = Some o2 /\
    (0 < t)%R /\
    Obj.x o1 = (Obj.x obj1 - t * dx)%R /\
    Obj.y o1 = (Obj.y obj1 - t * dy)%R /\
    Obj.x o2 = (Obj.x obj2 + t * dx)%R /\
    Obj.y o2 = (Obj.y obj2 + t * dy)%R /\
    sqrt ((Obj.x o2 - Obj.x o1) * (Obj.x o2 - Obj.x o1)
          + (Obj.y o2 - Obj.y o1) * (Obj.y o2 - Obj.y o1))
    = (Obj.radius obj1 + Obj.radius obj2)%R.
Proof.
  intros Hne H1 H2 Hl1 Hl2 dx dy [Hpos Hlt].
  set (d := sqrt (dx * dx + dy * dy)) in *.
  assert (Hstep : collidePair r1 r2 st = handleCollision r1 r2 dx dy d st).
  { unfold collidePair. rewrite H1, H2, Hl1, Hl2. simpl.
    cbv [nadd nsub nmul nsqrt nltb RealNum.real_num]. fold dx dy d.
    apply real_ltb_true in Hlt. by rewrite Hlt. }
  assert (Hdd : (d * d = dx * dx + dy * dy)%R).
  { subst d. apply sqrt_sqrt. nra. }
  set (rr := (Obj.radius obj1 + Obj.radius obj2)%R) in *.
  assert (Hgoal :
    sqrt ((Obj.x obj2 + dx / d * ((rr - d) / 2)
           - (Obj.x obj1 - dx / d * ((rr - d) / 2)))
          * (Obj.x obj2 + dx / d * ((rr - d) / 2)
             - (Obj.x obj1 - dx / d * ((rr - d) / 2)))
          + (Obj.y obj2 + dy / d * ((rr - d) / 2)
             - (Obj.y obj1 - dy / d * ((rr - d) / 2)))
            * (Obj.y obj2 + dy / d * ((rr - d) / 2)
               - (Obj.y obj1 - dy / d * ((rr - d) / 2)))) = rr).
  { match goal with |- sqrt ?e = _ => replace e with (rr * rr)%R end.
    - apply sqrt_square. lra.
    - transitivity ((dx * dx + dy * dy) / (d * d) * (rr * rr))%R.
      + rewrite <- Hdd. field. lra.
      + unfold dx, dy. field. lra. }
  assert (Ht : (0 < (rr - d) / 2 / d)%R).
  { apply Rdiv_lt_0_compat; lra. }
  rewrite Hstep.
  destruct (handleCollision_lookup r1 r2 obj1 obj2 dx dy d st Hne H1 H2)
    as [[E1 E2]|(b1 & b2 & E1 & E2)];
    eexists; eexists; exists ((rr - d) / 2 / d)%R;
    (split; [exact E1|]); (split; [exact E2|]); (split; [exact Ht|]);
    simpl; cbv [nadd nsub nmul ndiv ofZ RealNum.real_num];
    (split; [fold rr; field; lra|]); (split; [fold rr; field; lra|]);
    (split; [fold rr; field; lra|]); (split; [fold rr; field; lra|]);
    exact Hgoal.
Qed.

(** X9. In exact arithmetic the collision pass never changes the kinetic
    energy of a pair whose centres differ: the impulse is that of an
    elastic collision, and a pair that is not resolved keeps its
    velocities. *)
Theorem collision_conserves_energy r1 r2 obj1 obj2 (st : State R) :
  r1 <> r2 ->
  heap st !! r1 = Some obj1 -> heap st !! r2 = Some obj2 ->
  let dx := (Obj.x obj2 - Obj.x obj1)%R in
  let dy := (Obj.y obj2 - Obj.y obj1)%R in
  (0 < sqrt (dx * dx + dy * dy))%R ->
  (Obj.mass obj1 + Obj.mass obj2 <> 0)%R ->
  exists o1 o2,
    heap (collidePair r1 r2 st) !! r1 = Some o1 /\
    heap (collidePair r1 r2 st) !! r2 = Some o2 /\
    (Obj.mass o1 * (Obj.vx o1 * Obj.vx o1 + Obj.vy o1 * Obj.vy o1)
     + Obj.mass o2 * (Obj.vx o2 * Obj.vx o2 + Obj.vy o2 * Obj.vy o2)
     = Obj.mass obj1 * (Obj.vx obj1 * Obj.vx obj1 + Obj.vy obj1 * Obj.vy obj1)
       + Obj.mass obj2
         * (Obj.vx obj2 * Obj.vx obj2 + Obj.vy obj2 * Obj.vy obj2))%R.
Proof.
  intros Hne H1 H2 dx dy Hpos Hm.
  set (d := sqrt (dx * dx + dy * dy)) in *.
  assert (Hsame : exists o1 o2,
            heap st !! r1 = Some o1 /\ heap st !! r2 = Some o2 /\
            (Obj.mass o1 * (Obj.vx o1 * Obj.vx o1 + Obj.vy o1 * Obj.vy o1)
             + Obj.mass o2 * (Obj.vx o2 * Obj.vx o2 + Obj.vy o2 * Obj.vy o2)
             = Obj.mass obj1
               * (Obj.vx obj1 * Obj.vx obj1 + Obj.vy obj1 * Obj.vy obj1)
               + Obj.mass obj2
                 * (Obj.vx obj2 * Obj.vx obj2 + Obj.vy obj2 * Obj.vy obj2))%R).
  { by exists obj1, obj2. }
  unfold collidePair. rewrite H1, H2.
  destruct (_ || _); [exact Hsame|]. cbv zeta.
  cbv [nadd nsub nmul nsqrt nltb RealNum.real_num]. fold dx dy d.
  destruct (RealNum.ltb d _); [|exact Hsame]. clear Hsame.
  assert (Hdd : (d * d = dx * dx + dy * dy)%R).
  { subst d. apply sqrt_sqrt. nra. }
  assert (Hn : (dx / d * (dx / d) + dy / d * (dy / d) = 1)%R).
  { transitivity ((dx * dx + dy * dy) / (d * d))%R; [field; lra|].
    rewrite <- Hdd. field. lra. }
  destruct (handleCollision_lookup r1 r2 obj1 obj2 dx dy d st Hne H1 H2)
    as [[E1 E2]|(b1 & b2 & E1 & E2)];
    eexists; eexists; (split; [exact E1|]); (split; [exact E2|]);
    simpl; [done|].
  cbv [nadd nsub nmul ndiv ofZ RealNum.real_num].
  set (nx := (dx / d)%R) in *. set (ny := (dy / d)%R) in *.
  set (m1 := Obj.mass obj1) in *. set (m2 := Obj.mass obj2) in *.
  set (dvn := ((Obj.vx obj2 - Obj.vx obj1) * nx
               + (Obj.vy obj2 - Obj.vy obj1) * ny)%R).
  set (J := (2 * dvn / (m1 + m2))%R).
  assert (HJ : (J * (m1 + m2) = 2 * dvn)%R) by (subst J; field; exact Hm).
  clearbody J nx ny m1 m2. apply Rminus_diag_uniq.
  transitivity
    (J * m1 * m2 * (J * (m1 + m2) * (nx * nx + ny * ny) - 2 * dvn))%R.
  - subst dvn. ring.
  - rewrite Hn, HJ. ring.
Qed.

Lemma collision_separates_witness :
  exists o1 o2,
    heap (collidePair 0 1 Scenario.headOn) !! 0 = Some o1 /\
    heap (collidePair 0 1 Scenario.headOn) !! 1 = Some o2 /\
    sqrt ((Obj.x o2 - Obj.x o1) * (Obj.x o2 - Obj.x o1)
          + (Obj.y o2 - Obj.y o1) * (Obj.y o2 - Obj.y o1)) = (8 + 16)%R.
Proof.
  assert (Hd : sqrt ((10 - 0) * (10 - 0) + (0 - 0) * (0 - 0)) = 10%R).
  { replace ((10 - 0) * (10 - 0) + (0 - 0) * (0 - 0))%R
      with (10 * 10)%R by lra.
    apply sqrt_square. lra. }
  destruct (collision_separates 0 1
              (Obj.mk BALL_SMALL 0%R 0%R 1%R 0%R 0%R 0%R 8%R 3%R true (-1))
              (Obj.mk BALL_LARGE 10%R 0%R (-1)%R 0%R 0%R 0%R 16%R 6%R true
                      (-1))
              Scenario.headOn)
    as (o1 & o2 & t & E1 & E2 & _ & _ & _ & _ & _ & Hdist);
    try reflexivity; [lia|simpl; rewrite Hd; lra|].
  by exists o1, o2.
Defined.

Lemma collision_conserves_energy_witness :
  exists o1 o2,
    heap (collidePair 0 1 Scenario.headOn) !! 0 = Some o1 /\
    heap (collidePair 0 1 Scenario.headOn) !! 1 = Some o2 /\
    (Obj.mass o1 * (Obj.vx o1 * Obj.vx o1 + Obj.vy o1 * Obj.vy o1)
     + Obj.mass o2 * (Obj.vx o2 * Obj.vx o2 + Obj.vy o2 * Obj.vy o2)
     = 3 * (1 * 1 + 0 * 0) + 6 * (-1 * -1 + 0 * 0))%R.
Proof.
  assert (Hd : sqrt ((10 - 0) * (10 - 0) + (0 - 0) * (0 - 0)) = 10%R).
  { replace ((10 - 0) * (10 - 0) + (0 - 0) * (0 - 0))%R
      with (10 * 10)%R by lra.
    apply sqrt_square. lra. }
  apply (collision_conserves_energy 0 1
           (Obj.mk BALL_SMALL 0%R 0%R 1%R 0%R 0%R 0%R 8%R 3%R true (-1))
           (Obj.mk BALL_LARGE 10%R 0%R (-1)%R 0%R 0%R 0%R 16%R 6%R true (-1))
           Scenario.headOn); try reflexivity; [lia| |].
  - simpl. rewrite Hd. lra.
  - simpl. lra.
Defined.

(** ** What a contact does *)

Section Contacts.
Context {T : Type} `{JsNum T}.

(** X10. A ball that meets a hole in [handleSpecialCollisions], in either
    order of the pair: the ball is marked not live and nothing else of it
    changes, the hole stays as it is, 10 points are scored for a small
    ball and 20 for a large one, the extra-life check runs on the new
    score, and the last cue played is [ballInHole]. *)
Theorem ball_into_hole rb rh ball hole (st : State T) :
  heap st !! rb = Some ball -> heap st !! rh = Some hole ->
  isBall (Obj.type ball) = true -> Obj.type hole = HOLE ->
  let st' := handleSpecialCollisions rb rh st in
  handleSpecialCollisions rh rb st = st' /\
  heap st' !! rb = Some (set_live false ball) /\
  heap st' !! rh = Some hole /\
  tally st' =
    award (if isKind (Obj.type ball) BALL_SMALL then 10 else 20) (tally st) /\
  last (out st') = Some (Play sndBallInHole).
Proof.
  intros Hb Hh Hball Hhole. cbv zeta.
  assert (Hne : rb <> rh).
  { intros ->. rewrite Hb in Hh. inversion Hh; subst.
    by rewrite Hhole in Hball. }
  apply lookup_lt_Some in Hb as Hlt.
  unfold handleSpecialCollisions. rewrite Hb, Hh, Hhole.
  destruct (Obj.type ball) eqn:Ek; try done;
    cbv [isBall isKind kindCode Z.eqb Pos.eqb orb andb]; cbv beta iota;
    rewrite ?Ek.
  all: split; [done|].
  all: rewrite !heap_playSound, !heap_checkExtraLife.
  all: change (heap (set_score ?n ?s)) with (heap s).
  all: split; [by apply lookup_store_eq|].
  all: split; [by rewrite lookup_store_ne|].
  all: split; [|unfold playSound; simpl out; by rewrite last_snoc].
  all: rewrite tally_playSound.
  all: match goal with
       | |- context [set_score (score ?s + ?p) ?s] =>
           rewrite (tally_checkExtraLife p s)
       end.
  all: by rewrite tally_store.
Qed.

(** *** Without holes *)

Lemma undisturbed_refl (st : State T) : undisturbed st st.
Proof. by split. Qed.

Lemma undisturbed_trans (st1 st2 st3 : State T) :
  undisturbed st1 st2 -> undisturbed st2 st3 -> undisturbed st1 st3.
Proof.
  intros [Ht Hq] [Ht' Hq']. split; [congruence|]. intros q.
  by rewrite Hq', Hq.
Qed.

Lemma undisturbed_store r o o' (st : State T) :
  heap st !! r = Some o ->
  Obj.type o' = Obj.type o -> Obj.live o' = Obj.live o ->
  undisturbed st (store r o' st).
Proof.
  intros Hr Ht Hl. split; [done|]. intros q.
  destruct (decide (r = q)) as [<-|Hne].
  - rewrite lookup_store_eq by (by eapply lookup_lt_Some).
    rewrite Hr. simpl. by rewrite Ht, Hl.
  - by rewrite lookup_store_ne.
Qed.

Lemma undisturbed_notHole r (st st' : State T) :
  undisturbed st st' -> notHole st r -> notHole st' r.
Proof.
  intros [_ Hq] Hno o' Hlk. specialize (Hq r). rewrite Hlk in Hq.
  destruct (heap st !! r) as [o|] eqn:E; [|done].
  simpl in Hq. inversion Hq as [[Ht Hl]]. rewrite Ht. by apply Hno.
Qed.

Lemma undisturbed_isLive q (st st' : State T) :
  undisturbed st st' -> isLive st' q = isLive st q.
Proof.
  intros [_ Hq]. specialize (Hq q). unfold isLive.
  destruct (heap st' !! q), (heap st !! q); simpl in Hq; try done.
  by inversion Hq.
Qed.

(** The special cases need a hole. *)
Lemma handleSpecialCollisions_inert r1 r2 (st : State T) :
  notHole st r1 -> notHole st r2 -> handleSpecialCollisions r1 r2 st = st.
Proof.
  intros N1 N2. unfold handleSpecialCollisions.
  destruct (heap st !! r1) as [obj1|] eqn:E1; [|done].
  destruct (heap st !! r2) as [obj2|] eqn:E2; [|done].
  specialize (N1 obj1 E1). specialize (N2 obj2 E2).
  assert (H1 : isKind (Obj.type obj1) HOLE = false)
    by (by destruct (Obj.type obj1)).
  assert (H2 : isKind (Obj.type obj2) HOLE = false)
    by (by destruct (Obj.type obj2)).
  by rewrite H1, H2, !andb_false_r.
Qed.

Lemma undisturbed_handleCollision r1 r2 dx dy distance (st : State T) :
  notHole st r1 -> notHole st r2 ->
  undisturbed st (handleCollision r1 r2 dx dy distance st).
Proof.
  intros N1 N2. unfold handleCollision.
  destruct (heap st !! r1) as [obj1|] eqn:E1; [|apply undisturbed_refl].
  destruct (heap st !! r2) as [obj2|] eqn:E2; [|apply undisturbed_refl].
  cbv zeta.
  assert (Hst : forall o1 o2,
            Obj.type o1 = Obj.type obj1 -> Obj.live o1 = Obj.live obj1 ->
            Obj.type o2 = Obj.type obj2 -> Obj.live o2 = Obj.live obj2 ->
            undisturbed st (store r2 o2 (store r1 o1 st))).
  { intros o1 o2 Ht1 Hl1 Ht2 Hl2.
    eapply undisturbed_trans; [by apply (undisturbed_store r1 obj1 o1)|].
    destruct (decide (r1 = r2)) as [<-|Hne].
    - apply (undisturbed_store r1 o1 o2).
      + apply lookup_store_eq. by eapply lookup_lt_Some.
      + congruence.
      + congruence.
    - apply (undisturbed_store r2 obj2 o2); [|done..].
      by rewrite lookup_store_ne. }
  destruct (nltb _ _); [by apply Hst|].
  match goal with
  | |- context [store r2 ?o2 (store r1 ?o1 st)] =>
      pose proof (Hst o1 o2 eq_refl eq_refl eq_refl eq_refl) as Hu;
      set (st2 := store r2 o2 (store r1 o1 st)) in *
  end.
  rewrite handleSpecialCollisions_inert by (by eapply undisturbed_notHole).
  destruct Hu as [Ht Hq]. split; [|exact Hq].
  by rewrite tally_playSound.
Qed.

Lemma undisturbed_collidePair r1 r2 (st : State T) :
  notHole st r1 -> notHole st r2 -> undisturbed st (collidePair r1 r2 st).
Proof.
  intros N1 N2. unfold collidePair.
  destruct (heap st !! r1) as [obj1|]; [|apply undisturbed_refl].
  destruct (heap st !! r2) as [obj2|]; [|apply undisturbed_refl].
  destruct (_ || _); [apply undisturbed_refl|].
  cbv zeta. destruct (nltb _ _); [|apply undisturbed_refl].
  by apply undisturbed_handleCollision.
Qed.

Lemma undisturbed_row r1 l : forall st : State T,
  notHole st r1 -> Forall (notHole st) l ->
  undisturbed st (forEach (collidePair r1) l st).
Proof.
  unfold forEach.
  induction l as [|r2 l IH]; intros st N1 Nl; simpl; [apply undisturbed_refl|].
  inversion Nl as [|? ? N2 Nl']; subst.
  pose proof (undisturbed_collidePair r1 r2 st N1 N2) as Hu.
  eapply undisturbed_trans; [exact Hu|]. apply IH.
  - by eapply undisturbed_notHole.
  - eapply Forall_impl; [exact Nl'|]. intros r. by apply undisturbed_notHole.
Qed.

Lemma undisturbed_collideAll l : forall st : State T,
  Forall (notHole st) l -> undisturbed st (collideAll l st).
Proof.
  induction l as [|r1 l IH]; intros st Nl; simpl; [apply undisturbed_refl|].
  inversion Nl as [|? ? N1 Nl']; subst.
  pose proof (undisturbed_row r1 l st N1 Nl') as Hu.
  eapply undisturbed_trans; [exact Hu|]. apply IH.
  eapply Forall_impl; [exact Nl'|]. intros r. by apply undisturbed_notHole.
Qed.

(** X11. Only a hole makes a contact deadly: when no entry of
    [this.objects] is a hole (as on the first two levels), the collision
    pass kills nothing and scores nothing, however the objects collide;
    the score, the lives, the threshold and the [extraLife] notifications
    are as before, and every object is as live as it was. *)
Theorem collisions_harmless_without_holes (st : State T) :
  Forall (notHole st) (objects st) ->
  tally (checkCollisions st) = tally st /\
  forall q, isLive (checkCollisions st) q = isLive st q.
Proof.
  intros Hno.
  pose proof (undisturbed_collideAll (objects st) st Hno) as Hu.
  split; [apply Hu|]. intros q. by apply undisturbed_isLive.
Qed.

(** X12. [processInput] changes live rockets of [this.rockets] only: an
    object that is not in that array, or that is not live, is left as it
    is. *)
Theorem processInput_live_rockets_only h q (st : State T) :
  q ∉ rockets st \/ isLive st q = false ->
  heap (processInput h st) !! q = heap st !! q.
Proof.
  unfold processInput. generalize 0 as i. generalize (rockets st) as l.
  intros l. revert st.
  induction l as [|r l IH]; intros st i Hq; simpl; [done|].
  assert (Hq' : q ∉ l \/ isLive st q = false).
  { destruct Hq as [Hq|Hq]; [left|by right].
    intros Hin. apply Hq. by right. }
  destruct (heap st !! r) as [rocket|] eqn:E; [|by apply IH].
  destruct (Obj.live rocket) eqn:El; simpl; [|by apply IH].
  assert (Hne : r <> q).
  { intros <-. destruct Hq as [Hq|Hq].
    - apply Hq. by left.
    - unfold isLive in Hq. rewrite E in Hq. congruence. }
  rewrite IH.
  - by apply lookup_store_ne.
  - destruct Hq' as [Hq'|Hq']; [by left|right].
    by rewrite isLive_store_ne.
Qed.

End Contacts.

Lemma ball_into_hole_witness :
  heap (handleSpecialCollisions 1 2 Scenario.crossing) !! 1
    = Some (set_live false (Scenario.object BALL_LARGE 400 300 1 0)) /\
  score (handleSpecialCollisions 1 2 Scenario.crossing) = 515%Z /\
  lives (handleSpecialCollisions 1 2 Scenario.crossing) = 4%Z.
Proof.
  destruct (ball_into_hole 1 2 (Scenario.object BALL_LARGE 400 300 1 0)
              (Scenario.object HOLE 420 300 0 0) Scenario.crossing)
    as (_ & Hb & _ & Ht & _); try reflexivity.
  split; [exact Hb|].
  apply (f_equal t_score) in Ht as Hs. apply (f_equal t_lives) in Ht as Hv.
  split; [exact Hs|exact Hv].
Defined.

Lemma collisions_harmless_without_holes_witness :
  tally (checkCollisions Scenario.coincident) = tally Scenario.coincident /\
  forall q, isLive (checkCollisions Scenario.coincident) q
            = isLive Scenario.coincident q.
Proof.
  apply (collisions_harmless_without_holes Scenario.coincident).
  repeat constructor; intros o [= <-]; done.
Defined.

Lemma processInput_live_rockets_only_witness :
  heap (processInput Scenario.host Scenario.atWall) !! 0
  = heap Scenario.atWall !! 0.
Proof.
  apply (processInput_live_rockets_only Scenario.host 0 Scenario.atWall).
  left. simpl. intros Hin. apply list_elem_of_singleton in Hin. lia.
Defined.

(** ** The force an object carries *)

Section Bounds.
Context {T : Type} `{JsNum T}.

(** The bounds check changes nothing of an object but its [live] flag. *)
Lemma keepInBounds_lookup h r q o (st : State T) :
  heap st !! q = Some o ->
  exists b, heap (keepInBounds h r st) !! q = Some (set_live b o).
Proof.
  intros Hq.
  assert (Hsame : exists b, heap st !! q = Some (set_live b o)).
  { exists (Obj.live o). by rewrite set_live_same. }
  unfold keepInBounds. destruct (heap st !! r) as [obj|] eqn:E; [|done].
  cbv zeta. destruct (_ || _ || _ || _); [|done].
  destruct (isKind (Obj.type obj) HOLE); [done|].
  assert (Hkill : exists b, heap (store r (set_live false obj) st) !! q
                            = Some (set_live b o)).
  { destruct (decide (r = q)) as [->|Hne].
    - exists false. rewrite lookup_store_eq; [|by eapply lookup_lt_Some].
      congruence.
    - by rewrite lookup_store_ne. }
  destruct Hkill as (b & Hb). exists b.
  destruct (Obj.type obj); cbv [isKind kindCode Z.eqb Pos.eqb];
    change (heap (createExplosion ?a ?b ?c (playSound ?s ?x)))
      with (heap x);
    by rewrite ?heap_checkExtraLife.
Qed.

Lemma integrate_force dt (obj : GameObject T) :
  Obj.fx (integrate dt obj) = Obj.fx obj /\
  Obj.fy (integrate dt obj) = Obj.fy obj.
Proof. unfold integrate. cbv zeta. simpl. by destruct (nltb _ _). Qed.

End Bounds.

Lemma gravityFrom_adds (hole obj : GameObject R) :
  exists gx gy, forall a b,
    gravityFrom hole (set_force a b obj) = set_force (a + gx)%R (b + gy)%R obj.
Proof.
  unfold gravityFrom. simpl.
  destruct (_ || _).
  { exists 0%R, 0%R. intros a b. by rewrite !Rplus_0_r. }
  destruct (_ && _).
  - eexists. eexists. intros a b. reflexivity.
  - exists 0%R, 0%R. intros a b. by rewrite !Rplus_0_r.
Qed.

Lemma applyGravity_adds (st : State R) (obj : GameObject R) :
  exists gx gy, forall a b,
    applyGravity st (set_force a b obj) = set_force (a + gx)%R (b + gy)%R obj.
Proof.
  unfold applyGravity. simpl.
  destruct (isKind (Obj.type obj) HOLE).
  { exists 0%R, 0%R. intros a b. by rewrite !Rplus_0_r. }
  unfold forEach. induction (objects st) as [|r l IH]; simpl.
  { exists 0%R, 0%R. intros a b. by rewrite !Rplus_0_r. }
  destruct IH as (gx & gy & IH).
  destruct (heap st !! r) as [hole|].
  - destruct (gravityFrom_adds hole obj) as (g1 & g2 & Hg).
    exists (g1 + gx)%R, (g2 + gy)%R. intros a b.
    by rewrite Hg, IH, !Rplus_assoc.
  - by exists gx, gy.
Qed.

(** X13. In exact arithmetic: the physics pass never resets the force an
    object carries.  The holes pull with a force [(gx, gy)] that depends
    on where the object is, not on the force it carries, and the step of
    a live object leaves it with the force it had plus that pull; so on a
    ball, whose force nothing else writes, the pulls of successive frames
    add up. *)
Theorem gravity_accumulates (h : Host R) r obj (st : State R) :
  heap st !! r = Some obj -> Obj.live obj = true ->
  exists gx gy,
    (forall a b,
       applyGravity st (set_force a b obj) = set_force (a + gx)%R (b + gy)%R obj) /\
    exists o',
      heap (physicsStep h r st) !! r = Some o' /\
      Obj.fx o' = (Obj.fx obj + gx)%R /\ Obj.fy o' = (Obj.fy obj + gy)%R.
Proof.
  intros Hr Hl. destruct (applyGravity_adds st obj) as (gx & gy & Hg).
  exists gx, gy. split; [exact Hg|].
  rewrite (physicsStep_bounds h r obj st Hr Hl).
  set (moved := integrate (deltaTime st) (applyGravity st obj)).
  destruct (keepInBounds_lookup h r r moved (store r moved st)) as (b & Hb).
  { apply lookup_store_eq. by eapply lookup_lt_Some. }
  exists (set_live b moved). split; [exact Hb|].
  assert (Hobj : applyGravity st obj
                 = set_force (Obj.fx obj + gx)%R (Obj.fy obj + gy)%R obj).
  { rewrite <- Hg. by destruct obj. }
  subst moved.
  change (Obj.fx (set_live b ?o)) with (Obj.fx o).
  change (Obj.fy (set_live b ?o)) with (Obj.fy o).
  destruct (integrate_force (deltaTime st) (applyGravity st obj)) as [-> ->].
  by rewrite Hobj.
Qed.

Lemma gravity_accumulates_witness :
  exists gx gy,
    (forall a b,
       applyGravity Scenario.orbit (set_force a b Scenario.satellite)
       = set_force (a + gx)%R (b + gy)%R Scenario.satellite) /\
    exists o',
      heap (physicsStep Scenario.hostR 1 Scenario.orbit) !! 1 = Some o' /\
      Obj.fx o' = (0 + gx)%R /\ Obj.fy o' = (0 + gy)%R.
Proof.
  apply (gravity_accumulates Scenario.hostR 1 Scenario.satellite
           Scenario.orbit); reflexivity.
Defined.

(** ** Instances on the concrete frames *)

Lemma handleCollision_separating_witness :
  out (handleCollision 0 1 (ofZ 20) (ofZ 0) (ofZ 20) Scenario.separating) = []
  /\ isLive (handleCollision 0 1 (ofZ 20) (ofZ 0) (ofZ 20) Scenario.separating)
            0 = true.
Proof.
  destruct (handleCollision_separating 0 1
              (Scenario.object ROCKET 400 300 (-1) 0)
              (Scenario.object HOLE 420 300 0 0)
              (ofZ 20) (ofZ 0) (ofZ 20) Scenario.separating)
    as (Ho & _ & _ & Hl); [lia|reflexivity|reflexivity|by vm_compute|].
  split; [exact Ho|]. by rewrite Hl.
Defined.

Lemma wall_death_in_frame_witness :
  isLive (checkCollisions (updatePhysics Scenario.host Scenario.atWall)) 1
  = false.
Proof.
  apply (wall_death_in_frame Scenario.host [0] 1 [2; 3]
           (Scenario.object BALL_LARGE 10 300 0 0) Scenario.atWall);
    [reflexivity|by vm_compute|reflexivity|done|by vm_compute].
Defined.

Lemma gameLoop_keeps_ahead_witness :
  exists st', gameLoop Scenario.host (ofZ 1) Scenario.crossing = Some st' /\
    (score st' < nextLifeAt st')%Z.
Proof.
  destruct (gameLoop Scenario.host (ofZ 1) Scenario.crossing) as [st'|] eqn:E;
    [|by vm_compute in E].
  exists st'. split; [done|].
  apply (gameLoop_keeps_ahead Scenario.host (ofZ 1) Scenario.crossing st' E).
  simpl. lia.
Defined.

(** ** What a frame leaves alone *)

(** *** Fields that only the spawn and the rules check write *)

Section Untouched.
Context {T : Type} `{JsNum T} {A : Type}.
Variable p : State T -> A.
Hypothesis p_heap : forall hp s, p (set_heap hp s) = p s.
Hypothesis p_score : forall n s, p (set_score n s) = p s.
Hypothesis p_lives : forall n s, p (set_lives n s) = p s.
Hypothesis p_next : forall n s, p (set_nextLifeAt n s) = p s.
Hypothesis p_play : forall c s, p (playSound c s) = p s.
Hypothesis p_boom : forall ex ey c s, p (createExplosion ex ey c s) = p s.
Hypothesis p_life :
  forall a b c d s, p (emit (extraLife a b c d) s) = p s.
Hypothesis p_update : forall a b c s, p (emit (scoreUpdate a b c) s) = p s.

Lemma untouched_store r o st : p (store r o st) = p st.
Proof using p_heap. apply p_heap. Qed.

Lemma untouched_playSound c st : p (playSound c st) = p st.
Proof using p_play. apply p_play. Qed.

Lemma untouched_createExplosion ex ey c st :
  p (createExplosion ex ey c st) = p st.
Proof using p_boom. apply p_boom. Qed.

Lemma untouched_checkExtraLife st : p (checkExtraLife st) = p st.
Proof using p_lives p_next p_play p_life p_update.
  unfold checkExtraLife.
  destruct (_ >=? _)%Z;
    by rewrite p_update, ?p_life, ?p_play, ?p_next, ?p_lives.
Qed.

Lemma untouched_forEach {B} (f : B -> State T -> State T) l :
  (forall a s, p (f a s) = p s) -> forall s, p (forEach f l s) = p s.
Proof.
  intros Hf. unfold forEach.
  induction l as [|a l IH]; intros s; simpl; [done|]. by rewrite IH, Hf.
Qed.

Lemma untouched_processInput h st : p (processInput h st) = p st.
Proof using p_heap.
  unfold processInput. generalize 0 as i. generalize (rockets st) as l.
  intros l. revert st.
  induction l as [|r l IH]; intros st i; simpl; [done|]. rewrite IH.
  destruct (heap st !! r) as [rocket|]; [|done].
  destruct (negb _); [done|]. apply untouched_store.
Qed.

Lemma untouched_keepInBounds h r st : p (keepInBounds h r st) = p st.
Proof using p_heap p_score p_lives p_next p_play p_boom p_life p_update.
  unfold keepInBounds. destruct (heap st !! r) as [obj|]; [|done].
  cbv zeta. destruct (_ || _ || _ || _); [|done].
  destruct (isKind (Obj.type obj) HOLE); [done|].
  rewrite untouched_createExplosion.
  destruct (isKind (Obj.type obj) ROCKET); rewrite untouched_playSound;
    destruct (Obj.type obj);
    by rewrite ?untouched_checkExtraLife, ?p_score, untouched_store.
Qed.

Lemma untouched_physicsStep h r st : p (physicsStep h r st) = p st.
Proof using p_heap p_score p_lives p_next p_play p_boom p_life p_update.
  unfold physicsStep. destruct (heap st !! r) as [obj|]; [|done].
  destruct (negb _); [done|].
  by rewrite untouched_keepInBounds, untouched_store.
Qed.

Lemma untouched_handleSpecialCollisions r1 r2 st :
  p (handleSpecialCollisions r1 r2 st) = p st.
Proof using p_heap p_score p_lives p_next p_play p_boom p_life p_update.
  unfold handleSpecialCollisions.
  destruct (heap st !! r1) as [obj1|]; [|done].
  destruct (heap st !! r2) as [obj2|]; [|done].
  destruct (_ || _).
  - destruct (isBall (Obj.type obj1)).
    + rewrite untouched_playSound, untouched_checkExtraLife.
      destruct (Obj.type obj1); by rewrite ?p_score, untouched_store.
    + rewrite untouched_playSound, untouched_checkExtraLife.
      destruct (Obj.type obj2); by rewrite ?p_score, untouched_store.
  - destruct (_ || _); [|done].
    destruct (isKind (Obj.type obj1) ROCKET);
      by rewrite untouched_createExplosion, untouched_playSound,
           untouched_store.
Qed.

Lemma untouched_handleCollision r1 r2 dx dy distance st :
  p (handleCollision r1 r2 dx dy distance st) = p st.
Proof using p_heap p_score p_lives p_next p_play p_boom p_life p_update.
  unfold handleCollision.
  destruct (heap st !! r1) as [obj1|]; [|done].
  destruct (heap st !! r2) as [obj2|]; [|done].
  cbv zeta. destruct (nltb _ _).
  - by rewrite !untouched_store.
  - by rewrite untouched_playSound, untouched_handleSpecialCollisions,
         !untouched_store.
Qed.

Lemma untouched_collidePair r1 r2 st : p (collidePair r1 r2 st) = p st.
Proof using p_heap p_score p_lives p_next p_play p_boom p_life p_update.
  unfold collidePair.
  destruct (heap st !! r1) as [obj1|]; [|done].
  destruct (heap st !! r2) as [obj2|]; [|done].
  destruct (_ || _); [done|]. cbv zeta. destruct (nltb _ _); [|done].
  apply untouched_handleCollision.
Qed.

Lemma untouched_checkCollisions st : p (checkCollisions st) = p st.
Proof using p_heap p_score p_lives p_next p_play p_boom p_life p_update.
  unfold checkCollisions. generalize (objects st) as l. intros l. revert st.
  induction l as [|r1 rest IH]; intros st; simpl; [done|].
  rewrite IH. apply untouched_forEach. intros.
  apply untouched_collidePair.
Qed.

(** The three passes of a frame leave the field. *)
Lemma untouched_passes h st :
  p (checkCollisions (updatePhysics h (processInput h st))) = p st.
Proof using p_heap p_score p_lives p_next p_play p_boom p_life p_update.
  rewrite untouched_checkCollisions. unfold updatePhysics.
  rewrite (untouched_forEach (physicsStep h));
    [|intros; apply untouched_physicsStep].
  apply untouched_processInput.
Qed.

End Untouched.

Section Kinds.
Context {T : Type} `{JsNum T}.

Lemma rockets_simulate h delta (st : State T) :
  rockets (simulate h delta st) = rockets st.
Proof.
  unfold simulate, updateObjects.
  change (rockets (set_objects ?l ?s)) with (rockets s).
  by rewrite (untouched_passes rockets).
Qed.

(** *** The kind of an object never changes *)

Lemma sameKinds_refl (st : State T) : sameKinds st st.
Proof. by intros q. Qed.

Lemma sameKinds_trans (st1 st2 st3 : State T) :
  sameKinds st1 st2 -> sameKinds st2 st3 -> sameKinds st1 st3.
Proof. intros H12 H23 q. by rewrite H23, H12. Qed.

Lemma sameKinds_heap (st st' : State T) :
  heap st' = heap st -> sameKinds st st'.
Proof. intros E q. by rewrite E. Qed.

Lemma sameKinds_store r o o' (st : State T) :
  heap st !! r = Some o -> Obj.type o' = Obj.type o ->
  sameKinds st (store r o' st).
Proof.
  intros Hr Ht q. destruct (decide (r = q)) as [<-|Hne].
  - rewrite lookup_store_eq by (by eapply lookup_lt_Some).
    rewrite Hr. simpl. by rewrite Ht.
  - by rewrite lookup_store_ne.
Qed.

Lemma sameKinds_forEach {A} (f : A -> State T -> State T) l :
  (forall a s, sameKinds s (f a s)) -> forall s, sameKinds s (forEach f l s).
Proof.
  intros Hf. unfold forEach.
  induction l as [|a l IH]; intros s; simpl; [apply sameKinds_refl|].
  eapply sameKinds_trans; [apply Hf|apply IH].
Qed.

Lemma steer_type c (rocket : GameObject T) :
  Obj.type (steer c rocket) = Obj.type rocket.
Proof. destruct c as [[] [] [] [] []]; reflexivity. Qed.

Lemma sameKinds_processInput h (st : State T) :
  sameKinds st (processInput h st).
Proof.
  unfold processInput. generalize 0 as i. generalize (rockets st) as l.
  intros l. revert st.
  induction l as [|r l IH]; intros st i; simpl; [apply sameKinds_refl|].
  eapply sameKinds_trans; [|apply IH].
  destruct (heap st !! r) as [rocket|] eqn:E; [|apply sameKinds_refl].
  destruct (negb _); [apply sameKinds_refl|].
  eapply sameKinds_store; [exact E|apply steer_type].
Qed.

(** A state whose heap is that of [st] with some [live] flags changed. *)
Lemma sameKinds_flags (st st' : State T) :
  (forall q o, heap st !! q = Some o ->
               exists b, heap st' !! q = Some (set_live b o)) ->
  length (heap st') = length (heap st) ->
  sameKinds st st'.
Proof.
  intros Hq Hlen q. destruct (heap st !! q) as [o|] eqn:E.
  - destruct (Hq q o E) as (b & ->). done.
  - apply lookup_ge_None in E. rewrite <- Hlen in E.
    apply lookup_ge_None in E. by rewrite E.
Qed.

Lemma sameKinds_keepInBounds h r (st : State T) :
  sameKinds st (keepInBounds h r st).
Proof.
  apply sameKinds_flags; [|apply length_heap_keepInBounds].
  intros q o. apply keepInBounds_lookup.
Qed.

Lemma sameKinds_physicsStep h r (st : State T) :
  sameKinds st (physicsStep h r st).
Proof.
  unfold physicsStep.
  destruct (heap st !! r) as [obj|] eqn:E; [|apply sameKinds_refl].
  destruct (negb _); [apply sameKinds_refl|].
  eapply sameKinds_trans; [|apply sameKinds_keepInBounds].
  eapply sameKinds_store; [exact E|].
  by destruct (moved_keeps st obj) as (-> & _ & _).
Qed.

Lemma sameKinds_handleSpecialCollisions r1 r2 (st : State T) :
  sameKinds st (handleSpecialCollisions r1 r2 st).
Proof.
  apply sameKinds_flags; [|apply length_heap_handleSpecialCollisions].
  intros q o. apply handleSpecialCollisions_lookup.
Qed.

Lemma sameKinds_handleCollision r1 r2 dx dy distance (st : State T) :
  sameKinds st (handleCollision r1 r2 dx dy distance st).
Proof.
  unfold handleCollision.
  destruct (heap st !! r1) as [obj1|] eqn:E1; [|apply sameKinds_refl].
  destruct (heap st !! r2) as [obj2|] eqn:E2; [|apply sameKinds_refl].
  cbv zeta.
  assert (Hst : forall o1 o2,
            Obj.type o1 = Obj.type obj1 -> Obj.type o2 = Obj.type obj2 ->
            sameKinds st (store r2 o2 (store r1 o1 st))).
  { intros o1 o2 Ht1 Ht2.
    eapply sameKinds_trans; [by apply (sameKinds_store r1 obj1 o1)|].
    destruct (decide (r1 = r2)) as [<-|Hne].
    - apply (sameKinds_store r1 o1 o2); [|congruence].
      apply lookup_store_eq. by eapply lookup_lt_Some.
    - apply (sameKinds_store r2 obj2 o2); [|done].
      by rewrite lookup_store_ne. }
  destruct (nltb _ _); [by apply Hst|].
  eapply sameKinds_trans; [|apply sameKinds_heap, heap_playSound].
  eapply sameKinds_trans; [|apply sameKinds_handleSpecialCollisions].
  by apply Hst.
Qed.

Lemma sameKinds_collidePair r1 r2 (st : State T) :
  sameKinds st (collidePair r1 r2 st).
Proof.
  unfold collidePair.
  destruct (heap st !! r1) as [obj1|]; [|apply sameKinds_refl].
  destruct (heap st !! r2) as [obj2|]; [|apply sameKinds_refl].
  destruct (_ || _); [apply sameKinds_refl|].
  cbv zeta. destruct (nltb _ _); [|apply sameKinds_refl].
  apply sameKinds_handleCollision.
Qed.

Lemma sameKinds_checkCollisions (st : State T) :
  sameKinds st (checkCollisions st).
Proof.
  unfold checkCollisions. generalize (objects st) as l. intros l. revert st.
  induction l as [|r1 rest IH]; intros st; simpl; [apply sameKinds_refl|].
  eapply sameKinds_trans; [|apply IH].
  apply sameKinds_forEach. intros. apply sameKinds_collidePair.
Qed.

Lemma sameKinds_simulate h delta (st : State T) :
  sameKinds st (simulate h delta st).
Proof.
  unfold simulate, updateObjects.
  eapply sameKinds_trans; [|by apply sameKinds_heap].
  eapply sameKinds_trans; [|apply sameKinds_checkCollisions].
  eapply sameKinds_trans;
    [|apply sameKinds_forEach; intros; apply sameKinds_physicsStep].
  eapply sameKinds_trans; [|apply sameKinds_processInput].
  by apply sameKinds_heap.
Qed.

End Kinds.

(** ** After the end of a level or of the game *)

Section Repeats.
Context {T : Type} `{JsNum T}.

Lemma filter_nil_iff {A} (f : A -> bool) l :
  List.filter f l = [] <-> Forall (fun a => f a = false) l.
Proof.
  induction l as [|a l IH]; simpl; [by split|].
  destruct (f a) eqn:E; split.
  - done.
  - intros Hall. inversion Hall; congruence.
  - intros Hl. constructor; [done|by apply IH].
  - intros Hall. inversion Hall; subst. by apply IH.
Qed.

Lemma Forall_filter_weaken {A} (P : A -> Prop) (f : A -> bool) l :
  Forall P l -> Forall P (List.filter f l).
Proof.
  induction 1 as [|a l Ha _ IH]; simpl; [done|].
  destruct (f a); [by constructor|done].
Qed.

Lemma objects_simulate h delta (st : State T) :
  objects (simulate h delta st)
  = List.filter (isLive (simulate h delta st)) (objects st).
Proof.
  unfold simulate at 1, updateObjects.
  change (objects (set_objects ?l ?s)) with l.
  rewrite (untouched_passes objects) by done. simpl objects.
  apply filter_ext. intros r. by apply isLive_heap.
Qed.

(** No ball comes to life during a frame. *)
Lemma aliveBalls_simulate h delta (st : State T) :
  aliveBalls st = [] -> aliveBalls (simulate h delta st) = [].
Proof.
  unfold aliveBalls. rewrite !filter_nil_iff, objects_simulate.
  intros Hall. apply Forall_filter_weaken.
  eapply Forall_impl; [exact Hall|]. intros r Hr. simpl in Hr.
  pose proof (sameKinds_simulate h delta st r) as Hk.
  pose proof (noRevival_simulate h delta st r) as Hn. unfold isLive in Hn.
  destruct (heap st !! r) as [o|], (heap (simulate h delta st) !! r) as [o'|];
    simpl in Hk; try done.
  inversion Hk as [Ht]. rewrite Ht.
  destruct (Obj.live o); simpl in Hr; [by rewrite Hr, andb_false_r|].
  by rewrite Hn.
Qed.

(** No rocket comes to life during a frame. *)
Lemma aliveRockets_simulate h delta (st : State T) :
  aliveRockets st = [] -> aliveRockets (simulate h delta st) = [].
Proof.
  unfold aliveRockets. rewrite !filter_nil_iff, rockets_simulate.
  intros Hall. eapply Forall_impl; [exact Hall|]. intros r.
  apply noRevival_simulate.
Qed.

(** X18. While no ball is alive every frame sends [levelComplete] again:
    a running frame that starts without a live ball sends it, just
    before the [scoreUpdate] that ends the frame (or before the
    [gameOver] of that frame), and leaves the game running; unless the
    rules check of the frame takes a life, the next frame starts without
    a live ball too. *)
Theorem levelComplete_repeats h delta (st st' : State T) :
  gameState st = Running -> aliveBalls st = [] ->
  gameLoop h delta st = Some st' ->
  gameState st' = Running /\
  (exists pre tail,
     out st' = pre ++ Emit (levelComplete (level st') (score st')) :: tail /\
     (tail = [Emit (scoreUpdate (score st') (level st') (lives st'))] \/
      tail = [Emit (gameOver (score st') (level st'));
              Emit (scoreUpdate (score st') (level st') (lives st'))])) /\
  (lives st' = lives (simulate h delta st) -> aliveBalls st' = []).
Proof.
  intros Eg Hballs Hloop. rewrite (gameLoop_simulate h delta st Eg) in Hloop.
  pose proof (aliveBalls_simulate h delta st Hballs) as Hb1.
  destruct (simulate_config h delta st) as (_ & _ & Hg1). rewrite Eg in Hg1.
  set (s1 := simulate h delta st) in *.
  unfold checkGameState in Hloop.
  assert (Hz : (length (aliveBalls s1) =? 0)%nat = true) by (by rewrite Hb1).
  rewrite Hz in Hloop.
  set (s2 := emit (levelComplete (level s1) (score s1)) s1) in *.
  destruct (length (aliveRockets s2) =? 0)%nat.
  - cbv zeta in Hloop. destruct (lives (set_lives _ _) <=? 0)%Z eqn:El.
    + simpl in Hloop. injection Hloop as <-.
      split; [done|]. split; [|done].
      exists (out s1). eexists. split; [|by right]. simpl.
      by rewrite <- !app_assoc.
    + destruct (restartLevel h (set_lives (lives s2 - 1) s2)) as [s3|] eqn:E3;
        simpl in Hloop; [|done].
      injection Hloop as <-.
      destruct (restartLevel_spec h _ (restartLevel_some h _ _ E3))
        as (s3' & E3' & Hg & Hl & Hs & Hv & _ & _ & Ho & _).
      rewrite E3 in E3'. inversion E3'; subst s3'; clear E3'.
      simpl in Hl, Hs, Hv, Ho. simpl.
      split; [done|]. split.
      * exists (out s1). eexists. split; [|by left].
        by rewrite Ho, Hl, Hs, <- app_assoc.
      * rewrite Hv. lia.
  - simpl in Hloop. injection Hloop as <-.
    split; [done|]. split; [|done].
    exists (out s1). eexists. split; [|by left]. simpl.
    by rewrite <- app_assoc.
Qed.

(** X19. The game does not stop by itself when it is over: a running
    frame that starts without a live rocket and ends with no life left
    has sent [gameOver] just before the [scoreUpdate] that ends the frame,
    and leaves the game running and without a live rocket; so the next
    frame takes another life and sends [gameOver] again, until somebody
    pauses or stops the engine. *)
Theorem gameOver_repeats h delta (st st' : State T) :
  gameState st = Running -> aliveRockets st = [] ->
  gameLoop h delta st = Some st' -> (lives st' <= 0)%Z ->
  gameState st' = Running /\ aliveRockets st' = [] /\
  lives st' = (lives (simulate h delta st) - 1)%Z /\
  exists pre,
    out st' = pre ++ [Emit (gameOver (score st') (level st'));
                      Emit (scoreUpdate (score st') (level st') (lives st'))].
Proof.
  intros Eg Hrk Hloop Hover.
  rewrite (gameLoop_simulate h delta st Eg) in Hloop.
  pose proof (aliveRockets_simulate h delta st Hrk) as Hr1.
  destruct (simulate_config h delta st) as (_ & _ & Hg1). rewrite Eg in Hg1.
  set (s1 := simulate h delta st) in *.
  unfold checkGameState in Hloop.
  set (s2 := if (length (aliveBalls s1) =? 0)%nat then _ else s1) in *.
  assert (H2 : aliveRockets s2 = [] /\ gameState s2 = Running /\
               lives s2 = lives s1).
  { unfold s2. destruct (length (aliveBalls s1) =? 0)%nat;
      (split; [exact Hr1|done]). }
  destruct H2 as (Hr2 & Hg2 & Hl2).
  assert (Hz : (length (aliveRockets s2) =? 0)%nat = true) by (by rewrite Hr2).
  rewrite Hz in Hloop. cbv zeta in Hloop.
  destruct (lives (set_lives _ _) <=? 0)%Z eqn:El.
  - simpl in Hloop. injection Hloop as <-.
    split; [exact Hg2|]. split; [exact Hr2|].
    split; [exact (f_equal (fun z => (z - 1)%Z) Hl2)|].
    eexists. simpl. by rewrite <- app_assoc.
  - destruct (restartLevel h (set_lives (lives s2 - 1) s2)) as [s3|] eqn:E3;
      simpl in Hloop; [|done].
    injection Hloop as <-.
    destruct (restartLevel_spec h _ (restartLevel_some h _ _ E3))
      as (s3' & E3' & _ & _ & _ & Hv & _).
    rewrite E3 in E3'. inversion E3'; subst s3'; clear E3'.
    simpl in Hv, Hover, El. apply Z.leb_gt in El. lia.
Qed.

End Repeats.

Lemma levelComplete_repeats_witness :
  exists st', gameLoop Scenario.host (ofZ 1) Scenario.cleared = Some st' /\
    gameState st' = Running /\ aliveBalls st' = [].
Proof.
  destruct (gameLoop Scenario.host (ofZ 1) Scenario.cleared) as [st'|] eqn:E;
    [|by vm_compute in E].
  exists st'. split; [done|].
  destruct (levelComplete_repeats Scenario.host (ofZ 1) Scenario.cleared st')
    as (Hg & _ & Hb); [reflexivity|reflexivity|exact E|].
  split; [exact Hg|]. apply Hb.
  revert E. vm_compute. by intros [= <-].
Defined.

Lemma gameOver_repeats_witness :
  exists st', gameLoop Scenario.host (ofZ 1) Scenario.lastLife = Some st' /\
    gameState st' = Running /\ aliveRockets st' = [] /\ lives st' = 0%Z.
Proof.
  destruct (gameLoop Scenario.host (ofZ 1) Scenario.lastLife) as [st'|] eqn:E;
    [|by vm_compute in E].
  exists st'. split; [done|].
  assert (Hl : lives st' = 0%Z).
  { revert E. vm_compute. by intros [= <-]. }
  destruct (gameOver_repeats Scenario.host (ofZ 1) Scenario.lastLife st')
    as (Hg & Hr & _); [reflexivity|reflexivity|exact E|lia|].
  split; [exact Hg|]. split; [exact Hr|exact Hl].
Defined.

(** ** The classic engine *)

(** *** Fields that the passes of the classic frame leave *)

Section ClassicUntouched.
Context {T : Type} `{JsNum T} `{JsSign T} {A : Type}.
Variable p : State T -> A.
Hypothesis p_heap : forall hp s, p (set_heap hp s) = p s.
Hypothesis p_score : forall n s, p (set_score n s) = p s.
Hypothesis p_play : forall c s, p (playSound c s) = p s.
Hypothesis p_boom : forall ex ey c s, p (createExplosion ex ey c s) = p s.

Lemma classic_untouched_processInput h st : p (processInput h st) = p st.
Proof using p_heap.
  unfold processInput. generalize 0 as i. generalize (rockets st) as l.
  intros l. revert st.
  induction l as [|r l IH]; intros st i; simpl; [done|]. rewrite IH.
  destruct (heap st !! r) as [rocket|]; [|done].
  destruct (negb _); [done|]. apply p_heap.
Qed.

Lemma classic_untouched_keepInBounds h r st :
  p (Classic.keepInBounds h r st) = p st.
Proof using p_heap p_play p_boom.
  unfold Classic.keepInBounds. destruct (heap st !! r) as [obj|]; [|done].
  cbv zeta. destruct (_ || _ || _ || _); [|done].
  destruct (isKind (Obj.type obj) ROCKET).
  - unfold store. by rewrite p_boom, p_play, p_heap.
  - apply p_heap.
Qed.

Lemma classic_untouched_physicsStep h r st :
  p (Classic.physicsStep h r st) = p st.
Proof using p_heap p_play p_boom.
  unfold Classic.physicsStep. destruct (heap st !! r) as [obj|]; [|done].
  destruct (negb _); [done|].
  rewrite classic_untouched_keepInBounds. apply p_heap.
Qed.

Lemma classic_untouched_handleCollision r1 r2 dx dy distance st :
  p (Classic.handleCollision r1 r2 dx dy distance st) = p st.
Proof using p_heap p_score p_play.
  unfold Classic.handleCollision.
  destruct (heap st !! r1) as [obj1|]; [|done].
  destruct (heap st !! r2) as [obj2|]; [|done].
  cbv zeta. unfold store. destruct (nltb _ _); [by rewrite !p_heap|].
  rewrite p_play. unfold Classic.handleSpecialCollisions.
  destruct (_ !! r1) as [o1|]; [|by rewrite !p_heap].
  destruct (_ !! r2) as [o2|]; [|by rewrite !p_heap].
  destruct (_ || _); [|by rewrite !p_heap].
  destruct (isKind (Obj.type o1) Classic.BALL);
    unfold store; by rewrite p_play, p_score, !p_heap.
Qed.

Lemma classic_untouched_collidePair r1 r2 st :
  p (Classic.collidePair r1 r2 st) = p st.
Proof using p_heap p_score p_play.
  unfold Classic.collidePair.
  destruct (heap st !! r1) as [obj1|]; [|done].
  destruct (heap st !! r2) as [obj2|]; [|done].
  destruct (_ || _); [done|]. cbv zeta. destruct (nltb _ _); [|done].
  apply classic_untouched_handleCollision.
Qed.

Lemma classic_untouched_checkCollisions st :
  p (Classic.checkCollisions st) = p st.
Proof using p_heap p_score p_play.
  unfold Classic.checkCollisions. generalize (objects st) as l. intros l.
  revert st.
  induction l as [|r1 rest IH]; intros st; simpl; [done|].
  rewrite IH. apply (untouched_forEach p). intros.
  apply classic_untouched_collidePair.
Qed.

Lemma classic_untouched_passes h st :
  p (Classic.checkCollisions (Classic.updatePhysics h (processInput h st)))
  = p st.
Proof using p_heap p_score p_play p_boom.
  rewrite classic_untouched_checkCollisions. unfold Classic.updatePhysics.
  rewrite (untouched_forEach p (Classic.physicsStep h));
    [|intros; apply classic_untouched_physicsStep].
  apply classic_untouched_processInput.
Qed.

End ClassicUntouched.

(** *** Spawning in the classic engine *)

Section ClassicSpawn.
Context {T : Type} `{JsNum T} `{JsSign T} {A : Type}.
Variable p : State T -> A.
Hypothesis p_heap : forall hp s, p (set_heap hp s) = p s.
Hypothesis p_objects : forall l s, p (set_objects l s) = p s.
Hypothesis p_rockets : forall l s, p (set_rockets l s) = p s.
Hypothesis p_balls : forall l s, p (set_balls l s) = p s.
Hypothesis p_rand : forall n s, p (set_randomCalls n s) = p s.

Lemma classic_spawn_createGameObject ty cx cy cvx cvy cp st :
  p (snd (Classic.createGameObject ty cx cy cvx cvy cp st)) = p st.
Proof using p_heap p_objects. simpl. by rewrite p_objects, p_heap. Qed.

Lemma classic_spawn_iter (f : State T -> State T) n st :
  (forall s, p (f s) = p s) -> p (Nat.iter n f st) = p st.
Proof. intros Hf. induction n as [|n IH]; simpl; [done|]. by rewrite Hf. Qed.

Lemma classic_spawn_initLevel h st st' :
  Classic.initLevel h st = Some st' -> p st' = p st.
Proof using p_heap p_objects p_rockets p_balls p_rand.
  unfold Classic.initLevel.
  destruct (Classic.createRockets st) as [st1|] eqn:E1; [|done].
  simpl. intros [= <-].
  assert (H1 : p st1 = p st).
  { eapply (forRange_some (fun s => p s = p st)); [|exact E1|done].
    intros j t t' Et Ht. unfold Classic.createRocket in Et.
    destruct (Classic.rocketPositions !! j); simpl in Et; [|done].
    injection Et as <-.
    by rewrite p_rockets, p_objects, p_heap. }
  assert (Hball : forall s, p (Classic.createBall h s) = p s).
  { intros s. unfold Classic.createBall. cbv zeta. simpl.
    by rewrite p_balls, p_objects, p_heap, p_rand. }
  assert (Hhole : forall s, p (Classic.createHole h s) = p s).
  { intros s. unfold Classic.createHole. cbv zeta.
    by rewrite classic_spawn_createGameObject, p_rand. }
  assert (Hbig : forall s, p (Classic.createBigBall h s) = p s).
  { intros s. unfold Classic.createBigBall. cbv zeta.
    by rewrite classic_spawn_createGameObject, p_rand. }
  assert (H2 : p (Classic.createBalls h st1) = p st1).
  { unfold Classic.createBalls. by apply classic_spawn_iter. }
  rewrite <- H1, <- H2. destruct (_ >? 1)%Z; [|done].
  unfold Classic.createSpecialObjects.
  set (s2 := Classic.createBalls h st1).
  set (s3 := if (level s2 >? 2)%Z then _ else s2).
  assert (H3 : p s3 = p s2).
  { subst s3. destruct (_ >? 2)%Z; [|done]. by apply classic_spawn_iter. }
  rewrite <- H3. destruct (_ >? 3)%Z; [|done]. by apply classic_spawn_iter.
Qed.

End ClassicSpawn.

Section ClassicFacts.
Context {T : Type} `{JsNum T} `{JsSign T}.

(** X20. The classic engine has no extra life: a frame never raises the
    lives (they stay, or fall by one when the rules check finds no live
    rocket), it leaves the threshold alone and it sends no [extraLife],
    whatever is scored. *)
Theorem classic_no_extra_life h delta (st st' : State T) :
  Classic.gameLoop h delta st = Some st' ->
  (lives st' = lives st \/ lives st' = (lives st - 1)%Z) /\
  nextLifeAt st' = nextLifeAt st /\
  extraLifeEvents (out st') = extraLifeEvents (out st).
Proof.
  unfold Classic.gameLoop.
  destruct (gameState st);
    [intros [= <-]; split; [by left|done]| |
     intros [= <-]; split; [by left|done]].
  cbv zeta.
  set (s0 := set_deltaTime _ st).
  set (s1 := updateObjects _).
  assert (Hl : lives s1 = lives st).
  { subst s1. unfold updateObjects.
    change (lives (set_objects ?l ?s)) with (lives s).
    by rewrite (classic_untouched_passes lives). }
  assert (Hn : nextLifeAt s1 = nextLifeAt st).
  { subst s1. unfold updateObjects.
    change (nextLifeAt (set_objects ?l ?s)) with (nextLifeAt s).
    by rewrite (classic_untouched_passes nextLifeAt). }
  assert (He : extraLifeEvents (out s1) = extraLifeEvents (out st)).
  { subst s1. unfold updateObjects.
    change (out (set_objects ?l ?s)) with (out s).
    rewrite (classic_untouched_passes (fun s => extraLifeEvents (out s)));
      try done.
    - intros c s. simpl. rewrite extraLifeEvents_app. simpl.
      by rewrite app_nil_r.
    - intros ex ey c s. simpl. rewrite extraLifeEvents_app. simpl.
      by rewrite app_nil_r. }
  clearbody s1. clear s0.
  unfold Classic.checkGameState.
  set (s2 := if (length (aliveBalls s1) =? 0)%nat then _ else s1).
  assert (H2 : lives s2 = lives st /\ nextLifeAt s2 = nextLifeAt st /\
               extraLifeEvents (out s2) = extraLifeEvents (out st)).
  { unfold s2. destruct (length (aliveBalls s1) =? 0)%nat; [|done].
    simpl. rewrite extraLifeEvents_app. simpl. by rewrite app_nil_r. }
  destruct H2 as (Hl2 & Hn2 & He2). clearbody s2.
  destruct (length (aliveRockets s2) =? 0)%nat.
  - cbv zeta. destruct (_ <=? 0)%Z.
    + simpl. intros [= <-]. simpl.
      rewrite !extraLifeEvents_app. simpl. rewrite !app_nil_r.
      split; [right; lia|done].
    + unfold Classic.restartLevel.
      destruct (Classic.initLevel h _) as [s3|] eqn:E3; simpl; [|done].
      intros [= <-]. simpl.
      rewrite extraLifeEvents_app. simpl. rewrite app_nil_r.
      assert (Hl3 : lives s3 = lives (clearGame (set_lives (lives s2 - 1) s2)))
        by (by apply (classic_spawn_initLevel lives) with (h := h)).
      assert (Hn3 : nextLifeAt s3
                    = nextLifeAt (clearGame (set_lives (lives s2 - 1) s2)))
        by (by apply (classic_spawn_initLevel nextLifeAt) with (h := h)).
      assert (He3 : extraLifeEvents (out s3)
                    = extraLifeEvents
                        (out (clearGame (set_lives (lives s2 - 1) s2))))
        by (by apply (classic_spawn_initLevel
                        (fun s => extraLifeEvents (out s))) with (h := h)).
      simpl in Hl3, Hn3, He3. rewrite Hl3, Hn3, He3.
      split; [right; lia|done].
  - simpl. intros [= <-]. simpl.
    rewrite extraLifeEvents_app. simpl. rewrite app_nil_r.
    split; [left; lia|done].
Qed.

(** *** Who can die in the classic engine *)

Lemma spares_refl (st : State T) : spares st st.
Proof. by intros q. Qed.

Lemma spares_trans (st1 st2 st3 : State T) :
  spares st1 st2 -> spares st2 st3 -> spares st1 st3.
Proof. intros H12 H23 q. by rewrite H23, H12. Qed.

Lemma spares_heap (st st' : State T) : heap st' = heap st -> spares st st'.
Proof. intros E q. by rewrite E. Qed.

Lemma spares_store r o o' (st : State T) :
  heap st !! r = Some o -> Obj.type o' = Obj.type o ->
  classicMortal (Obj.type o) || Obj.live o'
  = classicMortal (Obj.type o) || Obj.live o ->
  spares st (store r o' st).
Proof.
  intros Hr Ht Hl q. destruct (decide (r = q)) as [<-|Hne].
  - rewrite lookup_store_eq by (by eapply lookup_lt_Some).
    rewrite Hr. simpl. by rewrite Ht, Hl.
  - by rewrite lookup_store_ne.
Qed.

Lemma spares_forEach {B} (f : B -> State T -> State T) l :
  (forall a s, spares s (f a s)) -> forall s, spares s (forEach f l s).
Proof.
  intros Hf. unfold forEach.
  induction l as [|a l IH]; intros s; simpl; [apply spares_refl|].
  eapply spares_trans; [apply Hf|apply IH].
Qed.

Lemma spares_processInput h (st : State T) : spares st (processInput h st).
Proof.
  unfold processInput. generalize 0 as i. generalize (rockets st) as l.
  intros l. revert st.
  induction l as [|r l IH]; intros st i; simpl; [apply spares_refl|].
  eapply spares_trans; [|apply IH].
  destruct (heap st !! r) as [rocket|] eqn:E; [|apply spares_refl].
  destruct (negb _); [apply spares_refl|].
  eapply spares_store; [exact E|apply steer_type|by rewrite steer_live].
Qed.

Lemma spares_keepInBounds h r (st : State T) :
  spares st (Classic.keepInBounds h r st).
Proof.
  unfold Classic.keepInBounds.
  destruct (heap st !! r) as [obj|] eqn:E; [|apply spares_refl].
  cbv zeta. destruct (_ || _ || _ || _); [|apply spares_refl].
  destruct (isKind (Obj.type obj) ROCKET) eqn:Ek.
  - eapply spares_trans; [|by apply spares_heap].
    apply (spares_store r obj); [done|done|].
    unfold classicMortal. by rewrite Ek.
  - apply (spares_store r obj); [done| |];
      by destruct (nltb _ _), (nltb _ _), (nltb _ _), (nltb _ _).
Qed.

Lemma spares_physicsStep h r (st : State T) :
  spares st (Classic.physicsStep h r st).
Proof.
  unfold Classic.physicsStep.
  destruct (heap st !! r) as [obj|] eqn:E; [|apply spares_refl].
  destruct (negb _); [apply spares_refl|].
  eapply spares_trans; [|apply spares_keepInBounds].
  destruct (integrate_keeps (deltaTime st) obj) as (Ht & _ & Hl).
  apply (spares_store r obj); [done|done|by rewrite Hl].
Qed.

Lemma spares_handleSpecialCollisions r1 r2 (st : State T) :
  spares st (Classic.handleSpecialCollisions r1 r2 st).
Proof.
  unfold Classic.handleSpecialCollisions.
  destruct (heap st !! r1) as [obj1|] eqn:E1; [|apply spares_refl].
  destruct (heap st !! r2) as [obj2|] eqn:E2; [|apply spares_refl].
  destruct (_ || _) eqn:Ec; [|apply spares_refl].
  eapply spares_trans; [|by apply spares_heap].
  destruct (isKind (Obj.type obj1) Classic.BALL) eqn:Ek.
  - apply (spares_store r1 obj1); [done|done|].
    unfold classicMortal. by rewrite Ek, orb_true_r.
  - simpl in Ec. rewrite andb_true_iff in Ec. destruct Ec as [Ek2 _].
    apply (spares_store r2 obj2); [done|done|].
    unfold classicMortal. by rewrite Ek2, orb_true_r.
Qed.

Lemma spares_handleCollision r1 r2 dx dy distance (st : State T) :
  spares st (Classic.handleCollision r1 r2 dx dy distance st).
Proof.
  unfold Classic.handleCollision.
  destruct (heap st !! r1) as [obj1|] eqn:E1; [|apply spares_refl].
  destruct (heap st !! r2) as [obj2|] eqn:E2; [|apply spares_refl].
  cbv zeta.
  assert (Hst : forall o1 o2,
            Obj.type o1 = Obj.type obj1 -> Obj.live o1 = Obj.live obj1 ->
            Obj.type o2 = Obj.type obj2 -> Obj.live o2 = Obj.live obj2 ->
            spares st (store r2 o2 (store r1 o1 st))).
  { intros o1 o2 Ht1 Hl1 Ht2 Hl2.
    eapply spares_trans;
      [apply (spares_store r1 obj1 o1); [done|done|by rewrite Hl1]|].
    destruct (decide (r1 = r2)) as [<-|Hne].
    - apply (spares_store r1 o1 o2).
      + apply lookup_store_eq. by eapply lookup_lt_Some.
      + congruence.
      + assert (obj2 = obj1) as -> by congruence. by rewrite Hl1, Hl2.
    - apply (spares_store r2 obj2 o2); [|done|by rewrite Hl2].
      by rewrite lookup_store_ne. }
  destruct (nltb _ _); [by apply Hst|].
  eapply spares_trans; [|by apply spares_heap].
  eapply spares_trans; [|apply spares_handleSpecialCollisions].
  by apply Hst.
Qed.

Lemma spares_collidePair r1 r2 (st : State T) :
  spares st (Classic.collidePair r1 r2 st).
Proof.
  unfold Classic.collidePair.
  destruct (heap st !! r1) as [obj1|]; [|apply spares_refl].
  destruct (heap st !! r2) as [obj2|]; [|apply spares_refl].
  destruct (_ || _); [apply spares_refl|].
  cbv zeta. destruct (nltb _ _); [|apply spares_refl].
  apply spares_handleCollision.
Qed.

Lemma spares_checkCollisions (st : State T) :
  spares st (Classic.checkCollisions st).
Proof.
  unfold Classic.checkCollisions. generalize (objects st) as l. intros l.
  revert st.
  induction l as [|r1 rest IH]; intros st; simpl; [apply spares_refl|].
  eapply spares_trans; [|apply IH].
  apply spares_forEach. intros. apply spares_collidePair.
Qed.

(** X21. In the classic engine only rockets and balls of type 2 can die:
    through the three passes of a frame (input, physics with the walls,
    collisions with the holes) an object of any other kind, a hole, a big
    ball or a ball of type 3, is as live as it was. *)
Theorem classic_casualties h q o (st : State T) :
  heap st !! q = Some o ->
  Obj.type o <> ROCKET -> Obj.type o <> Classic.BALL ->
  isLive
    (Classic.checkCollisions (Classic.updatePhysics h (processInput h st))) q
  = Obj.live o.
Proof.
  intros Hq Hr Hb.
  set (s' := Classic.checkCollisions _).
  assert (Hs : spares st s').
  { eapply spares_trans; [|apply spares_checkCollisions].
    eapply spares_trans; [apply spares_processInput|].
    apply spares_forEach. intros. apply spares_physicsStep. }
  specialize (Hs q). rewrite Hq in Hs. unfold isLive.
  destruct (heap s' !! q) as [o'|]; simpl in Hs; [|done].
  assert (Ht : Obj.type o' = Obj.type o) by congruence.
  assert (Hl : classicMortal (Obj.type o') || Obj.live o'
               = classicMortal (Obj.type o) || Obj.live o) by congruence.
  rewrite Ht in Hl.
  assert (Hm : classicMortal (Obj.type o) = false).
  { unfold classicMortal. by destruct (Obj.type o). }
  rewrite Hm in Hl. exact Hl.
Qed.

End ClassicFacts.

Lemma classic_no_extra_life_witness :
  exists st', Classic.gameLoop Scenario.host (ofZ 1) Scenario.crossing
              = Some st' /\
    score st' = 495%Z /\ lives st' = 3%Z /\ nextLifeAt st' = 500%Z.
Proof.
  destruct (Classic.gameLoop Scenario.host (ofZ 1) Scenario.crossing)
    as [st'|] eqn:E; [|by vm_compute in E].
  exists st'. split; [done|].
  destruct (classic_no_extra_life Scenario.host (ofZ 1) Scenario.crossing
              st' E) as (_ & Hn & _).
  split; [|split; [|exact Hn]]; revert E; vm_compute; by intros [= <-].
Defined.

Lemma classic_casualties_witness :
  isLive
    (Classic.checkCollisions
       (Classic.updatePhysics Scenario.host
          (processInput Scenario.host Scenario.crossing))) 1
  = true.
Proof.
  apply (classic_casualties Scenario.host 1
           (Scenario.object BALL_LARGE 400 300 1 0) Scenario.crossing);
    done.
Defined.

(** *** The bounce, in exact arithmetic *)

Lemma bounce_inwards (v : R) :
  (0 <= Rabs v * (8 / 10) /\ Rabs (Rabs v * (8 / 10)) <= Rabs v)%R.
Proof.
  pose proof (Rabs_pos v) as Hv.
  split; [lra|]. rewrite Rabs_right; lra.
Qed.

Lemma bounce_backwards (v : R) :
  (- Rabs v * (8 / 10) <= 0 /\ Rabs (- Rabs v * (8 / 10)) <= Rabs v)%R.
Proof.
  pose proof (Rabs_pos v) as Hv.
  split; [lra|]. rewrite Rabs_left1; lra.
Qed.

Ltac real_case t E :=
  destruct t eqn:E; [apply real_ltb_true in E|apply real_ltb_false in E].

(** X22. The wall of the classic engine, in exact arithmetic, on a screen
    at least as wide and as high as the object: the physics step of a live
    object that is not a rocket leaves it live and wholly on the screen
    (its centre at least one radius from every edge); along no axis is it
    faster than the integration left it; and where the integration had
    carried it beyond an edge, its velocity now points back into the
    screen. *)
Theorem classic_bounce (h : Host R) r obj (st : State R) :
  heap st !! r = Some obj -> Obj.live obj = true -> Obj.type obj <> ROCKET ->
  (2 * Obj.radius obj <= screenWidth h)%R ->
  (2 * Obj.radius obj <= screenHeight h)%R ->
  let moved := integrate (deltaTime st) obj in
  exists obj',
    heap (Classic.physicsStep h r st) !! r = Some obj' /\
    Obj.live obj' = true /\
    (Obj.radius obj <= Obj.x obj' <= screenWidth h - Obj.radius obj)%R /\
    (Obj.radius obj <= Obj.y obj' <= screenHeight h - Obj.radius obj)%R /\
    (Rabs (Obj.vx obj') <= Rabs (Obj.vx moved))%R /\
    (Rabs (Obj.vy obj') <= Rabs (Obj.vy moved))%R /\
    ((Obj.x moved < Obj.radius obj)%R -> (0 <= Obj.vx obj')%R) /\
    ((screenWidth h - Obj.radius obj < Obj.x moved)%R ->
     (Obj.vx obj' <= 0)%R) /\
    ((Obj.y moved < Obj.radius obj)%R -> (0 <= Obj.vy obj')%R) /\
    ((screenHeight h - Obj.radius obj < Obj.y moved)%R ->
     (Obj.vy obj' <= 0)%R).
Proof.
  intros Hr Hl Hk Hw Hh moved.
  destruct (integrate_keeps (deltaTime st) obj) as (Ht & Hrad & Hlive).
  fold moved in Ht, Hrad, Hlive.
  assert (Hlen : r < length (heap st)) by (by eapply lookup_lt_Some).
  unfold Classic.physicsStep. rewrite Hr, Hl. simpl negb. cbv iota zeta.
  fold moved. unfold Classic.keepInBounds.
  rewrite (lookup_store_eq r moved st Hlen). cbv zeta.
  rewrite Hrad, Ht.
  assert (Hnr : isKind (Obj.type obj) ROCKET = false)
    by (by destruct (Obj.type obj)).
  rewrite Hnr.
  cbv [nsub nmul nltb nabs nopp lit ndiv ofZ RealNum.real_num real_sign].
  pose proof (bounce_inwards (Obj.vx moved)) as [Bx1 Bx2].
  pose proof (bounce_backwards (Obj.vx moved)) as [Bx3 Bx4].
  pose proof (bounce_inwards (Obj.vy moved)) as [By1 By2].
  pose proof (bounce_backwards (Obj.vy moved)) as [By3 By4].
  rewrite <- Hlive in Hl.
  set (W := screenWidth h) in *. set (Hg := screenHeight h) in *.
  set (rad := Obj.radius obj) in *. clearbody moved.
  real_case (RealNum.ltb (Obj.x moved) rad) EL;
    real_case (RealNum.ltb (W - rad) (Obj.x moved)) ER;
    real_case (RealNum.ltb (Obj.y moved) rad) ET;
    real_case (RealNum.ltb (Hg - rad) (Obj.y moved)) EB;
    simpl orb; cbv iota;
    (eexists; split;
     [first [apply lookup_store_eq; by rewrite length_heap_store
            |apply lookup_store_eq; exact Hlen]|]);
    simpl; repeat split; try done; intros; lra.
Qed.

Lemma classic_bounce_witness :
  exists obj',
    heap (Classic.physicsStep Scenario.hostR 0 Scenario.leaving) !! 0
      = Some obj' /\
    Obj.live obj' = true /\ (8 <= Obj.x obj')%R /\ (0 <= Obj.vx obj')%R.
Proof.
  destruct (classic_bounce Scenario.hostR 0
              (Obj.mk BALL_SMALL 9%R 300%R (-3)%R 0%R 0%R 0%R 8%R 3%R true
                      (-1)) Scenario.leaving)
    as (o' & E & Hl & [Hx _] & _ & _ & _ & Hin & _);
    [reflexivity|reflexivity|done|simpl; lra|simpl; lra|].
  exists o'. split; [exact E|]. split; [exact Hl|]. split; [exact Hx|].
  apply Hin. simpl.
  cbv [nadd nsub nmul ndiv nsqrt nltb lit ofZ RealNum.real_num].
  replace (RealNum.ltb 6
     (sqrt ((-3 + 0 / 3 * 0) * (995 / 1000) * ((-3 + 0 / 3 * 0) * (995 / 1000))
            + (0 + 0 / 3 * 0) * (995 / 1000)
              * ((0 + 0 / 3 * 0) * (995 / 1000))))) with false.
  - simpl. lra.
  - symmetry. apply real_ltb_false.
    replace ((-3 + 0 / 3 * 0) * (995 / 1000) * ((-3 + 0 / 3 * 0) * (995 / 1000))
             + (0 + 0 / 3 * 0) * (995 / 1000)
               * ((0 + 0 / 3 * 0) * (995 / 1000)))%R
      with ((2985 / 1000) * (2985 / 1000))%R by lra.
    rewrite sqrt_square; lra.
Defined.

(** ** The input manager *)

Section InputFacts.

Lemma held_setKey_ne k b ks k' :
  k <> k' -> Input.held (Input.setKey k b ks) k' = Input.held ks k'.
Proof.
  intros Hne. unfold Input.setKey. destruct (decide (k = "__proto__"%string)); [done|].
  unfold Input.held. by rewrite lookup_insert_ne.
Qed.

Lemma held_setKey_eq k b ks :
  k <> "__proto__"%string -> Input.held (Input.setKey k b ks) k = b.
Proof.
  intros Hne. unfold Input.setKey. destruct (decide (k = "__proto__"%string)); [done|].
  unfold Input.held. by rewrite lookup_insert_eq.
Qed.

(** One event on an enabled manager whose schemes all have their controls
    object. *)
Lemma dispatch_enabled e im :
  Input.disabled im = false ->
  length (Input.controlSchemes im) <= length (Input.playerControls im) ->
  let ks :=
    match e with
    | Input.KeyDown k => Input.setKey k true (Input.keys im)
    | Input.KeyUp k => Input.setKey k false (Input.keys im)
    end in
  Input.dispatch e im =
  Some (Input.mk ks
          (map (Input.readScheme ks) (Input.controlSchemes im)
           ++ drop (length (Input.controlSchemes im)) (Input.playerControls im))
          (Input.controlSchemes im) false).
Proof.
  intros Hd Hlen.
  destruct e as [k|k]; simpl;
    unfold Input.handleKeyDown, Input.handleKeyUp, Input.updatePlayerControls;
    simpl; rewrite Hd; (destruct (decide _); [|lia]);
    unfold Input.set_playerControls; simpl; by rewrite Hd.
Qed.

Lemma isDown_cons key e evs before :
  Input.isDown key (e :: evs) before =
  Input.isDown key evs
    (match e with
     | Input.KeyDown k => if decide (k = key) then true else before
     | Input.KeyUp k => if decide (k = key) then false else before
     end).
Proof. reflexivity. Qed.

(** A run of events on an enabled manager: it does not throw, the keys
    are as their last events say, and after the first event the controls
    of every scheme are read off the keys. *)
Lemma dispatchAll_enabled evs : forall im,
  Input.disabled im = false ->
  length (Input.controlSchemes im) <= length (Input.playerControls im) ->
  exists im',
    Input.dispatchAll evs im = Some im' /\
    Input.disabled im' = false /\
    Input.controlSchemes im' = Input.controlSchemes im /\
    length (Input.playerControls im') = length (Input.playerControls im) /\
    (forall k, k <> "__proto__"%string ->
       Input.held (Input.keys im') k
       = Input.isDown k evs (Input.held (Input.keys im) k)) /\
    (evs <> [] ->
     take (length (Input.controlSchemes im)) (Input.playerControls im')
     = map (Input.readScheme (Input.keys im')) (Input.controlSchemes im)).
Proof.
  induction evs as [|e evs IH]; intros im Hd Hlen.
  { exists im. by repeat split. }
  simpl Input.dispatchAll. rewrite (dispatch_enabled e im Hd Hlen).
  cbv zeta. change (Some ?x ≫= ?f) with (f x). cbv beta.
  set (ks := match e with
             | Input.KeyDown k => Input.setKey k true (Input.keys im)
             | Input.KeyUp k => Input.setKey k false (Input.keys im)
             end).
  set (cs := map (Input.readScheme ks) (Input.controlSchemes im)
             ++ drop (length (Input.controlSchemes im))
                  (Input.playerControls im)).
  assert (Hcs : length cs = length (Input.playerControls im)).
  { subst cs. rewrite length_app, length_map, length_drop. lia. }
  set (im1 := Input.mk ks cs (Input.controlSchemes im) false).
  destruct (IH im1) as (im' & E & Hd' & Hs' & Hl' & Hk' & Hc');
    [done|simpl; lia|].
  exists im'. split; [exact E|]. split; [exact Hd'|].
  split; [exact Hs'|]. split; [by rewrite Hl'|]. split.
  - intros k Hk. rewrite (Hk' k Hk), isDown_cons. f_equal. simpl. subst ks.
    destruct e as [k0|k0]; destruct (decide (k0 = k)) as [->|Hne];
      by rewrite ?held_setKey_eq, ?held_setKey_ne.
  - intros _. destruct evs as [|e' evs'].
    + simpl in E. injection E as <-. simpl. subst cs.
      apply take_app_length'. by rewrite length_map.
    + by apply Hc'.
Qed.

(** X23. A control is on exactly while its key is held: after any run of
    [keydown] and [keyup] events on a new input manager (which does not
    throw), each of the five controls of each of the five players is on
    if and only if the last event of its key was a [keydown]. *)
Theorem controls_follow_keys evs i s :
  Input.defaultSchemes !! i = Some s ->
  exists im,
    Input.dispatchAll evs Input.new = Some im /\
    Input.getPlayerControls (Z.of_nat i) im =
    Ctl.mk (Input.isDown (Keys.up s) evs false)
           (Input.isDown (Keys.down s) evs false)
           (Input.isDown (Keys.left s) evs false)
           (Input.isDown (Keys.right s) evs false)
           (Input.isDown (Keys.brake s) evs false).
Proof.
  intros Hs.
  destruct (dispatchAll_enabled evs Input.new)
    as (im & E & _ & _ & Hl & Hk & Hc); [done|simpl; lia|].
  exists im. split; [exact E|].
  assert (Hi : i < 5).
  { apply lookup_lt_Some in Hs. simpl in Hs. lia. }
  assert (Hget : Input.getPlayerControls (Z.of_nat i) im
                 = default Input.noControls (Input.playerControls im !! i)).
  { unfold Input.getPlayerControls. rewrite Hl, Nat2Z.id.
    change (length (Input.playerControls Input.new)) with 5.
    assert (H1 : (Z.of_nat i <? 0)%Z = false) by (apply Z.ltb_ge; lia).
    assert (H2 : (Z.of_nat i >=? Z.of_nat 5)%Z = false).
    { rewrite Z.geb_leb. apply Z.leb_gt. lia. }
    by rewrite H1, H2. }
  rewrite Hget.
  destruct evs as [|e evs'].
  { simpl in E. injection E as <-.
    do 5 (destruct i as [|i]; [by injection Hs as <-|]). lia. }
  specialize (Hc ltac:(done)). simpl length in Hc, Hl.
  rewrite firstn_all2 in Hc by (rewrite Hl; lia).
  rewrite Hc. simpl Input.controlSchemes.
  rewrite list_lookup_fmap, Hs. simpl. unfold Input.readScheme.
  do 5 (destruct i as [|i];
        [injection Hs as <-; simpl; by rewrite !Hk|]).
  lia.
Qed.

(** X24. While the manager is disabled no key reaches the game: after
    [disable()] and any run of key events (which does not throw) the
    controls of every player, in range or not, are all off.  The keys are
    recorded all the same: a key is reported pressed as its last event
    says. *)
Theorem disabled_ignores_keys evs im :
  exists im',
    Input.dispatchAll evs (Input.disable im) = Some im' /\
    Input.disabled im' = true /\
    (forall playerId, Input.getPlayerControls playerId im' = Input.noControls)
    /\
    (forall k, k <> "__proto__"%string ->
       Input.isKeyPressed k im'
       = Input.isDown k evs (bool_decide (k ∈ Input.inherited))).
Proof.
  assert (Hrun : forall evs im0,
            Input.disabled im0 = true ->
            Forall (fun c => c = Input.noControls) (Input.playerControls im0) ->
            exists im',
              Input.dispatchAll evs im0 = Some im' /\
              Input.disabled im' = true /\
              Forall (fun c => c = Input.noControls)
                     (Input.playerControls im') /\
              forall k, k <> "__proto__"%string ->
                Input.held (Input.keys im') k
                = Input.isDown k evs (Input.held (Input.keys im0) k)).
  { clear. induction evs as [|e evs IH]; intros im0 Hd Hall.
    { exists im0. by repeat split. }
    simpl Input.dispatchAll.
    set (ks := match e with
               | Input.KeyDown k => Input.setKey k true (Input.keys im0)
               | Input.KeyUp k => Input.setKey k false (Input.keys im0)
               end).
    assert (E1 : Input.dispatch e im0 = Some (Input.set_keys ks im0)).
    { destruct e; simpl;
        unfold Input.handleKeyDown, Input.handleKeyUp,
          Input.updatePlayerControls; simpl; by rewrite Hd. }
    rewrite E1. change (Some ?x ≫= ?f) with (f x). cbv beta.
    destruct (IH (Input.set_keys ks im0)) as (im' & E & Hd' & Hall' & Hk');
      [done|done|].
    exists im'. split; [exact E|]. split; [exact Hd'|].
    split; [exact Hall'|].
    intros k Hk. rewrite (Hk' k Hk), isDown_cons. f_equal. simpl. subst ks.
    destruct e as [k0|k0]; destruct (decide (k0 = k)) as [->|Hne];
      by rewrite ?held_setKey_eq, ?held_setKey_ne. }
  destruct (Hrun evs (Input.disable im)) as (im' & E & Hd & Hall & Hk).
  { done. }
  { simpl. apply Forall_replicate. done. }
  exists im'. split; [exact E|]. split; [exact Hd|]. split.
  - intros playerId. unfold Input.getPlayerControls.
    destruct (_ || _); [done|].
    destruct (Input.playerControls im' !! Z.to_nat playerId) as [c|] eqn:Ec;
      [|done].
    simpl. by apply (Forall_lookup_1 _ _ _ _ Hall Ec).
  - intros k Hne. unfold Input.isKeyPressed. by rewrite (Hk k Hne).
Qed.

(** X25. A key that belongs to no control scheme changes no control: on
    an enabled manager that has just handled an event, a further event
    of such a key is handled without throwing and leaves the controls of
    all players as they are. *)
Theorem non_game_key_ignored e e' im im1 :
  Input.disabled im = false ->
  Input.dispatch e im = Some im1 ->
  Input.isGameKey
    (match e' with Input.KeyDown k => k | Input.KeyUp k => k end) im = false ->
  exists im2,
    Input.dispatch e' im1 = Some im2 /\
    Input.playerControls im2 = Input.playerControls im1.
Proof.
  intros Hd E Hng.
  assert (Hlen : length (Input.controlSchemes im)
                 <= length (Input.playerControls im)).
  { destruct e; simpl in E;
      unfold Input.handleKeyDown, Input.handleKeyUp,
        Input.updatePlayerControls in E; simpl in E; rewrite Hd in E;
      by destruct (decide _). }
  rewrite (dispatch_enabled e im Hd Hlen) in E. cbv zeta in E.
  injection E as <-.
  set (ks := match e with
             | Input.KeyDown k => Input.setKey k true (Input.keys im)
             | Input.KeyUp k => Input.setKey k false (Input.keys im)
             end).
  set (n := length (Input.controlSchemes im)).
  set (cs := map (Input.readScheme ks) (Input.controlSchemes im)
             ++ drop n (Input.playerControls im)).
  assert (Hcs : length cs = length (Input.playerControls im)).
  { subst cs n. rewrite length_app, length_map, length_drop. lia. }
  rewrite dispatch_enabled; [|done|simpl; fold n; lia].
  cbv zeta. simpl. eexists. split; [reflexivity|]. simpl. fold n.
  set (ks' := match e' with
              | Input.KeyDown k => Input.setKey k true ks
              | Input.KeyUp k => Input.setKey k false ks
              end).
  assert (Hdrop : drop n cs = drop n (Input.playerControls im)).
  { subst cs. apply drop_app_length'. subst n. by rewrite length_map. }
  rewrite Hdrop. subst cs. f_equal.
  apply map_ext_in. intros s Hin.
  unfold Input.isGameKey in Hng.
  assert (Hs : bool_decide
                 ((match e' with Input.KeyDown k => k | Input.KeyUp k => k end)
                  ∈ [Keys.up s; Keys.down s; Keys.left s; Keys.right s;
                     Keys.brake s]) = false).
  { destruct (bool_decide _) eqn:Eb; [|done].
    assert (Hex : existsb (fun s0 => bool_decide
              ((match e' with Input.KeyDown k => k | Input.KeyUp k => k end)
               ∈ [Keys.up s0; Keys.down s0; Keys.left s0; Keys.right s0;
                  Keys.brake s0])) (Input.controlSchemes im) = true).
    { apply existsb_exists. by exists s. }
    congruence. }
  apply bool_decide_eq_false in Hs.
  rewrite !not_elem_of_cons in Hs.
  destruct Hs as (H1 & H2 & H3 & H4 & H5 & _).
  unfold Input.readScheme. subst ks'.
  destruct e' as [k|k]; by rewrite !held_setKey_ne.
Qed.

Lemma controls_follow_keys_witness :
  exists im,
    Input.dispatchAll
      [Input.KeyDown "w"; Input.KeyDown "d"; Input.KeyUp "w"]%string
      Input.new = Some im /\
    Input.getPlayerControls 1 im = Ctl.mk false false false true false.
Proof.
  destruct (controls_follow_keys
              [Input.KeyDown "w"; Input.KeyDown "d"; Input.KeyUp "w"]%string
              1 (Keys.mk "w" "s" "a" "d" "Shift")%string eq_refl)
    as (im & E & Hc).
  exists im. split; [exact E|]. exact Hc.
Defined.

Lemma non_game_key_ignored_witness :
  exists im1 im2,
    Input.dispatch (Input.KeyDown "w"%string) Input.new = Some im1 /\
    Input.dispatch (Input.KeyDown "x"%string) im1 = Some im2 /\
    Input.playerControls im2 = Input.playerControls im1.
Proof.
  destruct (Input.dispatch (Input.KeyDown "w"%string) Input.new)
    as [im1|] eqn:E; [|by vm_compute in E].
  destruct (non_game_key_ignored (Input.KeyDown "w"%string)
              (Input.KeyDown "x"%string) Input.new im1 eq_refl E eq_refl)
    as (im2 & E2 & Hc).
  exists im1, im2. split; [reflexivity|]. split; [exact E2|exact Hc].
Defined.

(** ** The direction a player steers in *)

Lemma real_eqb_true (a b : R) : RealNum.eqb a b = true <-> a = b.
Proof. unfold RealNum.eqb. destruct (Req_dec_T a b); split; done. Qed.

Lemma real_eqb_false (a b : R) : RealNum.eqb a b = false <-> a <> b.
Proof. unfold RealNum.eqb. destruct (Req_dec_T a b); split; done. Qed.

Lemma unit_vector (x y : R) :
  x <> 0%R -> y <> 0%R ->
  (x / sqrt (x * x + y * y) * (x / sqrt (x * x + y * y))
   + y / sqrt (x * x + y * y) * (y / sqrt (x * x + y * y)) = 1)%R.
Proof.
  intros Hx Hy.
  assert (Hpos : (0 < x * x + y * y)%R) by nra.
  set (d := sqrt (x * x + y * y)).
  assert (Hd : (0 < d)%R) by (by apply sqrt_lt_R0).
  assert (Hdd : (d * d = x * x + y * y)%R) by (apply sqrt_sqrt; lra).
  transitivity ((x * x + y * y) / (d * d))%R; [field; lra|].
  rewrite <- Hdd. field. lra.
Qed.

(** X26. In exact arithmetic the movement vector of a player is the zero
    vector or a unit vector, whatever keys are held: opposite keys cancel,
    one axis alone gives length one, and a diagonal is normalised. *)
Theorem movement_vector_normalised playerId im :
  let v := Input.getPlayerMovementVector (T := R) playerId im in
  (fst v * fst v + snd v * snd v = 0 \/ fst v * fst v + snd v * snd v = 1)%R.
Proof.
  cbv zeta. unfold Input.getPlayerMovementVector.
  destruct (Input.getPlayerControls playerId im) as [u d l r b].
  simpl Ctl.up. simpl Ctl.down. simpl Ctl.left. simpl Ctl.right. cbv zeta.
  cbv [nadd nsub nmul ndiv nsqrt neqb ofZ RealNum.real_num].
  set (x := if r then _ else _). set (y := if d then _ else _).
  assert (Hx : x = 0%R \/ x = 1%R \/ x = (-1)%R).
  { subst x. destruct l, r; lra. }
  assert (Hy : y = 0%R \/ y = 1%R \/ y = (-1)%R).
  { subst y. destruct u, d; lra. }
  clearbody x y.
  destruct (RealNum.eqb x 0) eqn:Ex; simpl.
  { apply real_eqb_true in Ex. subst x. destruct Hy as [-> | [-> | ->]]; lra. }
  destruct (RealNum.eqb y 0) eqn:Ey; simpl.
  { apply real_eqb_true in Ey. subst y. destruct Hx as [-> | [-> | ->]]; lra. }
  apply real_eqb_false in Ex, Ey. right. by apply unit_vector.
Qed.

End InputFacts.

(** ** The menu *)

Section MenuFacts.

Ltac menu_crush :=
  unfold Menu.inRange, Menu.showMainMenu, Menu.hideMenu, Menu.showControlsMenu,
    Menu.selectMenuItem, Menu.handleMainMenuSelection,
    Menu.handleControlsMenuSelection, Menu.activateMenuItem, Menu.cue,
    Menu.ask, Menu.getMenuItemCount;
  simpl; repeat split; intros; simpl in *; try done; try lia.

Lemma inRange_call c m : Menu.inRange m -> Menu.inRange (Menu.call c m).
Proof.
  intros (Hv & Hr & Hi).
  destruct m as [cm idx vis au rq]. simpl in *.
  assert (Hidx : idx = 0%Z \/ idx = 1%Z \/ idx = 2%Z) by lia.
  assert (Hctl : cm = Some Menu.controls -> idx = 0%Z).
  { intros ->. specialize (Hi ltac:(done)).
    unfold Menu.getMenuItemCount in Hi. simpl in Hi. lia. }
  assert (Hvis : cm = None -> vis = false).
  { intros ->. destruct vis; [|done]. by specialize (Hv eq_refl). }
  clear Hv Hi.
  assert (Hkey : forall (P : bool * Menu.t -> Prop)
            (m0 : Menu.t) key,
            Menu.visible m0 = true ->
            P (true, Menu.selectMenuItem
                       (Z.max 0 (Menu.selectedIndex m0 - 1)) m0) ->
            P (true, Menu.selectMenuItem
                       (Z.min (Menu.getMenuItemCount m0 - 1)
                              (Menu.selectedIndex m0 + 1)) m0) ->
            P (true, Menu.activateMenuItem m0) ->
            P (true, match Menu.currentMenu m0 with
                     | Some Menu.controls => Menu.showMainMenu m0
                     | _ => Menu.hideMenu m0
                     end) ->
            P (false, m0) ->
            P (Menu.handleKeyPress key m0)).
  { intros P m0 key Hv0 H1 H2 H3 H4 H5. unfold Menu.handleKeyPress.
    rewrite Hv0. simpl.
    destruct (String.eqb key "ArrowUp"); [done|].
    destruct (String.eqb key "ArrowDown"); [done|].
    destruct (String.eqb key "Enter" || String.eqb key " "); [done|].
    by destruct (String.eqb key "Escape"). }
  destruct cm as [[]|].
  - (* the main menu *)
    destruct c as [| | | |key]; simpl.
    + destruct au; menu_crush.
    + menu_crush.
    + destruct Hidx as [-> | [-> | ->]]; destruct au; menu_crush.
    + menu_crush.
    + destruct vis; [|menu_crush].
      apply (Hkey (fun r => Menu.inRange (snd r))); simpl;
        [done
        |destruct au; menu_crush
        |destruct au; menu_crush
        |destruct Hidx as [-> | [-> | ->]]; destruct au; menu_crush
        |menu_crush
        |menu_crush].
  - (* the controls menu *)
    rewrite (Hctl eq_refl).
    destruct c as [| | | |key]; simpl.
    + destruct au; menu_crush.
    + menu_crush.
    + destruct au; menu_crush.
    + menu_crush.
    + destruct vis; [|menu_crush].
      apply (Hkey (fun r => Menu.inRange (snd r))); simpl;
        [done
        |destruct au; menu_crush
        |destruct au; menu_crush
        |destruct au; menu_crush
        |destruct au; menu_crush
        |menu_crush].
  - (* no menu *)
    rewrite (Hvis eq_refl).
    destruct c as [| | | |key]; simpl.
    + destruct au; menu_crush.
    + menu_crush.
    + destruct au; menu_crush.
    + menu_crush.
    + menu_crush.
Qed.

(** X27. The keyboard never selects an item that is not there: after any
    run of calls of the menu other than [selectMenuItem] (showing and
    hiding, activating, key presses), from a new menu, a visible menu is
    the main menu or the controls menu, and the selected index is that of
    one of the items of the current menu. *)
Theorem menu_selection_in_range cs audio :
  let m := Menu.calls cs (Menu.new audio) in
  (Menu.visible m = true -> Menu.currentMenu m <> None) /\
  (Menu.currentMenu m <> None ->
   (0 <= Menu.selectedIndex m < Menu.getMenuItemCount m)%Z).
Proof.
  cbv zeta.
  assert (Hok : Menu.inRange (Menu.calls cs (Menu.new audio))).
  { unfold Menu.calls.
    assert (H0 : Menu.inRange (Menu.new audio)) by (by repeat split).
    revert H0. generalize (Menu.new audio) as m.
    induction cs as [|c cs IH]; intros m Hm; simpl; [done|].
    by apply IH, inRange_call. }
  destruct Hok as (Hv & _ & Hi). by split.
Qed.

End MenuFacts.

(** ** The audio manager *)

Section AudioFacts.
Context {T : Type} `{JsNum T}.

(** Playing a sound changes nothing but the record of what was started. *)
Lemma playSound_settings soundName v (a : Audio.t T) :
  exists vs,
    Audio.playSound soundName v a =
    Audio.mk (Audio.audioContext a) (Audio.sounds a) (Audio.enabled a)
      (Audio.volume a) (Audio.sfxVolume a) (Audio.musicVolume a)
      (Audio.masterGain a) vs.
Proof.
  unfold Audio.playSound. destruct (_ || _).
  { exists (Audio.voices a). by destruct a. }
  destruct (Audio.sounds a !! soundName) as [[d f|d f|d fs]|];
    try (by eexists).
  unfold Audio.playMelody. cbv zeta.
  generalize (d / ofZ (Z.of_nat (length fs)))%num as noteDuration.
  intros noteDuration. generalize 0 as i.
  assert (Hb : exists vs, a =
            Audio.mk (Audio.audioContext a) (Audio.sounds a) (Audio.enabled a)
              (Audio.volume a) (Audio.sfxVolume a) (Audio.musicVolume a)
              (Audio.masterGain a) vs).
  { exists (Audio.voices a). by destruct a. }
  revert Hb.
  generalize (Audio.audioContext a), (Audio.sounds a), (Audio.enabled a),
    (Audio.volume a), (Audio.sfxVolume a), (Audio.musicVolume a),
    (Audio.masterGain a).
  intros c0 s0 e0 v0 x0 m0 g0. generalize a as b.
  induction fs as [|f fs IH]; intros b Hb i; simpl; [exact Hb|].
  apply IH. destruct Hb as (vs & ->). by eexists.
Qed.

Lemma lookup_soundDefinitions :
  (list_to_map (Audio.soundDefinitions (T := T))
     : gmap string (Audio.SoundDef T)) !! "rocketDeath"%string = None /\
  (list_to_map (Audio.soundDefinitions (T := T))
     : gmap string (Audio.SoundDef T)) !! "objectDeath"%string = None.
Proof. split; by vm_compute. Qed.

(** The table of sounds is the one of [generateSounds], or empty. *)
Lemma sounds_calls cs ok :
  let a := Audio.calls cs (Audio.new (T := T) ok) in
  Audio.sounds a = list_to_map Audio.soundDefinitions \/ Audio.sounds a = ∅.
Proof.
  cbv zeta. unfold Audio.calls.
  assert (H0 : Audio.sounds (Audio.new (T := T) ok)
               = list_to_map Audio.soundDefinitions \/
               Audio.sounds (Audio.new (T := T) ok) = ∅).
  { destruct ok; [by left|by right]. }
  revert H0. generalize (Audio.new (T := T) ok) as a.
  induction cs as [|c cs IH]; intros a Ha; simpl; [done|].
  apply IH. destruct c as [n v|b|v|v|v|]; simpl; try done.
  - destruct (playSound_settings n v a) as (vs & ->). done.
  - by right.
Qed.

(** X28. The death cues are silent: under the names [rocketDeath] and
    [objectDeath], which the engines ask for at a wall and in a hole, the
    audio manager has no sound, whatever was called on it before; so
    [playSound] starts no voice for them, and warns when it is enabled and
    has an audio context. *)
Theorem death_cues_unknown cs ok v :
  let a := Audio.calls cs (Audio.new (T := T) ok) in
  Audio.playSound (Audio.soundName sndRocketDeath) v a
  = (if Audio.enabled a && Audio.audioContext a
     then Audio.say (Audio.Warning "rocketDeath") a else a) /\
  Audio.playSound (Audio.soundName sndObjectDeath) v a
  = (if Audio.enabled a && Audio.audioContext a
     then Audio.say (Audio.Warning "objectDeath") a else a).
Proof.
  cbv zeta. pose proof (sounds_calls cs ok) as Hs. cbv zeta in Hs.
  destruct lookup_soundDefinitions as [Hr Ho].
  set (a := Audio.calls cs (Audio.new ok)) in *.
  unfold Audio.playSound. simpl Audio.soundName.
  assert (Hr' : Audio.sounds a !! "rocketDeath"%string = None).
  { destruct Hs as [-> | ->]; [exact Hr|apply lookup_empty]. }
  assert (Ho' : Audio.sounds a !! "objectDeath"%string = None).
  { destruct Hs as [-> | ->]; [exact Ho|apply lookup_empty]. }
  rewrite Hr', Ho'.
  by destruct (Audio.enabled a), (Audio.audioContext a).
Qed.

End AudioFacts.

(** X29. In exact arithmetic the volumes never leave the range from 0 to
    1: after any calls on a new audio manager the master, effects and
    music volumes are between 0 and 1, and the gain of the master node,
    where there is one, is the master volume. *)
Theorem volumes_stay_in_range (cs : list (Audio.Call (T := R))) ok :
  let a := Audio.calls cs (Audio.new ok) in
  (0 <= Audio.volume a <= 1)%R /\ (0 <= Audio.sfxVolume a <= 1)%R /\
  (0 <= Audio.musicVolume a <= 1)%R /\
  Audio.masterGain a = (if ok then Some (Audio.volume a) else None).
Proof.
  cbv zeta. unfold Audio.calls.
  assert (H0 : forall a : Audio.t R, a = Audio.new ok ->
            (0 <= Audio.volume a <= 1)%R /\ (0 <= Audio.sfxVolume a <= 1)%R /\
            (0 <= Audio.musicVolume a <= 1)%R /\
            Audio.masterGain a = (if ok then Some (Audio.volume a) else None)).
  { intros a ->. destruct ok; simpl;
      cbv [lit ndiv ofZ RealNum.real_num]; repeat split; try lra. }
  specialize (H0 _ eq_refl). revert H0. generalize (Audio.new (T := R) ok) as a.
  induction cs as [|c cs IH]; intros a Ha; simpl; [done|].
  apply IH. destruct Ha as (Hv & Hs & Hm & Hg).
  destruct c as [n v|b|v|v|v|]; simpl; try done.
  - destruct (playSound_settings n v a) as (vs & ->). done.
  - cbv [nmax nmin ofZ RealNum.real_num].
    pose proof (Rclamp_bounds 0 1 v ltac:(lra)) as Hc.
    repeat split; try lra. rewrite Hg. by destruct ok.
  - cbv [nmax nmin ofZ RealNum.real_num].
    pose proof (Rclamp_bounds 0 1 v ltac:(lra)) as Hc.
    repeat split; try lra. done.
  - cbv [nmax nmin ofZ RealNum.real_num].
    pose proof (Rclamp_bounds 0 1 v ltac:(lra)) as Hc.
    repeat split; try lra. done.
Qed.

(** ** The game around the engine *)

Section HostFacts.
Context {T : Type} `{JsNum T}.

Lemma shown_on e (g : Game.t T) : Game.shown g -> Game.shown (Game.on e g).
Proof. unfold Game.shown. destruct e; simpl; auto. Qed.

Lemma shown_listeners (o : list (Output T)) (g : Game.t T) :
  Game.shown g ->
  Game.shown (fold_left
           (fun g o => match o with Emit e => Game.on e g | _ => g end) o g).
Proof.
  revert g. induction o as [|x o IH]; intros g Hg; simpl; [done|].
  apply IH. destruct x; [by apply shown_on|done|done].
Qed.

Lemma shown_act h a (g g' : Game.t T) :
  Game.shown g -> Game.act h a g = Some g' -> Game.shown g'.
Proof.
  intros Hg. destruct a as [count| |key|delta|]; simpl.
  - unfold Game.startGame.
    destruct (startGame h count _ _); simpl; [|done].
    intros [= <-]. by right.
  - intros [= <-]. by left.
  - unfold Game.keydown. destruct (String.eqb key "Escape").
    + intros [= <-]. unfold Game.shown, Game.handleEscapeKey, Game.pauseGame.
      destruct Hg as [Hg|Hg]; rewrite !Hg; simpl; auto.
    + destruct (_ || _); [|by intros [= <-]].
      destruct (Game.gameState g) eqn:Eg; try (by intros [= <-]).
      unfold Game.restartLevel.
      destruct (restartLevel h _); simpl; [|done].
      intros [= <-]. right. by simpl.
  - unfold Game.tick.
    destruct (gameLoop h delta _); simpl; [|done].
    intros [= <-]. by apply shown_listeners.
  - unfold Game.timeout. destruct (Game.timers g) as [|[sc|lv sc] rest].
    + by intros [= <-].
    + intros [= <-]. by left.
    + unfold Game.startGame.
      destruct (startGame h _ _ _); simpl; [|done].
      intros [= <-]. by right.
Qed.

Lemma shown_acts h l (g g' : Game.t T) :
  Game.shown g -> Game.acts h l g = Some g' -> Game.shown g'.
Proof.
  revert g. induction l as [|a l IH]; intros g Hg; simpl.
  - by intros [= <-].
  - destruct (Game.act h a g) as [g1|] eqn:E1; simpl; [|done].
    apply IH. by apply (shown_act h a g).
Qed.

(** X30. Escape does not pause, it leaves the game: whatever has happened
    since the page was loaded, the game is never in the state [paused],
    so the Escape key never resumes; it leads to the menu with, from
    play, the engine paused, and pressing it again changes nothing. *)
Theorem escape_leaves_the_game h l (g' : Game.t T) :
  Game.acts h l Game.new = Some g' ->
  Game.gameState g' <> Game.paused /\
  Game.gameState (Game.handleEscapeKey g') = Game.menu /\
  (Game.gameState g' = Game.playing ->
   gameState (Game.gameEngine (Game.handleEscapeKey g')) = Paused) /\
  Game.handleEscapeKey (Game.handleEscapeKey g') = Game.handleEscapeKey g'.
Proof.
  intros Hacts.
  assert (Hg : Game.shown g').
  { apply (shown_acts h l Game.new); [by left|done]. }
  unfold Game.handleEscapeKey, Game.pauseGame.
  destruct Hg as [Hg|Hg]; rewrite !Hg; simpl; rewrite ?Hg; by repeat split.
Qed.

(** The listeners hear the notifications of the rules check only. *)
Lemma listeners_ruleEvents (o : list (Output T)) (g : Game.t T) :
  fold_left (fun g o => match o with Emit e => Game.on e g | _ => g end) o g
  = fold_left (fun g e => Game.on e g) (ruleEvents o) g.
Proof.
  revert g. induction o as [|x o IH]; intros g; simpl; [done|].
  destruct x as [e| |]; [|apply IH|apply IH].
  destruct e; simpl; apply IH.
Qed.

Lemma ruleEvents_app (o1 o2 : list (Output T)) :
  ruleEvents (o1 ++ o2) = ruleEvents o1 ++ ruleEvents o2.
Proof. apply omap_app. Qed.

Lemma ruleEvents_simulate h delta (st : State T) :
  ruleEvents (out (simulate h delta st)) = ruleEvents (out st).
Proof.
  unfold simulate, updateObjects.
  change (out (set_objects ?l ?s)) with (out s).
  rewrite (untouched_passes (fun s => ruleEvents (out s))); try done.
  - intros c s. simpl. rewrite ruleEvents_app. simpl. by rewrite app_nil_r.
  - intros ex ey c s. simpl. rewrite ruleEvents_app. simpl.
    by rewrite app_nil_r.
  - intros a b c d s. simpl. rewrite ruleEvents_app. simpl.
    by rewrite app_nil_r.
  - intros a b c s. simpl. rewrite ruleEvents_app. simpl.
    by rewrite app_nil_r.
Qed.

(** What the rules check sends in a frame that starts without a live
    ball. *)
Lemma ruleEvents_cleared h delta (st st' : State T) :
  gameState st = Running -> aliveBalls st = [] ->
  gameLoop h delta st = Some st' ->
  gameState st' = Running /\ level st' = level st /\
  exists sc,
    ruleEvents (out st') = ruleEvents (out st) ++ [levelComplete (level st) sc]
    \/ ruleEvents (out st')
       = ruleEvents (out st)
         ++ [levelComplete (level st) sc; gameOver sc (level st)].
Proof.
  intros Eg Hballs Hloop. rewrite (gameLoop_simulate h delta st Eg) in Hloop.
  pose proof (aliveBalls_simulate h delta st Hballs) as Hb1.
  pose proof (ruleEvents_simulate h delta st) as Hr1.
  destruct (simulate_config h delta st) as (Hl1 & _ & Hg1). rewrite Eg in Hg1.
  set (s1 := simulate h delta st) in *. clearbody s1.
  unfold checkGameState in Hloop.
  assert (Hz : (length (aliveBalls s1) =? 0)%nat = true) by (by rewrite Hb1).
  rewrite Hz in Hloop.
  set (s2 := emit (levelComplete (level s1) (score s1)) s1) in *.
  assert (Hr2 : ruleEvents (out s2)
                = ruleEvents (out st) ++ [levelComplete (level st) (score s1)]).
  { unfold s2. simpl. by rewrite ruleEvents_app, Hr1, Hl1. }
  assert (Hg2 : gameState s2 = Running) by exact Hg1.
  assert (Hl2 : level s2 = level st) by exact Hl1.
  assert (Hs2 : score s2 = score s1) by done.
  clearbody s2.
  destruct (length (aliveRockets s2) =? 0)%nat.
  - cbv zeta in Hloop. destruct (lives (set_lives _ _) <=? 0)%Z eqn:El.
    + simpl in Hloop. injection Hloop as <-. simpl.
      split; [done|]. split; [done|]. exists (score s1). right.
      rewrite !ruleEvents_app, Hr2. simpl.
      by rewrite app_nil_r, <- app_assoc, Hs2, Hl2.
    + destruct (restartLevel h (set_lives (lives s2 - 1) s2)) as [s3|] eqn:E3;
        simpl in Hloop; [|done].
      injection Hloop as <-.
      destruct (restartLevel_spec h _ (restartLevel_some h _ _ E3))
        as (s3' & E3' & Hg & Hl & Hs & Hv & _ & _ & Ho & _).
      rewrite E3 in E3'. inversion E3'; subst s3'; clear E3'.
      simpl in Hl, Hs, Hv, Ho. simpl.
      split; [done|]. split; [congruence|]. exists (score s1). left.
      rewrite ruleEvents_app, Ho, Hr2. simpl. by rewrite app_nil_r.
  - simpl in Hloop. injection Hloop as <-. simpl.
    split; [done|]. split; [done|]. exists (score s1). left.
    rewrite ruleEvents_app, Hr2. simpl. by rewrite app_nil_r.
Qed.

(** X15. The level rises with every frame: when a tick finds the engine
    running without a live ball, the game's level is one higher after it
    and one more level-complete message (for the engine's level, which
    stays) is set to appear a second later, while the engine runs on. *)
Theorem level_rises_with_each_frame h delta (g g' : Game.t T) :
  gameState (Game.gameEngine g) = Running ->
  aliveBalls (Game.gameEngine g) = [] ->
  Game.tick h delta g = Some g' ->
  Game.currentLevel g' = (Game.currentLevel g + 1)%Z /\
  (exists sc rest,
     Game.timers g'
     = Game.timers g
       ++ Game.LevelCompleteAlert (level (Game.gameEngine g)) sc :: rest) /\
  gameState (Game.gameEngine g') = Running /\
  level (Game.gameEngine g') = level (Game.gameEngine g).
Proof.
  intros Eg Hballs. unfold Game.tick.
  destruct (gameLoop h delta (set_out [] (Game.gameEngine g)))
    as [e'|] eqn:Hloop; simpl; [|done].
  intros [= <-].
  destruct (ruleEvents_cleared h delta (set_out [] (Game.gameEngine g)) e'
              Eg Hballs Hloop)
    as (Hg' & Hl' & sc & Hr).
  simpl in Hr, Hl'. rewrite listeners_ruleEvents.
  assert (Heng : forall (l : list Event) (g0 : Game.t T),
            Game.gameEngine (fold_left (fun g e => Game.on e g) l g0)
            = Game.gameEngine g0).
  { induction l as [|e l IH]; intros g0; simpl; [done|].
    rewrite IH. by destruct e. }
  rewrite Heng. simpl.
  destruct Hr as [-> | ->]; simpl.
  - split; [done|]. split; [by exists sc, []|]. done.
  - split; [done|]. split; [|done].
    exists sc, [Game.GameOverAlert sc]. by rewrite <- app_assoc.
Qed.

End HostFacts.

Lemma escape_leaves_the_game_witness :
  exists g',
    Game.acts Scenario.host
      [Game.ClickStart 1; Game.Tick (ofZ 1); Game.KeyDown "Escape"%string;
       Game.KeyDown "Escape"%string]
      Game.new = Some g' /\
    Game.gameState g' <> Game.paused /\
    Game.gameState (Game.handleEscapeKey g') = Game.menu.
Proof.
  destruct (Game.acts Scenario.host
              [Game.ClickStart 1; Game.Tick (ofZ 1);
               Game.KeyDown "Escape"%string; Game.KeyDown "Escape"%string]
              Game.new) as [g'|] eqn:E; [|by vm_compute in E].
  exists g'. split; [done|].
  destruct (escape_leaves_the_game _ _ _ E) as (Hp & Hm & _). by split.
Defined.

Lemma level_rises_with_each_frame_witness :
  exists g',
    Game.tick Scenario.host (ofZ 1)
      (Game.mk Game.playing 1 1 Scenario.cleared []) = Some g' /\
    Game.currentLevel g' = 2%Z.
Proof.
  destruct (Game.tick Scenario.host (ofZ 1)
              (Game.mk Game.playing 1 1 Scenario.cleared []))
    as [g'|] eqn:E; [|by vm_compute in E].
  exists g'. split; [done|].
  by destruct (level_rises_with_each_frame Scenario.host (ofZ 1)
                 (Game.mk Game.playing 1 1 Scenario.cleared []) g'
                 eq_refl eq_refl E) as (Hl & _).
Defined.

(** ** What holds from step to step of a frame

    A relation between states that every elementary step of the deadly
    engine respects holds between the start and the end of its passes. *)

Section Passes.
Context {T : Type} `{JsNum T}.
Variable rel : State T -> State T -> Prop.
Hypothesis rel_refl : forall st, rel st st.
Hypothesis rel_trans : forall s1 s2 s3, rel s1 s2 -> rel s2 s3 -> rel s1 s3.
Hypothesis rel_keep :
  forall r o o' st,
    heap st !! r = Some o -> Obj.type o' = Obj.type o ->
    Obj.live o' = Obj.live o -> rel st (store r o' st).
Hypothesis rel_kill :
  forall r o st,
    heap st !! r = Some o -> isKind (Obj.type o) HOLE = false ->
    rel st (store r (set_live false o) st).
Hypothesis rel_score : forall n st, rel st (set_score n st).
Hypothesis rel_lives : forall n st, rel st (set_lives n st).
Hypothesis rel_next : forall n st, rel st (set_nextLifeAt n st).
Hypothesis rel_play : forall c st, rel st (playSound c st).
Hypothesis rel_boom : forall ex ey c st, rel st (createExplosion ex ey c st).
Hypothesis rel_emit : forall e st, rel st (emit e st).

Lemma passes_checkExtraLife st : rel st (checkExtraLife st).
Proof using rel_refl rel_trans rel_lives rel_next rel_play rel_emit.
  unfold checkExtraLife. destruct (_ >=? _)%Z; [|apply rel_emit].
  eapply rel_trans; [|apply rel_emit].
  eapply rel_trans; [|apply rel_emit].
  eapply rel_trans; [|apply rel_play].
  eapply rel_trans; [apply rel_lives|apply rel_next].
Qed.

Lemma passes_forEach {A} (f : A -> State T -> State T) l :
  (forall a s, rel s (f a s)) -> forall s, rel s (forEach f l s).
Proof using rel_refl rel_trans.
  intros Hf. unfold forEach.
  induction l as [|a l IH]; intros s; simpl; [apply rel_refl|].
  eapply rel_trans; [apply Hf|apply IH].
Qed.

Lemma passes_processInput h st : rel st (processInput h st).
Proof using rel_refl rel_trans rel_keep.
  unfold processInput. generalize 0 as i. generalize (rockets st) as l.
  intros l. revert st.
  induction l as [|r l IH]; intros st i; simpl; [apply rel_refl|].
  eapply rel_trans; [|apply IH].
  destruct (heap st !! r) as [rocket|] eqn:E; [|apply rel_refl].
  destruct (negb _); [apply rel_refl|].
  apply (rel_keep r rocket); [done|apply steer_type|apply steer_live].
Qed.

Lemma passes_keepInBounds h r st : rel st (keepInBounds h r st).
Proof using rel_refl rel_trans rel_kill rel_score rel_lives rel_next rel_play
  rel_boom rel_emit.
  unfold keepInBounds.
  destruct (heap st !! r) as [obj|] eqn:E; [|apply rel_refl].
  cbv zeta. destruct (_ || _ || _ || _); [|apply rel_refl].
  destruct (isKind (Obj.type obj) HOLE) eqn:Ek; [apply rel_refl|].
  eapply rel_trans; [|apply rel_boom].
  assert (Hcue : forall s,
            rel s (if isKind (Obj.type obj) ROCKET
                   then playSound sndRocketDeath s
                   else playSound sndObjectDeath s)).
  { intros s. destruct (isKind _ ROCKET); apply rel_play. }
  eapply rel_trans; [|apply Hcue].
  eapply rel_trans; [by apply (rel_kill r obj)|].
  destruct (Obj.type obj); try apply rel_refl;
    (eapply rel_trans; [apply rel_score|apply passes_checkExtraLife]).
Qed.

Lemma passes_physicsStep h r st : rel st (physicsStep h r st).
Proof using rel_refl rel_trans rel_keep rel_kill rel_score rel_lives rel_next
  rel_play rel_boom rel_emit.
  unfold physicsStep.
  destruct (heap st !! r) as [obj|] eqn:E; [|apply rel_refl].
  destruct (negb _); [apply rel_refl|].
  eapply rel_trans; [|apply passes_keepInBounds].
  destruct (moved_keeps st obj) as (Ht & _ & Hl).
  by apply (rel_keep r obj).
Qed.

Lemma passes_handleSpecialCollisions r1 r2 st :
  rel st (handleSpecialCollisions r1 r2 st).
Proof using rel_refl rel_trans rel_kill rel_score rel_lives rel_next rel_play
  rel_boom rel_emit.
  unfold handleSpecialCollisions.
  destruct (heap st !! r1) as [obj1|] eqn:E1; [|apply rel_refl].
  destruct (heap st !! r2) as [obj2|] eqn:E2; [|apply rel_refl].
  assert (Hball : forall rb ball,
            heap st !! rb = Some ball -> isBall (Obj.type ball) = true ->
            rel st
              (playSound sndBallInHole
                 (checkExtraLife
                    (match Obj.type ball with
                     | BALL_SMALL =>
                         set_score
                           (score (store rb (set_live false ball) st) + 10)
                           (store rb (set_live false ball) st)
                     | BALL_LARGE =>
                         set_score
                           (score (store rb (set_live false ball) st) + 20)
                           (store rb (set_live false ball) st)
                     | _ => store rb (set_live false ball) st
                     end)))).
  { intros rb ball Hb Hk.
    eapply rel_trans; [|apply rel_play].
    eapply rel_trans; [|apply passes_checkExtraLife].
    eapply rel_trans;
      [apply (rel_kill rb ball); [done|by destruct (Obj.type ball)]|].
    destruct (Obj.type ball); try apply rel_refl; apply rel_score. }
  assert (Hrocket : forall rr rocket,
            heap st !! rr = Some rocket ->
            isKind (Obj.type rocket) ROCKET = true ->
            rel st
              (createExplosion (Obj.x rocket) (Obj.y rocket) 0xff4444%Z
                 (playSound sndRocketDeath
                    (store rr (set_live false rocket) st)))).
  { intros rr rocket Hr Hk.
    eapply rel_trans; [|apply rel_boom].
    eapply rel_trans; [|apply rel_play].
    apply (rel_kill rr rocket); [done|by destruct (Obj.type rocket)]. }
  destruct (isBall (Obj.type obj1) && isKind (Obj.type obj2) HOLE
            || isBall (Obj.type obj2) && isKind (Obj.type obj1) HOLE) eqn:Ec.
  - destruct (isBall (Obj.type obj1)) eqn:Eb.
    + by apply (Hball r1 obj1).
    + apply (Hball r2 obj2); [done|]. simpl in Ec.
      by apply andb_true_iff in Ec as [? _].
  - destruct (isKind (Obj.type obj1) ROCKET && isKind (Obj.type obj2) HOLE
              || isKind (Obj.type obj2) ROCKET && isKind (Obj.type obj1) HOLE)
      eqn:Ed; [|apply rel_refl].
    destruct (isKind (Obj.type obj1) ROCKET) eqn:Er.
    + by apply (Hrocket r1 obj1).
    + apply (Hrocket r2 obj2); [done|]. simpl in Ed.
      by apply andb_true_iff in Ed as [? _].
Qed.

Lemma passes_handleCollision r1 r2 dx dy distance st :
  rel st (handleCollision r1 r2 dx dy distance st).
Proof using rel_refl rel_trans rel_keep rel_kill rel_score rel_lives rel_next
  rel_play rel_boom rel_emit.
  unfold handleCollision.
  destruct (heap st !! r1) as [obj1|] eqn:E1; [|apply rel_refl].
  destruct (heap st !! r2) as [obj2|] eqn:E2; [|apply rel_refl].
  cbv zeta.
  assert (Hst : forall o1 o2,
            Obj.type o1 = Obj.type obj1 -> Obj.live o1 = Obj.live obj1 ->
            Obj.type o2 = Obj.type obj2 -> Obj.live o2 = Obj.live obj2 ->
            rel st (store r2 o2 (store r1 o1 st))).
  { intros o1 o2 Ht1 Hl1 Ht2 Hl2.
    eapply rel_trans; [by apply (rel_keep r1 obj1 o1)|].
    destruct (decide (r1 = r2)) as [<-|Hne].
    - apply (rel_keep r1 o1 o2).
      + apply lookup_store_eq. by eapply lookup_lt_Some.
      + congruence.
      + congruence.
    - apply (rel_keep r2 obj2 o2); [|done|done].
      by rewrite lookup_store_ne. }
  destruct (nltb _ _); [by apply Hst|].
  eapply rel_trans; [|apply rel_play].
  eapply rel_trans; [|apply passes_handleSpecialCollisions].
  by apply Hst.
Qed.

Lemma passes_collidePair r1 r2 st : rel st (collidePair r1 r2 st).
Proof using rel_refl rel_trans rel_keep rel_kill rel_score rel_lives rel_next
  rel_play rel_boom rel_emit.
  unfold collidePair.
  destruct (heap st !! r1) as [obj1|]; [|apply rel_refl].
  destruct (heap st !! r2) as [obj2|]; [|apply rel_refl].
  destruct (_ || _); [apply rel_refl|].
  cbv zeta. destruct (nltb _ _); [|apply rel_refl].
  apply passes_handleCollision.
Qed.

Lemma passes_checkCollisions st : rel st (checkCollisions st).
Proof using rel_refl rel_trans rel_keep rel_kill rel_score rel_lives rel_next
  rel_play rel_boom rel_emit.
  unfold checkCollisions. generalize (objects st) as l. intros l. revert st.
  induction l as [|r1 rest IH]; intros st; simpl; [apply rel_refl|].
  eapply rel_trans; [|apply IH].
  apply passes_forEach. intros. apply passes_collidePair.
Qed.

(** From the step of one object to the end of the collision pass. *)
Lemma passes_rest h post st :
  rel st (checkCollisions (forEach (physicsStep h) post st)).
Proof using rel_refl rel_trans rel_keep rel_kill rel_score rel_lives rel_next
  rel_play rel_boom rel_emit.
  eapply rel_trans; [|apply passes_checkCollisions].
  apply passes_forEach. intros. apply passes_physicsStep.
Qed.

Hypothesis rel_delta : forall d st, rel st (set_deltaTime d st).

(** From the start of the frame to the step of one object. *)
Lemma passes_start h d pre st :
  rel st (forEach (physicsStep h) pre (processInput h (set_deltaTime d st))).
Proof using rel_refl rel_trans rel_keep rel_kill rel_score rel_lives rel_next
  rel_play rel_boom rel_emit rel_delta.
  eapply rel_trans; [apply rel_delta|].
  eapply rel_trans; [apply passes_processInput|].
  apply passes_forEach. intros. apply passes_physicsStep.
Qed.

End Passes.

(** ** Death at the wall, frame by frame *)

Section WallDeaths.
Context {T : Type} `{JsNum T}.

Lemma sparesHoles_refl (st : State T) : sparesHoles st st.
Proof. by intros q. Qed.

Lemma sparesHoles_trans (s1 s2 s3 : State T) :
  sparesHoles s1 s2 -> sparesHoles s2 s3 -> sparesHoles s1 s3.
Proof. intros H12 H23 q. by rewrite H23, H12. Qed.

Lemma sparesHoles_heap (st st' : State T) :
  heap st' = heap st -> sparesHoles st st'.
Proof. intros E q. by rewrite E. Qed.

Lemma sparesHoles_store r o o' (st : State T) :
  heap st !! r = Some o -> Obj.type o' = Obj.type o ->
  negb (isKind (Obj.type o) HOLE) || Obj.live o'
  = negb (isKind (Obj.type o) HOLE) || Obj.live o ->
  sparesHoles st (store r o' st).
Proof.
  intros Hr Ht Hl q. destruct (decide (r = q)) as [<-|Hne].
  - rewrite lookup_store_eq by (by eapply lookup_lt_Some).
    rewrite Hr. simpl. by rewrite Ht, Hl.
  - by rewrite lookup_store_ne.
Qed.

(** No step of the three passes kills a hole or changes a kind. *)
Lemma sparesHoles_rest h post (st : State T) :
  sparesHoles st (checkCollisions (forEach (physicsStep h) post st)).
Proof.
  apply (passes_rest sparesHoles);
    [apply sparesHoles_refl|apply sparesHoles_trans| | |
     intros; by apply sparesHoles_heap..].
  - intros r o o' s Hr Ht Hl. apply (sparesHoles_store r o); [done|done|].
    by rewrite Hl.
  - intros r o s Hr Hk. apply (sparesHoles_store r o); [done|done|].
    by rewrite Hk.
Qed.

Lemma heardSince_refl (st : State T) : heardSince st st.
Proof. exists []. by rewrite app_nil_r. Qed.

Lemma heardSince_trans (s1 s2 s3 : State T) :
  heardSince s1 s2 -> heardSince s2 s3 -> heardSince s1 s3.
Proof.
  intros (l1 & E1) (l2 & E2). exists (l1 ++ l2).
  by rewrite E2, E1, app_assoc.
Qed.

Lemma heardSince_same (st st' : State T) :
  out st' = out st -> heardSince st st'.
Proof. intros E. exists []. by rewrite app_nil_r. Qed.

Lemma heardSince_In x (st st' : State T) :
  heardSince st st' -> In x (out st) -> In x (out st').
Proof. intros (l & ->) Hin. apply in_or_app. by left. Qed.

(** What was sent stays sent through the passes. *)
Lemma heardSince_rest h post (st : State T) :
  heardSince st (checkCollisions (forEach (physicsStep h) post st)).
Proof.
  apply (passes_rest heardSince);
    [apply heardSince_refl|apply heardSince_trans|
     intros; by apply heardSince_same..| | |].
  - intros c s. by eexists.
  - intros ex ey c s. by eexists.
  - intros e s. by eexists.
Qed.

Lemma objects_input h d (st : State T) :
  objects (processInput h (set_deltaTime d st)) = objects st.
Proof. by rewrite (untouched_processInput objects). Qed.

(** The pass of the physics over [this.objects], cut at one of them. *)
Lemma simulate_split h delta pre r post (st : State T) :
  objects st = pre ++ r :: post ->
  let s1 :=
    forEach (physicsStep h) pre
      (processInput h (set_deltaTime (delta / ofZ 60)%num st)) in
  simulate h delta st
  = updateObjects
      (checkCollisions (forEach (physicsStep h) post (physicsStep h r s1))).
Proof.
  intros Hobjs s1. unfold simulate, updatePhysics.
  rewrite objects_input, Hobjs. unfold forEach.
  by rewrite fold_left_app.
Qed.

(** The rules check and the closing notification leave the objects of the
    frame as the passes left them, and add to what was sent. *)
Lemma gameLoop_heap h delta q o (st st' : State T) :
  gameState st = Running -> gameLoop h delta st = Some st' ->
  heap (simulate h delta st) !! q = Some o -> heap st' !! q = Some o.
Proof.
  intros Eg Hloop Hq. rewrite (gameLoop_simulate h delta st Eg) in Hloop.
  destruct (checkGameState h (simulate h delta st)) as [st1|] eqn:E1;
    simpl in Hloop; [|done].
  inversion Hloop; subst st'; clear Hloop. change (heap st1 !! q = Some o).
  destruct (checkGameState_cases h _ _ E1) as [[Hh Ho]|(s & Er & Hs)].
  - by rewrite Hh.
  - unfold restartLevel in Er.
    destruct (initLevel h (clearGame s)) as [s1|] eqn:Ei; [|done].
    simpl in Er. inversion Er; subst st1; clear Er.
    apply prefix_initLevel in Ei. simpl in Ei. rewrite Hs in Ei.
    simpl. by apply (prefix_lookup_Some _ _ _ _ Hq Ei).
Qed.

Lemma gameLoop_heard h delta (st st' : State T) :
  gameState st = Running -> gameLoop h delta st = Some st' ->
  heardSince (simulate h delta st) st'.
Proof.
  intros Eg Hloop. rewrite (gameLoop_simulate h delta st Eg) in Hloop.
  destruct (checkGameState h (simulate h delta st)) as [st1|] eqn:E1;
    simpl in Hloop; [|done].
  inversion Hloop; subst st'; clear Hloop.
  eapply heardSince_trans; [|by eexists].
  revert E1. generalize (simulate h delta st) as s. intros s.
  unfold checkGameState.
  set (s1 := if (length (aliveBalls s) =? 0)%nat then _ else s).
  assert (H1 : heardSince s s1).
  { subst s1. destruct (_ =? _)%nat; [by eexists|apply heardSince_refl]. }
  clearbody s1. intros E1. eapply heardSince_trans; [exact H1|].
  destruct (length (aliveRockets s1) =? 0)%nat.
  - cbv zeta in E1. destruct (_ <=? 0)%Z.
    + injection E1 as <-. by eexists.
    + destruct (restartLevel_spec h _ (restartLevel_some h _ _ E1))
        as (s3 & E3 & _ & _ & _ & _ & _ & _ & Ho & _).
      rewrite E1 in E3. injection E3 as <-. by apply heardSince_same.
  - injection E1 as <-. apply heardSince_refl.
Qed.

Lemma gameLoop_score h delta (st st' : State T) :
  gameState st = Running -> gameLoop h delta st = Some st' ->
  score st' = score (simulate h delta st).
Proof.
  intros Eg Hloop. rewrite (gameLoop_simulate h delta st Eg) in Hloop.
  destruct (checkGameState h (simulate h delta st)) as [st1|] eqn:E1;
    simpl in Hloop; [|done].
  inversion Hloop; subst st'; clear Hloop.
  destruct (checkGameState_keeps h _ _ E1) as (Hs & _). exact Hs.
Qed.

Lemma scored_le (st st' : State T) : scored st st' -> (score st <= score st')%Z.
Proof.
  intros (ps & Hps & E).
  pose proof (awards_score_mono ps (tally st) Hps) as Hm.
  rewrite <- E in Hm. exact Hm.
Qed.

Lemma heardSince_start h d pre (st : State T) :
  heardSince st
    (forEach (physicsStep h) pre (processInput h (set_deltaTime d st))).
Proof.
  apply (passes_start heardSince);
    [apply heardSince_refl|apply heardSince_trans|
     intros; by apply heardSince_same..| | | |
     intros; by apply heardSince_same].
  - intros c s. by eexists.
  - intros ex ey c s. by eexists.
  - intros e s. by eexists.
Qed.

Lemma scored_start h d pre (st : State T) :
  scored st
    (forEach (physicsStep h) pre (processInput h (set_deltaTime d st))).
Proof.
  eapply scored_trans; [|apply scored_forEach; intros; apply scored_physicsStep].
  eapply scored_trans; [|apply scored_processInput]. by apply scored_same.
Qed.

Lemma scored_rest h post (st : State T) :
  scored st (checkCollisions (forEach (physicsStep h) post st)).
Proof.
  eapply scored_trans; [|apply scored_collideAll].
  apply scored_forEach. intros. apply scored_physicsStep.
Qed.

(** The cue of a death at the wall is played by the bounds check
    itself. *)
Lemma keepInBounds_cue h r obj (st : State T) :
  heap st !! r = Some obj -> Obj.type obj <> HOLE -> atEdge h obj = true ->
  exists l,
    out (keepInBounds h r st) = out st ++ l /\
    In (Play (wallCue (Obj.type obj))) l.
Proof.
  intros E Hk Hhit. unfold keepInBounds. rewrite E. cbv zeta.
  unfold atEdge in Hhit. rewrite Hhit.
  assert (Hx : forall s : State T, exists l,
            out (checkExtraLife s) = out s ++ l).
  { intros s. unfold checkExtraLife. destruct (_ >=? _)%Z; simpl.
    - eexists. by rewrite <- !app_assoc.
    - by eexists. }
  destruct (Obj.type obj) eqn:Ek; try done;
    cbv [isKind kindCode Z.eqb Pos.eqb wallCue]; simpl.
  all: try (eexists; rewrite <- app_assoc; split; [reflexivity|]; simpl; tauto).
  all: destruct (_ >=? _)%Z; simpl; eexists; rewrite <- !app_assoc;
    (split; [reflexivity|]); simpl; tauto.
Qed.

(** C8 (amended). The wall in a frame of the deadly engine.  The bounds
    check looks at an object once in a frame, right after the physics pass
    has moved it.  A live object that is not a hole and that the move
    leaves within one radius of a screen edge is not live when the frame
    is over; at its death the score grows by 5 for a small ball and by 10
    for a large one (so the frame ends that much above its start, at
    least), and the frame plays the death cue ([rocketDeath] for a rocket,
    [objectDeath] otherwise).  A live hole is live when the frame is over,
    wherever it is. *)
Theorem wall_contact_kills h delta pre r post obj (st st' : State T) :
  gameState st = Running -> gameLoop h delta st = Some st' ->
  objects st = pre ++ r :: post ->
  let s1 :=
    forEach (physicsStep h) pre
      (processInput h (set_deltaTime (delta / ofZ 60)%num st)) in
  let moved := integrate (deltaTime s1) (applyGravity s1 obj) in
  heap s1 !! r = Some obj -> Obj.live obj = true ->
  (Obj.type obj <> HOLE -> atEdge h moved = true ->
   isLive st' r = false /\
   score (physicsStep h r s1) = (score s1 + wallPoints (Obj.type obj))%Z /\
   (score st + wallPoints (Obj.type obj) <= score st')%Z /\
   exists l, out st' = out st ++ l /\ In (Play (wallCue (Obj.type obj))) l) /\
  (Obj.type obj = HOLE -> isLive st' r = true).
Proof.
  intros Eg Hloop Hobjs s1 moved E Hl.
  pose proof (simulate_split h delta pre r post st Hobjs) as Hsim.
  cbv zeta in Hsim. fold s1 in Hsim.
  set (s2 := physicsStep h r s1) in *.
  set (s3 := checkCollisions (forEach (physicsStep h) post s2)) in *.
  assert (Hheap : forall q o, heap s3 !! q = Some o -> heap st' !! q = Some o).
  { intros q o Hq. apply (gameLoop_heap h delta q o st st' Eg Hloop).
    by rewrite Hsim. }
  split.
  - intros Hk Hhit.
    assert (E2 : s2 = keepInBounds h r (store r moved s1)).
    { apply (physicsStep_bounds h r obj s1 E Hl). }
    destruct (moved_keeps s1 obj) as (Ht & Hr & _). fold moved in Ht, Hr.
    assert (Em : heap (store r moved s1) !! r = Some moved).
    { apply lookup_store_eq. by eapply lookup_lt_Some. }
    assert (Hkm : Obj.type moved <> HOLE) by (by rewrite Ht).
    destruct (keepInBounds_kills h r moved (store r moved s1) Em)
      as [Hdie _].
    { unfold atEdge in Hhit.
      repeat (apply orb_true_iff in Hhit as [Hhit|Hhit]); tauto. }
    destruct (Hdie Hkm) as (Hdead & Hscore & _). rewrite <- E2 in Hdead, Hscore.
    rewrite Ht in Hscore.
    assert (Hscore' : score s2 = (score s1 + wallPoints (Obj.type obj))%Z)
      by exact Hscore.
    clear Hscore.
    destruct (keepInBounds_cue h r moved (store r moved s1) Em Hkm Hhit)
      as (l2 & Ho2 & Hin2).
    rewrite <- E2 in Ho2. rewrite Ht in Hin2. simpl in Ho2.
    split; [|split; [|split]].
    + destruct (keepInBounds_lookup h r r moved (store r moved s1) Em)
        as (b & Hb).
      rewrite <- E2 in Hb.
      pose proof (sparesHoles_rest h post s2 r) as Hsp.
      fold s3 in Hsp. rewrite Hb in Hsp.
      destruct (heap s3 !! r) as [o3|] eqn:E3; [|done].
      assert (Hd3 : isLive s3 r = false).
      { apply (noRevival_checkCollisions _ r).
        apply (noRevival_forEach (physicsStep h) post
                 (fun a s => noRevival_physicsStep h a s) s2 r Hdead). }
      unfold isLive in Hd3 |- *. rewrite E3 in Hd3.
      by rewrite (Hheap r o3 E3).
    + exact Hscore'.
    + rewrite (gameLoop_score h delta st st' Eg Hloop), Hsim.
      change (score (updateObjects s3)) with (score s3).
      pose proof (scored_le _ _ (scored_start h (delta / ofZ 60)%num pre st))
        as H1.
      fold s1 in H1.
      pose proof (scored_le _ _ (scored_rest h post s2)) as H3.
      fold s3 in H3. lia.
    + destruct (heardSince_start h (delta / ofZ 60)%num pre st) as (l1 & Ho1).
      fold s1 in Ho1.
      destruct (heardSince_rest h post s2) as (l3 & Ho3). fold s3 in Ho3.
      destruct (gameLoop_heard h delta st st' Eg Hloop) as (l4 & Ho4).
      rewrite Hsim in Ho4.
      change (out (updateObjects s3)) with (out s3) in Ho4.
      exists (l1 ++ l2 ++ l3 ++ l4). split.
      * by rewrite Ho4, Ho3, Ho2, Ho1, <- !app_assoc.
      * apply in_or_app. right. apply in_or_app. by left.
  - intros Hk.
    pose proof (sparesHoles_rest h (r :: post) s1 r) as Hsp.
    change (forEach (physicsStep h) (r :: post) s1)
      with (forEach (physicsStep h) post s2) in Hsp.
    fold s3 in Hsp. rewrite E in Hsp. simpl in Hsp. rewrite Hk, Hl in Hsp.
    destruct (heap s3 !! r) as [o3|] eqn:E3; [|done].
    simpl in Hsp. injection Hsp as Ht3 Hl3. rewrite Ht3 in Hl3.
    unfold isLive. rewrite (Hheap r o3 E3). exact Hl3.
Qed.

End WallDeaths.

Lemma wall_contact_kills_witness :
  exists st',
    gameLoop Scenario.host (ofZ 1) Scenario.atWall = Some st' /\
    isLive st' 0 = false /\ (0 + 5 <= score st')%Z /\ isLive st' 2 = true.
Proof.
  destruct (gameLoop Scenario.host (ofZ 1) Scenario.atWall) as [st'|] eqn:E;
    [|by vm_compute in E].
  exists st'. split; [done|].
  destruct (wall_contact_kills Scenario.host (ofZ 1) [] 0 [1; 2; 3]
              (Scenario.object BALL_SMALL 5 300 0 0) Scenario.atWall st'
              eq_refl E eq_refl) as [Hball _];
    [by vm_compute|reflexivity|].
  destruct (wall_contact_kills Scenario.host (ofZ 1) [0; 1] 2 [3]
              (Scenario.object HOLE 5 100 0 0) Scenario.atWall st'
              eq_refl E eq_refl) as [_ Hhole];
    [by vm_compute|reflexivity|].
  destruct Hball as (Hd & _ & Hs & _); [done|by vm_compute|].
  split; [exact Hd|]. split; [exact Hs|]. by apply Hhole.
Defined.

(** C8, as stated, fails: being within one radius of an edge during a
    frame does not kill.  A small ball that starts the frame inside the
    margin of the left wall and flies inwards is past the margin when the
    check looks at it; a ball that the collision pass pushes into the
    margin is not looked at again in that frame.  Both are live when the
    frame is over, nothing is scored and no death cue is played. *)
Lemma wall_margin_survivors :
  (heap Scenario.inward !! 0 = Some (Scenario.object BALL_SMALL 7 300 2 0) /\
   atEdge Scenario.host (Scenario.object BALL_SMALL 7 300 2 0) = true /\
   exists st',
     gameLoop Scenario.host (ofZ 1) Scenario.inward = Some st' /\
     isLive st' 0 = true /\ score st' = score Scenario.inward /\
     ~ In (Play sndObjectDeath) (out st')) /\
  (exists st' o,
     gameLoop Scenario.host (ofZ 1) Scenario.pushed = Some st' /\
     heap st' !! 0 = Some o /\ atEdge Scenario.host o = true /\
     Obj.live o = true /\ score st' = score Scenario.pushed /\
     ~ In (Play sndObjectDeath) (out st')).
Proof.
  split.
  - split; [reflexivity|]. split; [by vm_compute|].
    eexists. split; [by vm_compute|]. split; [by vm_compute|].
    split; [by vm_compute|]. vm_compute. intros [Hx|[]]. discriminate Hx.
  - eexists. eexists. split; [by vm_compute|]. split; [by vm_compute|].
    split; [by vm_compute|]. split; [by vm_compute|].
    split; [by vm_compute|]. vm_compute.
    intros [Hx|[Hx|[]]]; discriminate Hx.
Qed.

(** ** The cap on the speed in both engines *)

Section SpeedCap.
Context {T : Type} `{JsNum T} `{JsSign T}.

(** C2 (amended). Both engines enforce the cap of the kind (8 for a
    rocket, 6 otherwise) in the physics step of a live object: the
    velocity after acceleration and friction is rescaled to the cap when
    its length is above it, and is used as it is otherwise; the object
    moves by the resulting velocity.  In the deadly-wall engine the force
    is the one the object carries after the pull of the holes and the
    object ends the step with that velocity; in the classic engine the
    force is the one it carries and what is handed to the wall check has
    that velocity. *)
Theorem speed_cap_enforced h r obj (st : State T) :
  heap st !! r = Some obj -> Obj.live obj = true ->
  let friction :=
    if isKind (Obj.type obj) ROCKET then lit 98 100 else lit 995 1000 in
  let maxVel := if isKind (Obj.type obj) ROCKET then ofZ 8 else ofZ 6 in
  (let pulled := applyGravity st obj in
   let wx :=
     ((Obj.vx obj + Obj.fx pulled / Obj.mass obj * deltaTime st)
      * friction)%num in
   let wy :=
     ((Obj.vy obj + Obj.fy pulled / Obj.mass obj * deltaTime st)
      * friction)%num in
   let vel := nsqrt (wx * wx + wy * wy)%num in
   exists o',
     heap (physicsStep h r st) !! r = Some o' /\
     Obj.vx o' = (if (vel > maxVel)%num then wx / vel * maxVel else wx)%num /\
     Obj.vy o' = (if (vel > maxVel)%num then wy / vel * maxVel else wy)%num /\
     Obj.x o' = (Obj.x obj + Obj.vx o')%num /\
     Obj.y o' = (Obj.y obj + Obj.vy o')%num) /\
  (let wx :=
     ((Obj.vx obj + Obj.fx obj / Obj.mass obj * deltaTime st)
      * friction)%num in
   let wy :=
     ((Obj.vy obj + Obj.fy obj / Obj.mass obj * deltaTime st)
      * friction)%num in
   let vel := nsqrt (wx * wx + wy * wy)%num in
   exists moved,
     Classic.physicsStep h r st
     = Classic.keepInBounds h r (store r moved st) /\
     Obj.vx moved
     = (if (vel > maxVel)%num then wx / vel * maxVel else wx)%num /\
     Obj.vy moved
     = (if (vel > maxVel)%num then wy / vel * maxVel else wy)%num /\
     Obj.x moved = (Obj.x obj + Obj.vx moved)%num /\
     Obj.y moved = (Obj.y obj + Obj.vy moved)%num).
Proof.
  intros Hr Hl friction maxVel. split.
  - intros pulled wx wy vel.
    rewrite (physicsStep_bounds h r obj st Hr Hl). fold pulled.
    set (moved := integrate (deltaTime st) pulled).
    destruct (keepInBounds_lookup h r r moved (store r moved st)) as (b & Hb).
    { apply lookup_store_eq. by eapply lookup_lt_Some. }
    exists (set_live b moved). split; [exact Hb|].
    destruct (applyGravity_force_only st obj) as (gx & gy & Hg).
    fold pulled in Hg.
    assert (Hv : Obj.vx pulled = Obj.vx obj /\ Obj.vy pulled = Obj.vy obj /\
                 Obj.x pulled = Obj.x obj /\ Obj.y pulled = Obj.y obj /\
                 Obj.mass pulled = Obj.mass obj /\
                 Obj.type pulled = Obj.type obj) by (by rewrite Hg).
    destruct Hv as (Hvx & Hvy & Hx & Hy & Hm & Ht).
    pose proof (integrate_velocity (deltaTime st) pulled) as Hi.
    cbv zeta in Hi. rewrite Hvx, Hvy, Hx, Hy, Hm, Ht in Hi.
    fold friction maxVel wx wy vel moved in Hi.
    destruct Hi as (Hmoved & Hux & Huy).
    change (Obj.vx (set_live b moved)) with (Obj.vx moved).
    change (Obj.vy (set_live b moved)) with (Obj.vy moved).
    change (Obj.x (set_live b moved)) with (Obj.x moved).
    change (Obj.y (set_live b moved)) with (Obj.y moved).
    rewrite Hux, Huy. split; [done|]. split; [done|].
    by rewrite Hmoved.
  - intros wx wy vel. exists (integrate (deltaTime st) obj).
    split; [unfold Classic.physicsStep; by rewrite Hr, Hl|].
    pose proof (integrate_velocity (deltaTime st) obj) as Hi.
    cbv zeta in Hi. fold friction maxVel wx wy vel in Hi.
    destruct Hi as (Hmoved & Hux & Huy).
    rewrite Hux, Huy. split; [done|]. split; [done|].
    by rewrite Hmoved.
Qed.

End SpeedCap.

Lemma speed_cap_enforced_witness :
  exists o',
    heap (physicsStep Scenario.host 1 Scenario.speeding) !! 1 = Some o' /\
    Obj.vx o' = ofZ 6 /\ Obj.x o' = ofZ 406.
Proof.
  destruct (speed_cap_enforced Scenario.host 1 Scenario.fastBall
              Scenario.speeding eq_refl eq_refl)
    as [(o' & Ho & Hvx & _ & Hx & _) _].
  exists o'. split; [exact Ho|]. split.
  - rewrite Hvx. by vm_compute.
  - rewrite Hx, Hvx. by vm_compute.
Defined.

(** ** The pull of one hole within a frame *)

(** In exact arithmetic the pulls of a run of entries of [this.objects]
    add a force that does not depend on the force the object carries. *)
Lemma pulls_add (st : State R) l (obj : GameObject R) :
  exists gx gy, forall a b,
    forEach (fun q o => match heap st !! q with
                        | Some hl => gravityFrom hl o
                        | None => o
                        end) l (set_force a b obj)
    = set_force (a + gx)%R (b + gy)%R obj.
Proof.
  unfold forEach. induction l as [|r l IH]; simpl.
  { exists 0%R, 0%R. intros a b. by rewrite !Rplus_0_r. }
  destruct IH as (gx & gy & IH).
  destruct (heap st !! r) as [hole|].
  - destruct (gravityFrom_adds hole obj) as (g1 & g2 & Hg).
    exists (g1 + gx)%R, (g2 + gy)%R. intros a b.
    by rewrite Hg, IH, !Rplus_assoc.
  - by exists gx, gy.
Qed.

(** The force an object has after the pull of the holes, with one hole of
    [this.objects] and without it. *)
Lemma applyGravity_without pre r post hole obj (st : State R) :
  objects st = pre ++ r :: post -> heap st !! r = Some hole ->
  Obj.type obj <> HOLE ->
  let rest := applyGravity (set_objects (pre ++ post) st) obj in
  (Obj.fx (applyGravity st obj) - Obj.fx rest
   = Obj.fx (gravityFrom hole obj) - Obj.fx obj)%R /\
  (Obj.fy (applyGravity st obj) - Obj.fy rest
   = Obj.fy (gravityFrom hole obj) - Obj.fy obj)%R.
Proof.
  intros Hobjs Hr Hk rest.
  assert (Hself : forall o : GameObject R,
            set_force (Obj.fx o) (Obj.fy o) o = o) by (by intros []).
  rewrite (applyGravity_split st obj pre r post hole Hk Hobjs Hr).
  subst rest. unfold applyGravity.
  destruct (isKind (Obj.type obj) HOLE) eqn:E.
  { destruct (Obj.type obj); done. }
  change (objects (set_objects (pre ++ post) st)) with (pre ++ post).
  change (heap (set_objects (pre ++ post) st)) with (heap st).
  cbv zeta. set (pull := fun q o => match heap st !! q with
                                    | Some hl => gravityFrom hl o
                                    | None => o
                                    end).
  assert (Happ : forEach pull (pre ++ post) obj
                 = forEach pull post (forEach pull pre obj)).
  { unfold forEach. by rewrite fold_left_app. }
  rewrite Happ.
  destruct (pulls_add st pre obj) as (p1 & p2 & Hp). fold pull in Hp.
  destruct (pulls_add st post obj) as (q1 & q2 & Hq). fold pull in Hq.
  destruct (gravityFrom_adds hole obj) as (g1 & g2 & Hg).
  assert (Hgen : forall a b,
            (Obj.fx (forEach pull post
                       (gravityFrom hole (forEach pull pre (set_force a b obj))))
             - Obj.fx (forEach pull post (forEach pull pre (set_force a b obj)))
             = Obj.fx (gravityFrom hole (set_force a b obj))
               - Obj.fx (set_force a b obj))%R /\
            (Obj.fy (forEach pull post
                       (gravityFrom hole (forEach pull pre (set_force a b obj))))
             - Obj.fy (forEach pull post (forEach pull pre (set_force a b obj)))
             = Obj.fy (gravityFrom hole (set_force a b obj))
               - Obj.fy (set_force a b obj))%R).
  { intros a b. rewrite !Hp, !Hg, !Hq. simpl. split; ring. }
  specialize (Hgen (Obj.fx obj) (Obj.fy obj)). by rewrite Hself in Hgen.
Qed.

(** C4 (amended). In exact real arithmetic, the share of one live hole in
    the force that a live object which is not a hole carries after its
    physics step (the force with the hole in [this.objects] less the force
    without it), [d] being the distance of the two centres: nothing for
    [d <= 30] or [d >= 150]; for [30 < d < 150] a force of magnitude
    [1000 / d^2] that is a positive multiple of the vector from the object
    to the hole. *)
Theorem gravity_band (h : Host R) pre r post hole q obj (st : State R) :
  objects st = pre ++ r :: post ->
  heap st !! r = Some hole -> Obj.live hole = true -> Obj.type hole = HOLE ->
  heap st !! q = Some obj -> Obj.live obj = true -> Obj.type obj <> HOLE ->
  let dx := (Obj.x hole - Obj.x obj)%R in
  let dy := (Obj.y hole - Obj.y obj)%R in
  let d := sqrt (dx * dx + dy * dy) in
  exists o' o0,
    heap (physicsStep h q st) !! q = Some o' /\
    heap (physicsStep h q (set_objects (pre ++ post) st)) !! q = Some o0 /\
    let Fx := (Obj.fx o' - Obj.fx o0)%R in
    let Fy := (Obj.fy o' - Obj.fy o0)%R in
    ((d <= 30 \/ 150 <= d)%R -> Fx = 0%R /\ Fy = 0%R) /\
    ((30 < d < 150)%R ->
     sqrt (Fx * Fx + Fy * Fy) = (1000 / (d * d))%R /\
     exists k, (0 < k)%R /\ Fx = (k * dx)%R /\ Fy = (k * dy)%R).
Proof.
  intros Hobjs Hr Hlh Hkh Hq Hl Hk dx dy d.
  set (st0 := set_objects (pre ++ post) st).
  assert (Hstep : forall s : State R,
            heap s !! q = Some obj ->
            exists o, heap (physicsStep h q s) !! q = Some o /\
              Obj.fx o = Obj.fx (applyGravity s obj) /\
              Obj.fy o = Obj.fy (applyGravity s obj)).
  { intros s Hs. rewrite (physicsStep_bounds h q obj s Hs Hl).
    set (moved := integrate (deltaTime s) (applyGravity s obj)).
    destruct (keepInBounds_lookup h q q moved (store q moved s)) as (b & Hb).
    { apply lookup_store_eq. by eapply lookup_lt_Some. }
    exists (set_live b moved). split; [exact Hb|].
    destruct (integrate_force (deltaTime s) (applyGravity s obj))
      as [Hfx Hfy].
    split; [exact Hfx|exact Hfy]. }
  destruct (Hstep st Hq) as (o' & Ho' & Hfx' & Hfy').
  destruct (Hstep st0 Hq) as (o0 & Ho0 & Hfx0 & Hfy0).
  exists o', o0. split; [exact Ho'|]. split; [exact Ho0|].
  destruct (applyGravity_without pre r post hole obj st Hobjs Hr Hk)
    as [Hx Hy].
  fold st0 in Hx, Hy. cbv zeta.
  rewrite Hfx', Hfy', Hfx0, Hfy0, Hx, Hy.
  destruct (gravityFrom_band hole obj Hlh Hkh) as [Hout Hin].
  split; [|exact Hin].
  intros Hd. by destruct (Hout Hd) as (? & ? & _).
Qed.

Lemma gravity_band_witness :
  exists o' o0,
    heap (physicsStep Scenario.hostR 1 Scenario.orbit) !! 1 = Some o' /\
    heap (physicsStep Scenario.hostR 1 (set_objects [1] Scenario.orbit)) !! 1
    = Some o0 /\
    sqrt ((Obj.fx o' - Obj.fx o0) * (Obj.fx o' - Obj.fx o0)
          + (Obj.fy o' - Obj.fy o0) * (Obj.fy o' - Obj.fy o0))
    = (1000 / (90 * 90))%R.
Proof.
  destruct (gravity_band Scenario.hostR [] 0 [1] Scenario.well 1
              Scenario.satellite Scenario.orbit)
    as (o' & o0 & Ho' & Ho0 & _ & Hin); try reflexivity; [done|].
  exists o', o0. split; [exact Ho'|]. split; [exact Ho0|].
  assert (Hd : sqrt ((90 - 0) * (90 - 0) + (0 - 0) * (0 - 0)) = 90%R).
  { replace ((90 - 0) * (90 - 0) + (0 - 0) * (0 - 0))%R
      with (90 * 90)%R by lra.
    apply sqrt_square. lra. }
  change (Obj.x Scenario.well) with 90%R in Hin.
  change (Obj.y Scenario.well) with 0%R in Hin.
  change (Obj.x Scenario.satellite) with 0%R in Hin.
  change (Obj.y Scenario.satellite) with 0%R in Hin.
  rewrite Hd in Hin. destruct Hin as [Hmag _]; [lra|]. exact Hmag.
Defined.

(** C4, as stated, fails on binary64, where the band is tested on the
    rounded distance.  The hole is 90 to the right of the ball and
    [120 - 2^-46] below it (both differences are computed exactly, as
    their mantissas at the exponent -46 show), so the distance of the
    centres is above 30 and below 150; the engine computes 150, and the
    hole adds nothing to the force of the ball, in [applyGravity] and in
    the physics step. *)
Lemma gravity_band_rounding :
  heap Scenario.rim !! 0 = Some Scenario.rimHole /\
  heap Scenario.rim !! 1 = Some Scenario.rimBall /\
  Obj.live Scenario.rimHole = true /\ Obj.type Scenario.rimHole = HOLE /\
  Prim2SF (Obj.x Scenario.rimHole - Obj.x Scenario.rimBall)%num
  = S754_finite false 6333186975989760 (-46) /\
  Prim2SF (Obj.y Scenario.rimHole - Obj.y Scenario.rimBall)%num
  = S754_finite false 8444249301319679 (-46) /\
  ((30 * 2 ^ 46) ^ 2
   < 6333186975989760 ^ 2 + 8444249301319679 ^ 2
   < (150 * 2 ^ 46) ^ 2)%Z /\
  nsqrt ((Obj.x Scenario.rimHole - Obj.x Scenario.rimBall)
         * (Obj.x Scenario.rimHole - Obj.x Scenario.rimBall)
         + (Obj.y Scenario.rimHole - Obj.y Scenario.rimBall)
           * (Obj.y Scenario.rimHole - Obj.y Scenario.rimBall))%num
  = ofZ 150 /\
  applyGravity Scenario.rim Scenario.rimBall = Scenario.rimBall /\
  exists o',
    heap (physicsStep Scenario.host 1 Scenario.rim) !! 1 = Some o' /\
    Obj.live o' = true /\
    Obj.fx o' = Obj.fx Scenario.rimBall /\
    Obj.fy o' = Obj.fy Scenario.rimBall.
Proof.
  repeat (split; [by vm_compute|]).
  eexists. split; [by vm_compute|]. by vm_compute.
Qed.
